(** * Guillotine-cut MISR: the memoized window recursion of
      [Guillotine_Cut_MISR.cpp], embedded and verified.

    The C++ program reads a rectangle list, compresses the coordinates,
    runs a memoized recursion [solve] over grid windows and walks the memo
    table again ([recon]) to list the chosen rectangles.

    Conventions of the embedding:
    - [int] and [long long] quantities are [Z].  Coordinates are only ever
      compared.  Grid indices lie in [0, 2n] and stored values in [0, n]
      (proved below), so none of the [int] additions of the engine wraps.
    - [unordered_map<Key, Answer, KeyHash>] is a [gmap Key Answer]; the
      program only uses [find] and [operator[]] assignment.  The last part
      of the definitions has the engine over any table with these two
      operations, and the runs that are refused memory.
    - The recursive lambdas [solve] and [recon] thread the memo table and
      the [chosen] vector explicitly.  Their recursion is not structural, so
      both take a fuel argument and return [None] when it runs out; the
      theorems show that the fuel handed over by [engine] is enough. *)

From stdpp Require Import gmap list list_numbers sorting strings.
From Stdlib Require Import ZArith Lia Ascii.

Open Scope Z_scope.

(** ** Data model (lines 12-19 and 60 of the source) *)

Record Rect := mkRect { xl : Z; yb : Z; xr : Z; yt : Z }.

(** [struct Choice { int type = 0, param = -1; }]:
    1 = leaf rectangle (param = rid), 2 = vertical cut, 3 = horizontal cut. *)
Record Choice := mkChoice { type : Z; param : Z }.

Record Answer := mkAnswer { val : Z; ch : Choice }.

Record Key := mkKey { xi : Z; xj : Z; yk : Z; yl : Z }.

(** [struct RI { int xl, xr, yb, yt; }], local to [main]. *)
Module RI.
Record t := mk { xl : Z; xr : Z; yb : Z; yt : Z }.
End RI.

(** [Choice{}] and [Answer{0,{}}]. *)
Definition Choice0 : Choice := mkChoice 0 (-1).
Definition Answer0 : Answer := mkAnswer 0 Choice0.

Global Instance Rect_eq_dec : EqDecision Rect.
Proof. solve_decision. Defined.
Global Instance Choice_eq_dec : EqDecision Choice.
Proof. solve_decision. Defined.
Global Instance Answer_eq_dec : EqDecision Answer.
Proof. solve_decision. Defined.
Global Instance Key_eq_dec : EqDecision Key.
Proof. solve_decision. Defined.

Definition Key_to_tuple (k : Key) : Z * Z * Z * Z := (xi k, xj k, yk k, yl k).
Definition Key_of_tuple (p : Z * Z * Z * Z) : Key :=
  let '(a, b, c, d) := p in mkKey a b c d.

Global Instance Key_countable : Countable Key.
Proof.
  refine (inj_countable' Key_to_tuple Key_of_tuple _).
  intros []. reflexivity.
Defined.

(** ** Coordinate compression (lines 53-67) *)

(** [std::unique] followed by [erase]: keep the first element of every run
    of equal neighbours. *)
Fixpoint unique_from (x : Z) (l : list Z) : list Z :=
  match l with
  | [] => [x]
  | y :: l' => if x =? y then unique_from x l' else x :: unique_from y l'
  end.

Definition unique (l : list Z) : list Z :=
  match l with
  | [] => []
  | x :: l' => unique_from x l'
  end.

(** [std::lower_bound(l.begin(), l.end(), v) - l.begin()]: the index of the
    first element that is not less than [v]. *)
Fixpoint lower_bound (l : list Z) (v : Z) : Z :=
  match l with
  | [] => 0
  | x :: l' => if x <? v then 1 + lower_bound l' v else 0
  end.

Definition xs_of (R : list Rect) : list Z :=
  unique (merge_sort Z.le (R ≫= λ r, [xl r; xr r])).

Definition ys_of (R : list Rect) : list Z :=
  unique (merge_sort Z.le (R ≫= λ r, [yb r; yt r])).

Definition index_rect (xs ys : list Z) (r : Rect) : RI.t :=
  RI.mk (lower_bound xs (xl r)) (lower_bound xs (xr r))
        (lower_bound ys (yb r)) (lower_bound ys (yt r)).

Definition RIv_of (R : list Rect) : list RI.t :=
  index_rect (xs_of R) (ys_of R) <$> R.

(** ** The engine (lines 69-137) *)

Definition degenerate (xi xj yk yl : Z) : bool := (xj <=? xi) || (yl <=? yk).

(** The test inside [windowHasAnyRect]. *)
Definition inside (q : RI.t) (xi xj yk yl : Z) : bool :=
  (xi <=? RI.xl q) && (RI.xr q <=? xj) && (yk <=? RI.yb q) && (RI.yt q <=? yl).

(** [v > best.val ? {v, {ty, c}} : best], the update of both cut loops. *)
Definition improve (ty c v : Z) (best : Answer) : Answer :=
  if val best <? v then mkAnswer v (mkChoice ty c) else best.

(** Apply a function of four window bounds to a key. *)
Definition on_key {A} (f : Z → Z → Z → Z → A) (k : Key) : A :=
  f (xi k) (xj k) (yk k) (yl k).

(** Body shared by the two cut loops: for every [c] of [cs] in turn, solve
    the two sub-windows [lo c] and [hi c] and keep the sum when it is
    strictly better. [rec] is the recursive call. *)
Fixpoint cut_loop (rec : Key → gmap Key Answer → option (Answer * gmap Key Answer))
    (ty : Z) (lo hi : Z → Key) (cs : list Z)
    (best : Answer) (memo : gmap Key Answer) : option (Answer * gmap Key Answer) :=
  match cs with
  | [] => Some (best, memo)
  | c :: cs' =>
      '(L, memo1) ← rec (lo c) memo;
      '(Rw, memo2) ← rec (hi c) memo1;
      cut_loop rec ty lo hi cs' (improve ty c (val L + val Rw) best) memo2
  end.

Section Engine.
Variable RIv : list RI.t.

Definition n : Z := Z.of_nat (length RIv).

Definition exactMatch (rid xi xj yk yl : Z) : bool :=
  match RIv !! Z.to_nat rid with
  | Some q =>
      (RI.xl q =? xi) && (RI.xr q =? xj) && (RI.yb q =? yk) && (RI.yt q =? yl)
  | None => false
  end.

Definition windowHasAnyRect (xi xj yk yl : Z) : bool :=
  existsb (λ rid, match RIv !! Z.to_nat rid with
                  | Some q => inside q xi xj yk yl
                  | None => false
                  end) (seqZ 0 n).

(** The leaf loop: the first [rid] with [exactMatch], if any. *)
Definition leaf_scan (xi xj yk yl : Z) : Answer :=
  match list_find (λ rid, exactMatch rid xi xj yk yl = true) (seqZ 0 n) with
  | Some (_, rid) => mkAnswer 1 (mkChoice 1 rid)
  | None => Answer0
  end.

Fixpoint solve (fuel : nat) (xi xj yk yl : Z) (memo : gmap Key Answer)
    : option (Answer * gmap Key Answer) :=
  match fuel with
  | O => None
  | S fuel' =>
      if degenerate xi xj yk yl then Some (Answer0, memo) else
      let key := mkKey xi xj yk yl in
      match memo !! key with
      | Some a => Some (a, memo)
      | None =>
          if negb (windowHasAnyRect xi xj yk yl)
          then Some (Answer0, <[key := Answer0]> memo)
          else
            let rec := on_key (solve fuel') in
            let best := leaf_scan xi xj yk yl in
            '(best, memo) ← cut_loop rec 2 (λ c, mkKey xi c yk yl)
                               (λ c, mkKey c xj yk yl)
                               (seqZ (xi + 1) (xj - xi - 1)) best memo;
            '(best, memo) ← cut_loop rec 3 (λ c, mkKey xi xj yk c)
                               (λ c, mkKey xi xj c yl)
                               (seqZ (yk + 1) (yl - yk - 1)) best memo;
            Some (best, <[key := best]> memo)
      end
  end.

(** [recon] appends to the captured vector [chosen]. *)
Fixpoint recon (fuel : nat) (memo : gmap Key Answer) (xi xj yk yl : Z)
    (chosen : list Z) : option (list Z) :=
  match fuel with
  | O => None
  | S fuel' =>
      match memo !! mkKey xi xj yk yl with
      | None => Some chosen
      | Some A =>
          if val A =? 0 then Some chosen
          else if type (ch A) =? 1 then Some (chosen ++ [param (ch A)])
          else if type (ch A) =? 2 then
            let c := param (ch A) in
            chosen ← recon fuel' memo xi c yk yl chosen;
            recon fuel' memo c xj yk yl chosen
          else if type (ch A) =? 3 then
            let c := param (ch A) in
            chosen ← recon fuel' memo xi xj yk c chosen;
            recon fuel' memo xi xj c yl chosen
          else Some chosen
      end
  end.
End Engine.


(** ** Specification vocabulary *)

Definition degenerateK (k : Key) : bool := degenerate (xi k) (xj k) (yk k) (yl k).

(** Width plus height of a window: the measure of both recursions. *)
Definition size (k : Key) : nat := Z.to_nat (xj k - xi k) + Z.to_nat (yl k - yk k).

(** The two sub-windows of a vertical cut at column [c], and of a horizontal
    cut at row [c]. *)
Definition vL (k : Key) (c : Z) : Key := mkKey (xi k) c (yk k) (yl k).
Definition vR (k : Key) (c : Z) : Key := mkKey c (xj k) (yk k) (yl k).
Definition hB (k : Key) (c : Z) : Key := mkKey (xi k) (xj k) (yk k) c.
Definition hT (k : Key) (c : Z) : Key := mkKey (xi k) (xj k) c (yl k).

(** [k] lies within [k']. *)
Definition withinK (k k' : Key) : Prop :=
  xi k' ≤ xi k ∧ xj k ≤ xj k' ∧ yk k' ≤ yk k ∧ yl k ≤ yl k'.

(** The value the table holds for a window (0 when it holds none). *)
Definition stored_val (m : gmap Key Answer) (k : Key) : Z :=
  match m !! k with Some a => val a | None => 0 end.

Definition cut_cand (m : gmap Key Answer) (ty : Z) (lo hi : Z → Key) (c : Z) : Answer :=
  mkAnswer (stored_val m (lo c) + stored_val m (hi c)) (mkChoice ty c).

(** [a] is the earliest element of [cands] whose value is the maximum. *)
Definition earliest_max (cands : list Answer) (a : Answer) : Prop :=
  ∃ pre post, cands = pre ++ a :: post ∧
    Forall (λ b, val b < val a) pre ∧ Forall (λ b, val b ≤ val a) post.

Section Spec.
Variable RIv : list RI.t.

Definition solveK (fuel : nat) (k : Key) (m : gmap Key Answer) :=
  on_key (solve RIv fuel) k m.

Definition hasRectK (k : Key) : bool :=
  windowHasAnyRect RIv (xi k) (xj k) (yk k) (yl k).

(** The candidates of a window in enumeration order: every rectangle that
    matches the window exactly, by increasing index, each worth 1; then the
    vertical cuts by increasing column; then the horizontal cuts by
    increasing row.  A cut is worth the sum of the stored values of its two
    sub-windows. *)
Definition leaf_cands (k : Key) : list Answer :=
  (λ rid, mkAnswer 1 (mkChoice 1 rid)) <$>
    filter (λ rid, exactMatch RIv rid (xi k) (xj k) (yk k) (yl k) = true)
           (seqZ 0 (n RIv)).

Definition vcut_cands (m : gmap Key Answer) (k : Key) : list Answer :=
  cut_cand m 2 (vL k) (vR k) <$> seqZ (xi k + 1) (xj k - xi k - 1).

Definition hcut_cands (m : gmap Key Answer) (k : Key) : list Answer :=
  cut_cand m 3 (hB k) (hT k) <$> seqZ (yk k + 1) (yl k - yk k - 1).

Definition candidates (m : gmap Key Answer) (k : Key) : list Answer :=
  leaf_cands k ++ vcut_cands m k ++ hcut_cands m k.

(** What a table entry must look like.  [Answer0], the initial [best],
    heads the list: it is what stays when no candidate has a positive
    value. *)
Definition entry_ok (m : gmap Key Answer) (k : Key) (a : Answer) : Prop :=
  degenerateK k = false ∧
  if hasRectK k then
    earliest_max (Answer0 :: candidates m k) a ∧
    (∀ c, xi k < c < xj k → is_Some (m !! vL k c) ∧ is_Some (m !! vR k c)) ∧
    (∀ c, yk k < c < yl k → is_Some (m !! hB k c) ∧ is_Some (m !! hT k c))
  else a = Answer0.

Definition memo_inv (m : gmap Key Answer) : Prop :=
  ∀ k a, m !! k = Some a → entry_ok m k a.

(** Post-condition of a call [solve k] started with table [m]. *)
Definition solve_post (m : gmap Key Answer) (k : Key)
    (r : option (Answer * gmap Key Answer)) : Prop :=
  ∃ a m', r = Some (a, m') ∧ memo_inv m' ∧ m ⊆ m' ∧
    (if degenerateK k then a = Answer0 ∧ m' = m else m' !! k = Some a) ∧
    (∀ k', m !! k' = None → is_Some (m' !! k') → withinK k' k).

(** Tables that arise in a run: the empty one, and whatever a call of
    [solve] leaves behind when started from such a table. *)
Inductive reachable : gmap Key Answer → Prop :=
  | reachable_empty : reachable ∅
  | reachable_solve fuel k m a m' :
      reachable m → solveK fuel k m = Some (a, m') → reachable m'.
End Spec.


(** ** Valid instances, counting, reconstruction with a call log *)

Definition insideK (q : RI.t) (k : Key) : bool := on_key (inside q) k.

(** Grid rectangles are non-empty. *)
Definition RI_valid (q : RI.t) : Prop := RI.xl q < RI.xr q ∧ RI.yb q < RI.yt q.

(** Number of rectangles that lie fully inside a window. *)
Definition count_inside (RIv : list RI.t) (k : Key) : Z :=
  Z.of_nat (length (filter (λ q, insideK q k = true) RIv)).

(** [recon] with a ghost log of the windows it is called on, in call order.
    Erasing the log gives [recon] back ([recon_log_erase]). *)
Fixpoint recon_log (fuel : nat) (memo : gmap Key Answer) (xi xj yk yl : Z)
    (st : list Z * list Key) : option (list Z * list Key) :=
  match fuel with
  | O => None
  | S fuel' =>
      let chosen := st.1 in
      let visited := st.2 ++ [mkKey xi xj yk yl] in
      match memo !! mkKey xi xj yk yl with
      | None => Some (chosen, visited)
      | Some A =>
          if val A =? 0 then Some (chosen, visited)
          else if type (ch A) =? 1 then Some (chosen ++ [param (ch A)], visited)
          else if type (ch A) =? 2 then
            let c := param (ch A) in
            st ← recon_log fuel' memo xi c yk yl (chosen, visited);
            recon_log fuel' memo c xj yk yl st
          else if type (ch A) =? 3 then
            let c := param (ch A) in
            st ← recon_log fuel' memo xi xj yk c (chosen, visited);
            recon_log fuel' memo xi xj c yl st
          else Some (chosen, visited)
      end
  end.

(** ** From the rectangle list to the answer (lines 52-67, 124, 137) *)

Definition valid_rect (r : Rect) : Prop := xl r < xr r ∧ yb r < yt r.

(** The global bounding window [(0, X-1, 0, Y-1)]. *)
Definition root (R : list Rect) : Key :=
  mkKey 0 (Z.of_nat (length (xs_of R)) - 1) 0 (Z.of_nat (length (ys_of R)) - 1).

(** [solve] on the bounding window, from the empty table. *)
Definition solve_root (fuel : nat) (R : list Rect) : option (Answer * gmap Key Answer) :=
  solveK (RIv_of R) fuel (root R) ∅.

Definition recon_root (fuel : nat) (R : list Rect) (memo : gmap Key Answer)
    : option (list Z) :=
  on_key (recon fuel memo) (root R) [].

Definition engine_with (fuel : nat) (R : list Rect) : option (Answer * list Z) :=
  '(ans, memo) ← solve_root fuel R;
  chosen ← recon_root fuel R memo;
  Some (ans, chosen).

(** Fuel that always suffices: one more than the size of the root window. *)
Definition engine_fuel (R : list Rect) : nat := S (size (root R)).

Definition engine (R : list Rect) : option (Answer * list Z) :=
  engine_with (engine_fuel R) R.

(** Two rectangles overlap when their interiors meet; sharing an edge or a
    corner does not count ([rectanglesOverlap] of [ilp.cpp]). *)
Definition rectanglesOverlap (a b : Rect) : bool :=
  if Z.min (xr a) (xr b) <=? Z.max (xl a) (xl b) then false
  else if Z.min (yt a) (yt b) <=? Z.max (yb a) (yb b) then false
  else true.

(** Two grid rectangles with disjoint interiors. *)
Definition grid_disjoint (p q : RI.t) : Prop :=
  RI.xr p ≤ RI.xl q ∨ RI.xr q ≤ RI.xl p ∨ RI.yt p ≤ RI.yb q ∨ RI.yt q ≤ RI.yb p.

(** The rectangles named at two different positions of [ids] have disjoint
    interiors on the grid. *)
Definition separated (RIv : list RI.t) (ids : list Z) : Prop :=
  ∀ i j ri rj, (i < j)%nat → ids !! i = Some ri → ids !! j = Some rj →
    ∃ p q, RIv !! Z.to_nat ri = Some p ∧ RIv !! Z.to_nat rj = Some q ∧
           grid_disjoint p q.

(** ** Input and output of [main] (lines 34-50 and 139-146) *)

(** [cin] is the list of characters not yet consumed. *)
Definition isspace (c : ascii) : bool :=
  let k := nat_of_ascii c in
  Nat.eqb k 32 || (Nat.leb 9 k && Nat.leb k 13).

Definition digit (c : ascii) : option Z :=
  let k := Z.of_nat (nat_of_ascii c) in
  if (48 <=? k) && (k <=? 57) then Some (k - 48) else None.

Fixpoint skipws (s : list ascii) : list ascii :=
  match s with
  | c :: s' => if isspace c then skipws s' else s
  | [] => []
  end.

(** The longest run of decimal digits at the head of [s]: how many there
    were, the number they spell after [acc], and the rest. *)
Fixpoint read_digits (s : list ascii) (acc : Z) (cnt : nat) : Z * nat * list ascii :=
  match s with
  | c :: s' =>
      match digit c with
      | Some d => read_digits s' (10 * acc + d) (S cnt)
      | None => (acc, cnt, s)
      end
  | [] => (acc, cnt, s)
  end.

(** [cin >> x] for a signed integer type with range [lo, hi]: skip white
    space, take an optional sign and the longest digit run; fail when there
    is no digit or the number is out of range.  [None] is the stream's fail
    state, after which [main] returns at once. *)
Definition read_sign (s : list ascii) : bool * list ascii :=
  match s with
  | c :: s' =>
      if Ascii.eqb c "-" then (true, s')
      else if Ascii.eqb c "+" then (false, s')
      else (false, s)
  | [] => (false, s)
  end.

Definition extract (lo hi : Z) (s : list ascii) : option (Z * list ascii) :=
  let '(neg, s) := read_sign (skipws s) in
  let '(v, cnt, rest) := read_digits s 0 0 in
  let v := if neg then - v else v in
  if Nat.eqb cnt 0 then None
  else if (lo <=? v) && (v <=? hi) then Some (v, rest) else None.

Definition INT_MIN : Z := - 2 ^ 31.
Definition INT_MAX : Z := 2 ^ 31 - 1.
Definition LLONG_MIN : Z := - 2 ^ 63.
Definition LLONG_MAX : Z := 2 ^ 63 - 1.

Definition extract_int : list ascii → option (Z * list ascii) := extract INT_MIN INT_MAX.
Definition extract_ll : list ascii → option (Z * list ascii) := extract LLONG_MIN LLONG_MAX.

(** [cin >> R[i].xl >> R[i].yb >> R[i].xr >> R[i].yt]. *)
Definition extract_rect (s : list ascii) : option (Rect * list ascii) :=
  '(a, s) ← extract_ll s;
  '(b, s) ← extract_ll s;
  '(c, s) ← extract_ll s;
  '(d, s) ← extract_ll s;
  Some (mkRect a b c d, s).

(** What [main] writes to [cerr] before [return 1]. *)
Inductive diagnostic :=
  | BadCount              (* first line must be a positive integer n *)
  | BadLine (line : Z)    (* line <line> must have 4 numbers *)
  | BadRect (i : Z).      (* rectangle <i> must satisfy xl<xr and yb<yt *)

(** How a run ends: [return 1] with a diagnostic on [cerr] and nothing on
    [cout], or [return 0] with the solution block on [cout]: the count and
    one line per chosen id with the rectangle's original bounds. *)
Inductive outcome :=
  | Exit1 (d : diagnostic)
  | Exit0 (count : Z) (lines : list (Z * Rect)).

(** The reading loop, [cnt] records to go, [i] the loop counter. *)
Fixpoint read_rects (cnt : nat) (i : Z) (s : list ascii) (R : list Rect)
    : diagnostic + list Rect :=
  match cnt with
  | O => inr R
  | S cnt' =>
      match extract_rect s with
      | None => inl (BadLine (i + 2))
      | Some (r, s') =>
          if (xl r <? xr r) && (yb r <? yt r)
          then read_rects cnt' (i + 1) s' (R ++ [r])
          else inl (BadRect i)
      end
  end.

(** Lines 34-50 in a run that is given the memory for [vector<Rect> R(n)]
    (line 40); [main_run] below has the run that is not. *)
Definition read_input (s : list ascii) : diagnostic + list Rect :=
  match extract_int s with
  | None => inl BadCount
  | Some (n, s') =>
      if n <=? 0 then inl BadCount
      else read_rects (Z.to_nat n) 0 s' []
  end.

(** The printing loop; [R[rid]] outside the vector has no defined
    behaviour, hence the option. *)
Definition print_lines (R : list Rect) (chosen : list Z) : option (list (Z * Rect)) :=
  mapM (λ rid, if rid <? 0 then None else r ← R !! Z.to_nat rid; Some (rid, r)) chosen.

Definition report (R : list Rect) (res : option (Answer * list Z)) : option outcome :=
  '(ans, chosen) ← res;
  lines ← print_lines R chosen;
  Some (Exit0 (val ans) lines).

(** [main] with a given recursion budget; [None] when the budget is too
    small. *)
Definition main_with (fuel : nat) (input : string) : option outcome :=
  match read_input (String.list_ascii_of_string input) with
  | inl d => Some (Exit1 d)
  | inr R => report R (engine_with fuel R)
  end.

Definition main (input : string) : option outcome :=
  match read_input (String.list_ascii_of_string input) with
  | inl d => Some (Exit1 d)
  | inr R => report R (engine R)
  end.

(** ** The worked instance of the specification *)

Definition R3 : list Rect := [mkRect 0 0 2 2; mkRect 1 1 3 3; mkRect 0 2 2 4].

(** The table [solve] leaves behind on it. *)
Definition memo3 : gmap Key Answer :=
  match solve_root (engine_fuel R3) R3 with Some (_, m) => m | None => ∅ end.

(** ** Well-formed input, declaratively *)

(** The number a digit string spells, continuing from [acc]. *)
Definition digits_from (acc : Z) (ds : list ascii) : Z :=
  fold_left (λ a c, 10 * a + default 0 (digit c)) ds acc.

(** [s] starts with an integer field worth [v] and [rest] follows it: white
    space, an optional sign, a non-empty run of digits that [rest] does not
    continue, and a value within [lo, hi]. *)
Definition field (lo hi : Z) (s : list ascii) (v : Z) (rest : list ascii) : Prop :=
  ∃ ws sg ds,
    s = ws ++ sg ++ ds ++ rest ∧
    Forall (λ c, isspace c = true) ws ∧
    (sg = [] ∨ sg = ["+"%char] ∨ sg = ["-"%char]) ∧
    ds ≠ [] ∧ Forall (λ c, is_Some (digit c)) ds ∧
    head rest ≫= digit = None ∧
    v = (if decide (sg = ["-"%char]) then - digits_from 0 ds else digits_from 0 ds) ∧
    lo ≤ v ≤ hi.

(** Four [long long] fields in the order xl yb xr yt. *)
Definition rect_field (s : list ascii) (r : Rect) (rest : list ascii) : Prop :=
  ∃ s1 s2 s3,
    field LLONG_MIN LLONG_MAX s (xl r) s1 ∧ field LLONG_MIN LLONG_MAX s1 (yb r) s2 ∧
    field LLONG_MIN LLONG_MAX s2 (xr r) s3 ∧ field LLONG_MIN LLONG_MAX s3 (yt r) rest.

Inductive records : list ascii → list Rect → list ascii → Prop :=
  | records_nil s : records s [] s
  | records_cons s r s1 R s2 :
      rect_field s r s1 → records s1 R s2 → records s (r :: R) s2.

(** The stream starts with the count of [R], which is positive, and the
    records of [R], each with xl < xr and yb < yt.  Whatever follows the last
    field is not looked at. *)
Definition input_ok (s : list ascii) (R : list Rect) : Prop :=
  ∃ s1 rest,
    field INT_MIN INT_MAX s (Z.of_nat (length R)) s1 ∧ R ≠ [] ∧
    records s1 R rest ∧ Forall valid_rect R.

(** What each diagnostic says about the stream. *)
Definition diag_ok (s : list ascii) (d : diagnostic) : Prop :=
  match d with
  | BadCount => ∀ n s1, field INT_MIN INT_MAX s n s1 → n ≤ 0
  | BadLine l =>
      ∃ n s1 R0 s2,
        field INT_MIN INT_MAX s n s1 ∧ records s1 R0 s2 ∧ Forall valid_rect R0 ∧
        Z.of_nat (length R0) < n ∧ l = Z.of_nat (length R0) + 2 ∧
        ∀ r s3, ¬ rect_field s2 r s3
  | BadRect i =>
      ∃ n s1 R0 s2 r s3,
        field INT_MIN INT_MAX s n s1 ∧ records s1 R0 s2 ∧ Forall valid_rect R0 ∧
        Z.of_nat (length R0) < n ∧ i = Z.of_nat (length R0) ∧
        rect_field s2 r s3 ∧ ¬ valid_rect r
  end.

(** ** Well-formed input as the specification words it: tokens *)

(** The white-space separated tokens of a stream. *)
Fixpoint tokens_from (cur : list ascii) (s : list ascii) : list (list ascii) :=
  match s with
  | [] => if decide (cur = []) then [] else [cur]
  | c :: s' =>
      if isspace c
      then (if decide (cur = []) then tokens_from [] s' else cur :: tokens_from [] s')
      else tokens_from (cur ++ [c]) s'
  end.

Definition tokens (input : string) : list (list ascii) :=
  tokens_from [] (String.list_ascii_of_string input).

(** A numeric token: an optional sign and digits, nothing else. *)
Definition token_value (t : list ascii) : option Z :=
  let '(neg, ds) :=
    match t with
    | c :: t' =>
        if Ascii.eqb c "-" then (true, t')
        else if Ascii.eqb c "+" then (false, t')
        else (false, t)
    | [] => (false, t)
    end in
  if decide (ds ≠ [] ∧ Forall (λ c, is_Some (digit c)) ds)
  then Some (if neg then - digits_from 0 ds else digits_from 0 ds)
  else None.

Fixpoint token_records (cnt : nat) (ts : list (list ascii)) : bool :=
  match cnt with
  | O => true
  | S cnt' =>
      match ts with
      | a :: b :: c :: d :: ts' =>
          match token_value a, token_value b, token_value c, token_value d with
          | Some xl, Some yb, Some xr, Some yt =>
              (xl <? xr) && (yb <? yt) && token_records cnt' ts'
          | _, _, _, _ => false
          end
      | _ => false
      end
  end.

(** Input format of the specification: the first token is an integer
    n > 0, followed by n records of four numeric tokens with xl < xr and
    yb < yt. *)
Definition well_formed_tokens (input : string) : bool :=
  match tokens input with
  | t :: ts =>
      match token_value t with
      | Some n => (0 <? n) && token_records (Z.to_nat n) ts
      | None => false
      end
  | [] => false
  end.

Definition is_Exit0 (o : option outcome) : Prop :=
  match o with Some (Exit0 _ _) => True | _ => False end.

(** The scenario as the specification tells it: value 2, rectangles 0 and 2
    chosen, and the bounding window split by the horizontal cut at grid row
    2, which is y = 2. *)
Definition scenario_as_specified : Prop :=
  ∃ ans memo chosen,
    solve_root (engine_fuel R3) R3 = Some (ans, memo) ∧
    recon_root (engine_fuel R3) R3 memo = Some chosen ∧
    val ans = 2 ∧ chosen ≡ₚ [0; 2] ∧
    ys_of R3 !! 2%nat = Some 2 ∧
    ch ans = mkChoice 3 2.



(** ** Further vocabulary: the hash of the memo table, separable selections *)

(** [Key::operator==]. *)
Definition Key_eqb (k o : Key) : bool :=
  (xi k =? xi o) && (xj k =? xj o) && (yk k =? yk o) && (yl k =? yl o).

(** [KeyHash]: 64-bit unsigned arithmetic, written out with its wrap-around.
    [mix(k.xi)] converts the [int] to [uint64_t] first. *)
Definition wrap64 (z : Z) : Z := z mod 2 ^ 64.

Definition mix (h v : Z) : Z := wrap64 (Z.lxor h v * 1099511628211).

Definition KeyHash (k : Key) : Z :=
  let h := 1469598103934665603 in
  let h := mix h (wrap64 (xi k)) in
  let h := mix h (wrap64 (xj k)) in
  let h := mix h (wrap64 (yk k)) in
  let h := mix h (wrap64 (yl k)) in
  h.

(** The values of type [int]. *)
Definition is_int (z : Z) : Prop := INT_MIN ≤ z ≤ INT_MAX.

(** A selection that guillotine cuts along grid lines isolate inside a
    window, listed in cut order: nothing; one rectangle that lies inside the
    window; or the selections of the two parts of a vertical or horizontal
    cut strictly inside the window. *)
Inductive gsep (RIv : list RI.t) : Key → list Z → Prop :=
  | gsep_nil k : gsep RIv k []
  | gsep_one k rid q :
      0 ≤ rid → RIv !! Z.to_nat rid = Some q → insideK q k = true →
      gsep RIv k [rid]
  | gsep_vcut k c S1 S2 :
      xi k < c < xj k → gsep RIv (vL k c) S1 → gsep RIv (vR k c) S2 →
      gsep RIv k (S1 ++ S2)
  | gsep_hcut k c S1 S2 :
      yk k < c < yl k → gsep RIv (hB k c) S1 → gsep RIv (hT k c) S2 →
      gsep RIv k (S1 ++ S2).

(** ** What the input does not fix: the memo table's layout, the memory

    Two runs of the program on the same input can differ in two things.
    One is the representation of [unordered_map<Key, Answer, KeyHash>]: the
    bucket array, the order within a bucket, the hash values.  The other is
    the memory the run is given: [vector<Rect> R(n)] (line 40) is sized by
    the count alone, before any record is read, and the engine (lines 53-137)
    allocates the coordinate vectors, the table, the frames of its recursion
    and [chosen]; no allocation failure is caught. *)

(** The operations [main] uses on [memo]: its construction, [memo.find(key)]
    and [memo[key] = a]. *)
Class Memo (T : Type) := mkMemo {
  memo_empty : T;
  memo_find : T → Key → option Answer;
  memo_assign : T → Key → Answer → T
}.

(** The contract of the container as far as [main] relies on it, on the
    tables [ok] that the operations build. *)
Definition Lawful {T : Type} (M : Memo T) : Prop :=
  ∃ ok : T → Prop,
    ok memo_empty ∧
    (∀ t k a, ok t → ok (memo_assign t k a)) ∧
    (∀ k, memo_find memo_empty k = None) ∧
    (∀ t k a k', ok t →
       memo_find (memo_assign t k a) k' =
         if decide (k = k') then Some a else memo_find t k').

(** The table of the engine above. *)
Global Instance gmap_Memo : Memo (gmap Key Answer) :=
  {| memo_empty := ∅;
     memo_find m k := m !! k;
     memo_assign m k a := <[k := a]> m |}.

(** A chained hash table: an array of buckets, the bucket of a key being
    its [KeyHash] modulo the number of buckets; within a bucket, keys are
    compared with [Key::operator==].  The array is not resized here; a table
    that grows it keeps the same contract. *)
Definition bucket : Type := list (Key * Answer).

Fixpoint bucket_find (b : bucket) (k : Key) : option Answer :=
  match b with
  | [] => None
  | (k', a) :: b' => if Key_eqb k' k then Some a else bucket_find b' k
  end.

Fixpoint bucket_assign (b : bucket) (k : Key) (a : Answer) : bucket :=
  match b with
  | [] => [(k, a)]
  | (k', a') :: b' =>
      if Key_eqb k' k then (k', a) :: b' else (k', a') :: bucket_assign b' k a
  end.

Definition bucket_index (nb : nat) (k : Key) : nat :=
  Z.to_nat (KeyHash k mod Z.of_nat nb).

Definition chained_find (t : list bucket) (k : Key) : option Answer :=
  bucket_find (default [] (t !! bucket_index (length t) k)) k.

Definition chained_assign (t : list bucket) (k : Key) (a : Answer) : list bucket :=
  let i := bucket_index (length t) k in
  <[i := bucket_assign (default [] (t !! i)) k a]> t.

(** The chained table with [nb + 1] buckets. *)
Definition chained_Memo (nb : nat) : Memo (list bucket) :=
  {| memo_empty := replicate (S nb) [];
     memo_find := chained_find;
     memo_assign := chained_assign |}.

(** The engine once more (lines 83-137), over any table. *)
Section OnTable.
Context {T : Type} {M : Memo T}.

Fixpoint cut_loop_on (rec : Key → T → option (Answer * T))
    (ty : Z) (lo hi : Z → Key) (cs : list Z)
    (best : Answer) (memo : T) : option (Answer * T) :=
  match cs with
  | [] => Some (best, memo)
  | c :: cs' =>
      '(L, memo1) ← rec (lo c) memo;
      '(Rw, memo2) ← rec (hi c) memo1;
      cut_loop_on rec ty lo hi cs' (improve ty c (val L + val Rw) best) memo2
  end.

Fixpoint recon_on (fuel : nat) (memo : T) (xi xj yk yl : Z)
    (chosen : list Z) : option (list Z) :=
  match fuel with
  | O => None
  | S fuel' =>
      match memo_find memo (mkKey xi xj yk yl) with
      | None => Some chosen
      | Some A =>
          if val A =? 0 then Some chosen
          else if type (ch A) =? 1 then Some (chosen ++ [param (ch A)])
          else if type (ch A) =? 2 then
            let c := param (ch A) in
            chosen ← recon_on fuel' memo xi c yk yl chosen;
            recon_on fuel' memo c xj yk yl chosen
          else if type (ch A) =? 3 then
            let c := param (ch A) in
            chosen ← recon_on fuel' memo xi xj yk c chosen;
            recon_on fuel' memo xi xj c yl chosen
          else Some chosen
      end
  end.

Variable RIv : list RI.t.

Fixpoint solve_on (fuel : nat) (xi xj yk yl : Z) (memo : T) : option (Answer * T) :=
  match fuel with
  | O => None
  | S fuel' =>
      if degenerate xi xj yk yl then Some (Answer0, memo) else
      let key := mkKey xi xj yk yl in
      match memo_find memo key with
      | Some a => Some (a, memo)
      | None =>
          if negb (windowHasAnyRect RIv xi xj yk yl)
          then Some (Answer0, memo_assign memo key Answer0)
          else
            let rec := on_key (solve_on fuel') in
            let best := leaf_scan RIv xi xj yk yl in
            '(best, memo) ← cut_loop_on rec 2 (λ c, mkKey xi c yk yl)
                               (λ c, mkKey c xj yk yl)
                               (seqZ (xi + 1) (xj - xi - 1)) best memo;
            '(best, memo) ← cut_loop_on rec 3 (λ c, mkKey xi xj yk c)
                               (λ c, mkKey xi xj c yl)
                               (seqZ (yk + 1) (yl - yk - 1)) best memo;
            Some (best, memo_assign memo key best)
      end
  end.
End OnTable.

Definition engine_on (T : Type) {M : Memo T} (fuel : nat) (R : list Rect)
    : option (Answer * list Z) :=
  '(ans, memo) ← on_key (solve_on (RIv_of R) fuel) (root R) (memo_empty : T);
  chosen ← on_key (recon_on fuel memo) (root R) [];
  Some (ans, chosen).

(** Whether the run is given the memory it asks for: for the vector of [n]
    rectangles of line 40, and for the engine's work on the list read. *)
Record memory := mkMemory {
  grant_rects : Z → bool;
  grant_engine : list Rect → bool
}.

(** Every request is granted. *)
Definition ample : memory := mkMemory (λ _, true) (λ _, true).

(** [cap] bytes for the rectangle vector, a [Rect] taking 32, and no limit
    afterwards. *)
Definition capped (cap : Z) : memory := mkMemory (λ n, 32 * n <=? cap) (λ _, true).

(** How a run ends.  [Aborted]: the run was refused memory;
    [std::bad_alloc] is caught nowhere, so the run is terminated abnormally,
    with no diagnostic of the program's own and, all output statements
    coming last (lines 139-146), no solution. *)
Inductive run_result :=
  | Aborted
  | Finished (o : outcome).

(** [main], lines 34-146 in order, with engine [eng]. *)
Definition main_run (eng : list Rect → option (Answer * list Z))
    (mem : memory) (input : string) : option run_result :=
  match extract_int (String.list_ascii_of_string input) with
  | None => Some (Finished (Exit1 BadCount))
  | Some (n, s') =>
      if n <=? 0 then Some (Finished (Exit1 BadCount))
      else if negb (grant_rects mem n) then Some Aborted
      else
        match read_rects (Z.to_nat n) 0 s' [] with
        | inl d => Some (Finished (Exit1 d))
        | inr R =>
            if negb (grant_engine mem R) then Some Aborted
            else Finished <$> report R (eng R)
        end
  end.

(** The program with the table [T] and a given recursion budget. *)
Definition run_with (T : Type) {M : Memo T} (fuel : nat)
    (mem : memory) (input : string) : option run_result :=
  main_run (engine_on T fuel) mem input.

(** The program with the table and the budget of [engine]. *)
Definition main_mem (mem : memory) (input : string) : option run_result :=
  main_run engine mem input.

(** A run of the program on [input], with table [T] and memory [mem], ends
    with [r]. *)
Definition runs (T : Type) {M : Memo T} (mem : memory) (input : string)
    (r : run_result) : Prop :=
  ∃ fuel, run_with T fuel mem input = Some r.

(** The program as a function of its input stream alone: whatever the table
    and the memory, two runs on the same input end alike. *)
Definition function_of_input : Prop :=
  ∀ (T1 T2 : Type) (M1 : Memo T1) (M2 : Memo T2), Lawful M1 → Lawful M2 →
  ∀ (mem1 mem2 : memory) (input : string) (r1 r2 : run_result),
    runs T1 mem1 input r1 → runs T2 mem2 input r2 → r1 = r2.

(** The table [t] holds what the reference table [m] holds. *)
Definition rep {T : Type} {M : Memo T} (ok : T → Prop) (t : T) (m : gmap Key Answer) : Prop :=
  ok t ∧ ∀ k, memo_find t k = m !! k.

(** Two calls end alike: both out of budget, or both with the same answer
    and tables that hold the same. *)
Definition sim_res {T : Type} {M : Memo T} (ok : T → Prop)
    (r : option (Answer * T)) (r' : option (Answer * gmap Key Answer)) : Prop :=
  match r, r' with
  | Some (a, t), Some (a', m) => a = a' ∧ rep ok t m
  | None, None => True
  | _, _ => False
  end.
(** ** Lists: earliest maximum, first match *)

Lemma earliest_max_singleton a : earliest_max [a] a.
Proof. exists [], []. repeat split; constructor. Qed.

Lemma earliest_max_snoc l a ty c v :
  earliest_max l a →
  earliest_max (l ++ [mkAnswer v (mkChoice ty c)]) (improve ty c v a).
Proof.
  intros (pre & post & -> & Hpre & Hpost). unfold improve.
  destruct (Z.ltb_spec (val a) v) as [Hlt|Hge].
  - exists (pre ++ a :: post), []. split; [done|]. split; [|constructor].
    apply Forall_app; split.
    + eapply Forall_impl; [exact Hpre|]. simpl. lia.
    + constructor; [simpl; lia|].
      eapply Forall_impl; [exact Hpost|]. simpl. lia.
  - exists pre, (post ++ [mkAnswer v (mkChoice ty c)]).
    split; [by rewrite <- app_assoc|]. split; [done|].
    apply Forall_app; split; [done|]. constructor; [simpl; lia|constructor].
Qed.

Lemma earliest_max_elem l a : earliest_max l a → a ∈ l.
Proof. intros (pre & post & -> & _). set_solver. Qed.

Lemma earliest_max_ge l a b : earliest_max l a → b ∈ l → val b ≤ val a.
Proof.
  intros (pre & post & -> & Hpre & Hpost) Hb.
  rewrite Forall_forall in Hpre. rewrite Forall_forall in Hpost.
  apply elem_of_app in Hb as [Hb|Hb]; [specialize (Hpre _ Hb); lia|].
  apply elem_of_cons in Hb as [->|Hb]; [lia|auto].
Qed.

Lemma list_find_filter {A} (P : A → Prop) `{∀ x, Decision (P x)} (l : list A) :
  match list_find P l with
  | Some (_, x) => ∃ rest, filter P l = x :: rest
  | None => filter P l = []
  end.
Proof.
  induction l as [|x l IH]; simpl; [done|].
  rewrite filter_cons. destruct (decide (P x)); [eauto|].
  destruct (list_find P l) as [[i y]|]; simpl; done.
Qed.

(** ** The memo table: growth, invariant, post-condition of [solve] *)

Lemma cut_cands_mono (m m' : gmap Key Answer) ty lo hi (cs : list Z) :
  m ⊆ m' →
  (∀ c, c ∈ cs → is_Some (m !! lo c) ∧ is_Some (m !! hi c)) →
  cut_cand m' ty lo hi <$> cs = cut_cand m ty lo hi <$> cs.
Proof.
  intros Hsub Hdom. apply list_fmap_ext. intros i c Hc.
  destruct (Hdom c) as [[a Ha] [b Hb]]; [by eapply list_elem_of_lookup_2|].
  unfold cut_cand, stored_val.
  rewrite (lookup_weaken _ _ _ _ Ha Hsub), (lookup_weaken _ _ _ _ Hb Hsub).
  by rewrite Ha, Hb.
Qed.

Section EngineProofs.
Variable RIv : list RI.t.
Implicit Types (m : gmap Key Answer) (k : Key) (a : Answer).

Lemma leaf_scan_earliest k :
  earliest_max (Answer0 :: leaf_cands RIv k) (on_key (leaf_scan RIv) k).
Proof.
  unfold leaf_cands, on_key, leaf_scan.
  pose proof (list_find_filter
    (λ rid, exactMatch RIv rid (xi k) (xj k) (yk k) (yl k) = true)
    (seqZ 0 (n RIv))) as Hf.
  destruct (list_find _ _) as [[i rid]|].
  - destruct Hf as [rest ->]. rewrite fmap_cons.
    exists [Answer0], ((λ rid, mkAnswer 1 (mkChoice 1 rid)) <$> rest).
    split; [done|]. split; [repeat constructor|].
    apply Forall_fmap, Forall_true. intros ?; simpl; lia.
  - rewrite Hf. apply earliest_max_singleton.
Qed.

Lemma candidates_mono m m' k :
  m ⊆ m' →
  (∀ c, xi k < c < xj k → is_Some (m !! vL k c) ∧ is_Some (m !! vR k c)) →
  (∀ c, yk k < c < yl k → is_Some (m !! hB k c) ∧ is_Some (m !! hT k c)) →
  candidates RIv m' k = candidates RIv m k.
Proof.
  intros Hsub Hv Hh. unfold candidates, vcut_cands, hcut_cands.
  rewrite !(cut_cands_mono m m'); try done.
  - intros c Hc%elem_of_seqZ. apply Hh. lia.
  - intros c Hc%elem_of_seqZ. apply Hv. lia.
Qed.

Lemma entry_ok_mono m m' k a : m ⊆ m' → entry_ok RIv m k a → entry_ok RIv m' k a.
Proof.
  intros Hsub [Hnd Hok]. split; [done|].
  destruct (hasRectK RIv k); [|done].
  destruct Hok as (Hmax & Hv & Hh).
  rewrite (candidates_mono m m') by done. split; [done|].
  split; intros c Hc.
  - destruct (Hv c Hc) as [[x Hx] [y Hy]].
    split; eexists; eapply lookup_weaken; eauto.
  - destruct (Hh c Hc) as [[x Hx] [y Hy]].
    split; eexists; eapply lookup_weaken; eauto.
Qed.

(** One cut loop, given that the recursive calls on its sub-windows meet
    the post-condition. *)
Lemma cut_loop_spec rec ty lo hi :
  ∀ cs acc best m,
    (∀ c m0, c ∈ cs → memo_inv RIv m0 →
       degenerateK (lo c) = false ∧ degenerateK (hi c) = false ∧
       solve_post RIv m0 (lo c) (rec (lo c) m0) ∧
       solve_post RIv m0 (hi c) (rec (hi c) m0)) →
    memo_inv RIv m →
    earliest_max acc best →
    ∃ best' m',
      cut_loop rec ty lo hi cs best m = Some (best', m') ∧
      memo_inv RIv m' ∧ m ⊆ m' ∧
      (∀ c, c ∈ cs → is_Some (m' !! lo c) ∧ is_Some (m' !! hi c)) ∧
      earliest_max (acc ++ (cut_cand m' ty lo hi <$> cs)) best' ∧
      (∀ k', m !! k' = None → is_Some (m' !! k') →
         ∃ c, c ∈ cs ∧ (withinK k' (lo c) ∨ withinK k' (hi c))).
Proof.
  induction cs as [|c cs IH]; intros acc best m Hrec Hinv Hmax.
  - exists best, m. simpl. rewrite app_nil_r.
    split_and!; try done.
    + intros c Hc. by apply elem_of_nil in Hc.
    + intros k' Hn [x Hx]. congruence.
  - destruct (Hrec c m) as (Hdl & Hdh & Hlo & _); [left|done|].
    destruct Hlo as (L & m1 & HL & Hinv1 & Hsub1 & HLin & Hfr1).
    rewrite Hdl in HLin.
    destruct (Hrec c m1) as (_ & _ & _ & Hhi); [left|done|].
    destruct Hhi as (Rw & m2 & HR & Hinv2 & Hsub2 & HRin & Hfr2).
    rewrite Hdh in HRin.
    destruct (IH (acc ++ [mkAnswer (val L + val Rw) (mkChoice ty c)])
                 (improve ty c (val L + val Rw) best) m2)
      as (best' & m' & Hloop & Hinv' & Hsub' & Hdom' & Hmax' & Hfr').
    { intros c' m0 Hc'. apply Hrec. by right. }
    { done. }
    { by apply earliest_max_snoc. }
    pose proof (lookup_weaken _ _ _ _ HLin Hsub2) as HLin2.
    exists best', m'. simpl. rewrite HL. simpl. rewrite HR. simpl.
    split; [done|]. split; [done|].
    split; [by repeat (etrans; [eassumption|])|].
    split; [|split].
    + intros c' [->|Hc']%elem_of_cons; [|by apply Hdom'].
      split; eexists; eapply lookup_weaken; eauto.
    + rewrite <- app_assoc in Hmax'. simpl in Hmax'.
      replace (cut_cand m' ty lo hi c)
        with (mkAnswer (val L + val Rw) (mkChoice ty c)); [done|].
      unfold cut_cand, stored_val.
      by rewrite (lookup_weaken _ _ _ _ HLin2 Hsub'),
                 (lookup_weaken _ _ _ _ HRin Hsub').
    + intros k' Hn Hs.
      destruct (m2 !! k') as [x|] eqn:H2.
      * exists c. split; [left|].
        destruct (m1 !! k') as [y|] eqn:H1.
        -- left. apply Hfr1; [done|by eexists].
        -- right. apply Hfr2; [done|by eexists].
      * destruct (Hfr' k' H2 Hs) as (c' & Hc' & Hw).
        exists c'. split; [by right|done].
Qed.

Lemma degenerateK_false k :
  degenerateK k = false ↔ xi k < xj k ∧ yk k < yl k.
Proof. unfold degenerateK, degenerate. rewrite orb_false_iff. lia. Qed.

Lemma cut_subwindows k c :
  degenerateK k = false →
  (xi k < c < xj k →
     degenerateK (vL k c) = false ∧ degenerateK (vR k c) = false ∧
     (size (vL k c) < size k)%nat ∧ (size (vR k c) < size k)%nat) ∧
  (yk k < c < yl k →
     degenerateK (hB k c) = false ∧ degenerateK (hT k c) = false ∧
     (size (hB k c) < size k)%nat ∧ (size (hT k c) < size k)%nat).
Proof.
  rewrite !degenerateK_false. unfold size. simpl. lia.
Qed.

Lemma solve_spec :
  ∀ fuel k m, (size k < fuel)%nat → memo_inv RIv m →
    solve_post RIv m k (solveK RIv fuel k m).
Proof.
  induction fuel as [|fuel IH]; intros k m Hsz Hinv; [lia|].
  unfold solveK, on_key, solve_post. simpl. fold (degenerateK k).
  destruct (degenerateK k) eqn:Hd.
  { exists Answer0, m. split_and!; try done. intros k' Hn [x Hx]. congruence. }
  replace (mkKey (xi k) (xj k) (yk k) (yl k)) with k by (by destruct k).
  destruct (m !! k) as [a|] eqn:Hm.
  { exists a, m. split_and!; try done. intros k' Hn [x Hx]. congruence. }
  fold (hasRectK RIv k). destruct (hasRectK RIv k) eqn:Hw; simpl.
  2:{ exists Answer0, (<[k:=Answer0]> m). split_and!; try done.
      - intros k' a'. rewrite lookup_insert. case_decide as Hk.
        + intros [= <-]. subst k'. split; [done|]. by rewrite Hw.
        + intros Hk'. eapply entry_ok_mono; [|by apply Hinv].
          by apply insert_subseteq.
      - by apply insert_subseteq.
      - by rewrite lookup_insert_eq.
      - intros k' Hn. rewrite lookup_insert. case_decide as Hk.
        + subst k'. unfold withinK. lia.
        + intros [x Hx]. congruence. }
  assert (Hrecv : ∀ c m0, c ∈ seqZ (xi k + 1) (xj k - xi k - 1) → memo_inv RIv m0 →
     degenerateK (vL k c) = false ∧ degenerateK (vR k c) = false ∧
     solve_post RIv m0 (vL k c) (on_key (solve RIv fuel) (vL k c) m0) ∧
     solve_post RIv m0 (vR k c) (on_key (solve RIv fuel) (vR k c) m0)).
  { intros c m0 Hc%elem_of_seqZ Hm0.
    destruct (cut_subwindows k c Hd) as [Hv _].
    destruct Hv as (? & ? & ? & ?); [lia|].
    split_and!; try done; apply IH; try done; lia. }
  assert (Hrech : ∀ c m0, c ∈ seqZ (yk k + 1) (yl k - yk k - 1) → memo_inv RIv m0 →
     degenerateK (hB k c) = false ∧ degenerateK (hT k c) = false ∧
     solve_post RIv m0 (hB k c) (on_key (solve RIv fuel) (hB k c) m0) ∧
     solve_post RIv m0 (hT k c) (on_key (solve RIv fuel) (hT k c) m0)).
  { intros c m0 Hc%elem_of_seqZ Hm0.
    destruct (cut_subwindows k c Hd) as [_ Hh].
    destruct Hh as (? & ? & ? & ?); [lia|].
    split_and!; try done; apply IH; try done; lia. }
  destruct (cut_loop_spec (on_key (solve RIv fuel)) 2 (vL k) (vR k) _
              (Answer0 :: leaf_cands RIv k) (on_key (leaf_scan RIv) k) m
              Hrecv Hinv (leaf_scan_earliest k))
    as (best1 & m1 & Hloop1 & Hinv1 & Hsub1 & Hdom1 & Hmax1 & Hfr1).
  destruct (cut_loop_spec (on_key (solve RIv fuel)) 3 (hB k) (hT k) _
              _ best1 m1 Hrech Hinv1 Hmax1)
    as (best2 & m2 & Hloop2 & Hinv2 & Hsub2 & Hdom2 & Hmax2 & Hfr2).
  unfold vL, vR, on_key in Hloop1. simpl in Hloop1.
  unfold on_key. rewrite Hloop1. simpl.
  unfold hB, hT, on_key in Hloop2. simpl in Hloop2.
  rewrite Hloop2. simpl.
  assert (Hfresh : m2 !! k = None).
  { destruct (m2 !! k) as [x|] eqn:H2; [exfalso|done].
    apply degenerateK_false in Hd.
    destruct (m1 !! k) as [y|] eqn:H1.
    - destruct (Hfr1 k Hm) as (c & Hc%elem_of_seqZ & [Hwi|Hwi]); [by eexists| |];
        unfold withinK in Hwi; simpl in Hwi; lia.
    - destruct (Hfr2 k H1) as (c & Hc%elem_of_seqZ & [Hwi|Hwi]); [by eexists| |];
        unfold withinK in Hwi; simpl in Hwi; lia. }
  assert (Hv2 : ∀ c, xi k < c < xj k → is_Some (m2 !! vL k c) ∧ is_Some (m2 !! vR k c)).
  { intros c Hc. destruct (Hdom1 c) as [[x Hx] [y Hy]]; [apply elem_of_seqZ; lia|].
    split; eexists; eapply lookup_weaken; eauto. }
  assert (Hh2 : ∀ c, yk k < c < yl k → is_Some (m2 !! hB k c) ∧ is_Some (m2 !! hT k c)).
  { intros c Hc. apply Hdom2, elem_of_seqZ. lia. }
  assert (Hok : entry_ok RIv m2 k best2).
  { split; [done|]. rewrite Hw. split; [|done].
    unfold candidates, vcut_cands, hcut_cands.
    rewrite (cut_cands_mono m1 m2 2); [|done|].
    - by rewrite <- app_assoc in Hmax2.
    - intros c Hc. by apply Hdom1. }
  exists best2, (<[k:=best2]> m2).
  assert (Hsub3 : m2 ⊆ <[k:=best2]> m2) by by apply insert_subseteq.
  split_and!; try done.
  - intros k' a'. rewrite lookup_insert. case_decide as Hk.
    + intros [= <-]. subst k'. by eapply entry_ok_mono.
    + intros Hk'. eapply entry_ok_mono; [done|]. by apply Hinv2.
  - by repeat (etrans; [eassumption|]).
  - by rewrite lookup_insert_eq.
  - intros k' Hn. rewrite lookup_insert. case_decide as Hk.
    + subst k'. unfold withinK. lia.
    + intros Hs. apply degenerateK_false in Hd.
      destruct (m1 !! k') as [y|] eqn:H1.
      * destruct (Hfr1 k' Hn) as (c & Hc%elem_of_seqZ & [Hwi|Hwi]); [by eexists| |];
          unfold withinK in *; simpl in Hwi; lia.
      * destruct (Hfr2 k' H1 Hs) as (c & Hc%elem_of_seqZ & [Hwi|Hwi]);
          unfold withinK in *; simpl in Hwi; lia.
Qed.

(** More fuel never changes a result. *)
Lemma cut_loop_mono (rec rec' : Key → gmap Key Answer → option (Answer * gmap Key Answer))
    ty lo hi :
  (∀ k m r, rec k m = Some r → rec' k m = Some r) →
  ∀ cs best m r,
    cut_loop rec ty lo hi cs best m = Some r →
    cut_loop rec' ty lo hi cs best m = Some r.
Proof.
  intros Hrec. induction cs as [|c cs IH]; intros best m r; simpl; [done|].
  destruct (rec (lo c) m) as [[L m1]|] eqn:HL; simpl; [|done].
  rewrite (Hrec _ _ _ HL). simpl.
  destruct (rec (hi c) m1) as [[Rw m2]|] eqn:HR; simpl; [|done].
  rewrite (Hrec _ _ _ HR). simpl. apply IH.
Qed.

Lemma solve_fuel_mono :
  ∀ fuel fuel' k m r, (fuel ≤ fuel')%nat →
    solveK RIv fuel k m = Some r → solveK RIv fuel' k m = Some r.
Proof.
  induction fuel as [|fuel IH]; intros fuel' k m r Hle; [done|].
  destruct fuel' as [|fuel']; [lia|].
  unfold solveK, on_key. simpl.
  destruct (degenerate _ _ _ _); [done|].
  destruct (m !! _); [done|].
  destruct (negb _); [done|].
  set (rec := on_key (solve RIv fuel)). set (rec' := on_key (solve RIv fuel')).
  assert (Hrec : ∀ k0 m0 r0, rec k0 m0 = Some r0 → rec' k0 m0 = Some r0).
  { intros k0 m0 r0. apply (IH fuel' k0 m0 r0). lia. }
  destruct (cut_loop rec 2 _ _ _ _ _) as [[b1 m1]|] eqn:H1; simpl; [|done].
  rewrite (cut_loop_mono rec rec' _ _ _ Hrec _ _ _ _ H1). simpl.
  destruct (cut_loop rec 3 _ _ _ _ _) as [[b2 m2]|] eqn:H2; simpl; [|done].
  by rewrite (cut_loop_mono rec rec' _ _ _ Hrec _ _ _ _ H2).
Qed.

(** Whatever fuel a call was given, if it returned, it returned what the
    post-condition says. *)
Lemma solve_post_of_Some fuel k m a m' :
  memo_inv RIv m → solveK RIv fuel k m = Some (a, m') →
  solve_post RIv m k (Some (a, m')).
Proof.
  intros Hinv Hs.
  pose proof (solve_spec (fuel `max` S (size k)) k m) as Hspec.
  rewrite (solve_fuel_mono fuel _ k m (a, m')) in Hspec by (done || lia).
  apply Hspec; [lia|done].
Qed.

Lemma memo_inv_empty : memo_inv RIv ∅.
Proof. intros k a Hk. by rewrite lookup_empty in Hk. Qed.

Lemma reachable_inv m : reachable RIv m → memo_inv RIv m.
Proof.
  induction 1 as [|fuel k m a m' _ IH Hs]; [apply memo_inv_empty|].
  by destruct (solve_post_of_Some _ _ _ _ _ IH Hs) as (? & ? & [= <- <-] & ? & _).
Qed.
End EngineProofs.

(** ** Facts that need non-empty grid rectangles *)

Lemma filter_length_split {A} (P1 P2 P : A → Prop)
    `{∀ x, Decision (P1 x)} `{∀ x, Decision (P2 x)} `{∀ x, Decision (P x)}
    (l : list A) :
  (∀ x, x ∈ l → (P1 x → P x) ∧ (P2 x → P x) ∧ ¬ (P1 x ∧ P2 x)) →
  (length (filter P1 l) + length (filter P2 l) ≤ length (filter P l))%nat.
Proof.
  induction l as [|x l IH]; intros Hx; simpl; [done|].
  destruct (Hx x) as (Hi1 & Hi2 & Hi12); [left|].
  assert (IH' := IH (λ y Hy, Hx y (list_elem_of_further _ _ _ Hy))).
  rewrite !filter_cons.
  destruct (decide (P1 x)), (decide (P2 x)), (decide (P x)); simpl; tauto || lia.
Qed.

Section Valid.
Variable RIv : list RI.t.
Hypothesis Hvalid : Forall RI_valid RIv.
Implicit Types (m : gmap Key Answer) (k : Key) (a : Answer).

Lemma rid_lookup rid :
  0 ≤ rid < n RIv ↔ rid ∈ seqZ 0 (n RIv).
Proof. rewrite elem_of_seqZ. lia. Qed.

Lemma hasRectK_true k :
  hasRectK RIv k = true ↔ ∃ q, q ∈ RIv ∧ insideK q k = true.
Proof.
  unfold hasRectK, windowHasAnyRect. rewrite existsb_exists. split.
  - intros (rid & _ & Hq). destruct (RIv !! Z.to_nat rid) as [q|] eqn:Hl; [|done].
    exists q. split; [by eapply list_elem_of_lookup_2|done].
  - intros (q & [i Hi]%list_elem_of_lookup & Hq).
    exists (Z.of_nat i). rewrite Nat2Z.id, Hi. split; [|done].
    apply list_elem_of_In, elem_of_seqZ. apply lookup_lt_Some in Hi.
    unfold n. lia.
Qed.

Lemma exactMatch_true rid k :
  on_key (exactMatch RIv rid) k = true ↔
  ∃ q, RIv !! Z.to_nat rid = Some q ∧
       k = mkKey (RI.xl q) (RI.xr q) (RI.yb q) (RI.yt q).
Proof.
  unfold on_key, exactMatch. destruct (RIv !! Z.to_nat rid) as [q|].
  - rewrite !andb_true_iff, !Z.eqb_eq. split.
    + intros (((? & ?) & ?) & ?). exists q. split; [done|]. destruct k; simpl in *.
      congruence.
    + intros (q' & [= <-] & ->). done.
  - split; [done|]. by intros (q & ? & _).
Qed.

Lemma insideK_true q k :
  insideK q k = true ↔
  xi k ≤ RI.xl q ∧ RI.xr q ≤ xj k ∧ yk k ≤ RI.yb q ∧ RI.yt q ≤ yl k.
Proof. unfold insideK, on_key, inside. rewrite !andb_true_iff. lia. Qed.

Lemma count_inside_bounds k : 0 ≤ count_inside RIv k ≤ n RIv.
Proof.
  unfold count_inside, n.
  pose proof (length_filter (λ q, insideK q k = true) RIv). lia.
Qed.

Lemma count_inside_pos q k :
  q ∈ RIv → insideK q k = true → 1 ≤ count_inside RIv k.
Proof.
  intros Hq Hin. unfold count_inside.
  assert (Hf : q ∈ filter (λ q, insideK q k = true) RIv)
    by by apply list_elem_of_filter.
  destruct (filter _ RIv); [by apply elem_of_nil in Hf|simpl; lia].
Qed.

Lemma count_inside_cut k c :
  (xi k ≤ c ≤ xj k →
     count_inside RIv (vL k c) + count_inside RIv (vR k c) ≤ count_inside RIv k) ∧
  (yk k ≤ c ≤ yl k →
     count_inside RIv (hB k c) + count_inside RIv (hT k c) ≤ count_inside RIv k).
Proof.
  unfold count_inside. split; intros Hc.
  - pose proof (filter_length_split (λ q, insideK q (vL k c) = true)
      (λ q, insideK q (vR k c) = true) (λ q, insideK q k = true) RIv) as Hs.
    rewrite <- Nat2Z.inj_add. apply inj_le, Hs. intros q Hq.
    rewrite Forall_forall in Hvalid. destruct (Hvalid q Hq).
    rewrite !insideK_true. simpl. lia.
  - pose proof (filter_length_split (λ q, insideK q (hB k c) = true)
      (λ q, insideK q (hT k c) = true) (λ q, insideK q k = true) RIv) as Hs.
    rewrite <- Nat2Z.inj_add. apply inj_le, Hs. intros q Hq.
    rewrite Forall_forall in Hvalid. destruct (Hvalid q Hq).
    rewrite !insideK_true. simpl. lia.
Qed.

(** The shapes a table entry can have. *)
Lemma entry_cases m k a :
  memo_inv RIv m → m !! k = Some a →
  degenerateK k = false ∧
  ( a = Answer0
  ∨ (∃ rid, a = mkAnswer 1 (mkChoice 1 rid) ∧ 0 ≤ rid < n RIv ∧
            on_key (exactMatch RIv rid) k = true)
  ∨ (∃ c L Rw, a = mkAnswer (val L + val Rw) (mkChoice 2 c) ∧ xi k < c < xj k ∧
               m !! vL k c = Some L ∧ m !! vR k c = Some Rw)
  ∨ (∃ c B T, a = mkAnswer (val B + val T) (mkChoice 3 c) ∧ yk k < c < yl k ∧
              m !! hB k c = Some B ∧ m !! hT k c = Some T)).
Proof.
  intros Hinv Hk. destruct (Hinv k a Hk) as [Hd Hok]. split; [done|].
  destruct (hasRectK RIv k); [|by left].
  destruct Hok as (Hmax & Hv & Hh).
  apply earliest_max_elem in Hmax.
  apply elem_of_cons in Hmax as [->|Hmax]; [by left|]. right.
  unfold candidates in Hmax.
  apply elem_of_app in Hmax as [Hl|Hc]; [|apply elem_of_app in Hc as [Hc|Hc]].
  - left. apply list_elem_of_fmap in Hl as (rid & -> & Hrid).
    apply list_elem_of_filter in Hrid as [Hex Hrid%elem_of_seqZ].
    exists rid. split_and!; try done; lia.
  - right; left. apply list_elem_of_fmap in Hc as (c & -> & Hc%elem_of_seqZ).
    destruct (Hv c) as [[L HL] [Rw HR]]; [lia|].
    exists c, L, Rw. unfold cut_cand, stored_val. rewrite HL, HR.
    split_and!; try done; lia.
  - right; right. apply list_elem_of_fmap in Hc as (c & -> & Hc%elem_of_seqZ).
    destruct (Hh c) as [[B HB] [T HT]]; [lia|].
    exists c, B, T. unfold cut_cand, stored_val. rewrite HB, HT.
    split_and!; try done; lia.
Qed.

Lemma val_nonneg m k a : memo_inv RIv m → m !! k = Some a → 0 ≤ val a.
Proof.
  intros Hinv Hk. destruct (Hinv k a Hk) as [_ Hok].
  destruct (hasRectK RIv k); [|by subst].
  destruct Hok as (Hmax & _).
  apply (earliest_max_ge _ _ Answer0) in Hmax; [done|left].
Qed.

(** A stored value never exceeds the number of rectangles inside the
    window. *)
Lemma val_upper m :
  memo_inv RIv m →
  ∀ sz k a, (size k < sz)%nat → m !! k = Some a → val a ≤ count_inside RIv k.
Proof.
  intros Hinv. induction sz as [|sz IH]; intros k a Hsz Hk; [lia|].
  destruct (entry_cases m k a Hinv Hk) as [Hd Hcase].
  pose proof (count_inside_bounds k) as Hb.
  destruct Hcase as [->|[(rid & -> & Hrid & Hex)|[(c & L & Rw & -> & Hc & HL & HR)|
                         (c & B & T & -> & Hc & HB & HT)]]]; simpl.
  - lia.
  - apply exactMatch_true in Hex as (q & Hq & ->).
    apply (count_inside_pos q); [by eapply list_elem_of_lookup_2|].
    apply insideK_true. simpl. lia.
  - destruct (cut_subwindows k c Hd) as [Hv _].
    destruct (Hv Hc) as (_ & _ & HsL & HsR).
    pose proof (IH (vL k c) L ltac:(lia) HL).
    pose proof (IH (vR k c) Rw ltac:(lia) HR).
    destruct (count_inside_cut k c) as [Hcut _]. lia.
  - destruct (cut_subwindows k c Hd) as [_ Hh].
    destruct (Hh Hc) as (_ & _ & HsB & HsT).
    pose proof (IH (hB k c) B ltac:(lia) HB).
    pose proof (IH (hT k c) T ltac:(lia) HT).
    destruct (count_inside_cut k c) as [_ Hcut]. lia.
Qed.

(** A window that holds a rectangle has a positive value: either the
    rectangle fills it, or a cut along one of the rectangle's sides keeps
    the rectangle whole in a strictly smaller window. *)
Lemma val_lower m :
  memo_inv RIv m →
  ∀ sz k a, (size k < sz)%nat → m !! k = Some a → hasRectK RIv k = true →
    1 ≤ val a.
Proof.
  intros Hinv. induction sz as [|sz IH]; intros k a Hsz Hk Hw; [lia|].
  destruct (Hinv k a Hk) as [Hd Hok]. rewrite Hw in Hok.
  destruct Hok as (Hmax & Hv & Hh).
  apply hasRectK_true in Hw as (q & Hq & Hin).
  pose proof Hq as [i Hi]%list_elem_of_lookup.
  rewrite Forall_forall in Hvalid. destruct (Hvalid q Hq) as [Hqx Hqy].
  apply insideK_true in Hin.
  assert (Hcand : ∀ b, b ∈ candidates RIv m k → 1 ≤ val b → 1 ≤ val a).
  { intros b Hb Hb1. apply (earliest_max_ge _ _ b) in Hmax; [lia|by right]. }
  assert (Hsub : ∀ k', (size k' < size k)%nat → is_Some (m !! k') →
            insideK q k' = true → 1 ≤ stored_val m k').
  { intros k' Hs [b Hb] Hin'. unfold stored_val. rewrite Hb.
    apply (IH k' b); [lia|done|]. apply hasRectK_true. eauto. }
  assert (Hnn : ∀ k', 0 ≤ stored_val m k').
  { intros k'. unfold stored_val. destruct (m !! k') as [b|] eqn:Hb; [|done].
    by eapply val_nonneg. }
  assert (Hvc : ∀ c, xi k < c < xj k →
            insideK q (vL k c) = true ∨ insideK q (vR k c) = true → 1 ≤ val a).
  { intros c Hc Hside. destruct (cut_subwindows k c Hd) as [Hcv _].
    destruct (Hcv Hc) as (_ & _ & HsL & HsR). destruct (Hv c Hc) as [HL HR].
    apply (Hcand (cut_cand m 2 (vL k) (vR k) c)).
    - unfold candidates, vcut_cands. apply elem_of_app; right.
      apply elem_of_app; left. apply list_elem_of_fmap. exists c.
      split; [done|]. apply elem_of_seqZ. lia.
    - simpl. pose proof (Hnn (vL k c)). pose proof (Hnn (vR k c)).
      destruct Hside as [Hs|Hs];
        [pose proof (Hsub _ HsL HL Hs)|pose proof (Hsub _ HsR HR Hs)]; lia. }
  assert (Hhc : ∀ c, yk k < c < yl k →
            insideK q (hB k c) = true ∨ insideK q (hT k c) = true → 1 ≤ val a).
  { intros c Hc Hside. destruct (cut_subwindows k c Hd) as [_ Hch].
    destruct (Hch Hc) as (_ & _ & HsB & HsT). destruct (Hh c Hc) as [HB HT].
    apply (Hcand (cut_cand m 3 (hB k) (hT k) c)).
    - unfold candidates, hcut_cands. apply elem_of_app; right.
      apply elem_of_app; right. apply list_elem_of_fmap. exists c.
      split; [done|]. apply elem_of_seqZ. lia.
    - simpl. pose proof (Hnn (hB k c)). pose proof (Hnn (hT k c)).
      destruct Hside as [Hs|Hs];
        [pose proof (Hsub _ HsB HB Hs)|pose proof (Hsub _ HsT HT Hs)]; lia. }
  destruct (decide (xi k < RI.xl q)) as [H1|H1].
  { apply (Hvc (RI.xl q)); [lia|]. right. apply insideK_true. simpl. lia. }
  destruct (decide (RI.xr q < xj k)) as [H2|H2].
  { apply (Hvc (RI.xr q)); [lia|]. left. apply insideK_true. simpl. lia. }
  destruct (decide (yk k < RI.yb q)) as [H3|H3].
  { apply (Hhc (RI.yb q)); [lia|]. right. apply insideK_true. simpl. lia. }
  destruct (decide (RI.yt q < yl k)) as [H4|H4].
  { apply (Hhc (RI.yt q)); [lia|]. left. apply insideK_true. simpl. lia. }
  apply (Hcand (mkAnswer 1 (mkChoice 1 (Z.of_nat i)))); [|simpl; lia].
  unfold candidates, leaf_cands. apply elem_of_app; left.
  apply list_elem_of_fmap. exists (Z.of_nat i). split; [done|].
  apply list_elem_of_filter. split.
  - apply exactMatch_true. exists q. rewrite Nat2Z.id. split; [done|].
    destruct k; simpl in *. f_equal; lia.
  - apply elem_of_seqZ. apply lookup_lt_Some in Hi. unfold n. lia.
Qed.

Lemma cut_entry_pos m k a :
  memo_inv RIv m → m !! k = Some a → a ≠ Answer0 → 1 ≤ val a.
Proof.
  intros Hinv Hk Hne. destruct (Hinv k a Hk) as [_ Hok].
  destruct (hasRectK RIv k) eqn:Hw; [|done].
  by apply (val_lower m Hinv (S (size k)) k a); [lia|..].
Qed.

Lemma separated_app ids1 ids2 :
  separated RIv ids1 → separated RIv ids2 →
  (∀ r1 r2, r1 ∈ ids1 → r2 ∈ ids2 →
     ∃ p q, RIv !! Z.to_nat r1 = Some p ∧ RIv !! Z.to_nat r2 = Some q ∧
            grid_disjoint p q) →
  separated RIv (ids1 ++ ids2).
Proof.
  intros H1 H2 H12 i j ri rj Hij Hi Hj.
  apply lookup_app_Some in Hi as [Hi|[Hil Hi]];
    apply lookup_app_Some in Hj as [Hj|[Hjl Hj]].
  - by apply (H1 i j).
  - apply H12; by eapply list_elem_of_lookup_2.
  - apply lookup_lt_Some in Hj. lia.
  - apply (H2 (i - length ids1)%nat (j - length ids1)%nat); [lia|done..].
Qed.

(** Reconstruction from a memoized window: it returns, adds as many ids
    as the stored value says, is only ever called on memoized windows, and
    every id it adds is named by a leaf entry of a visited window that the
    rectangle fills exactly. *)
Lemma recon_log_spec m :
  memo_inv RIv m →
  ∀ fuel k a chosen visited, (size k < fuel)%nat → m !! k = Some a →
    ∃ ids ks,
      on_key (recon_log fuel m) k (chosen, visited)
        = Some (chosen ++ ids, visited ++ ks) ∧
      Z.of_nat (length ids) = val a ∧ k ∈ ks ∧
      (∀ k', k' ∈ ks → is_Some (m !! k') ∧ withinK k' k) ∧
      (∀ rid, rid ∈ ids → ∃ k', k' ∈ ks ∧
          m !! k' = Some (mkAnswer 1 (mkChoice 1 rid)) ∧
          0 ≤ rid < n RIv ∧ on_key (exactMatch RIv rid) k' = true) ∧
      separated RIv ids.
Proof.
  intros Hinv. induction fuel as [|fuel IH]; intros k a chosen visited Hsz Hk; [lia|].
  destruct (entry_cases m k a Hinv Hk) as [Hd Hcase].
  assert (Hkk : mkKey (xi k) (xj k) (yk k) (yl k) = k) by by destruct k.
  assert (Hself : ∀ k', k' ∈ [k] → is_Some (m !! k') ∧ withinK k' k).
  { intros k' ->%list_elem_of_singleton. split; [by eexists|]. unfold withinK. lia. }
  unfold on_key. simpl. rewrite Hkk, Hk.
  destruct Hcase as [->|[(rid & -> & Hrid & Hex)|[(c & L & Rw & Ha & Hc & HL & HR)|
                         (c & B & T & Ha & Hc & HB & HT)]]].
  - exists [], [k]. simpl. rewrite app_nil_r. split_and!; try done; [left|].
    intros rid Hr. by apply elem_of_nil in Hr.
  - exists [rid], [k]. simpl. split_and!; try done; [left|..].
    + intros rid' ->%list_elem_of_singleton. exists k. split_and!; try done; try lia. by left.
    + intros i j ri rj Hij Hi Hj. apply lookup_lt_Some in Hj. simpl in Hj. lia.
  - pose proof (cut_entry_pos m k a Hinv Hk) as Hpos.
    rewrite Ha in Hpos |- *. simpl in *.
    destruct (Z.eqb_spec (val L + val Rw) 0) as [H0|_];
      [specialize (Hpos ltac:(done)); lia|].
    destruct (cut_subwindows k c Hd) as [Hv _].
    destruct (Hv Hc) as (_ & _ & HsL & HsR).
    destruct (IH (vL k c) L chosen (visited ++ [k]) ltac:(lia) HL)
      as (ids1 & ks1 & Hr1 & Hlen1 & _ & Hks1 & Hids1 & Hsep1).
    destruct (IH (vR k c) Rw (chosen ++ ids1) ((visited ++ [k]) ++ ks1) ltac:(lia) HR)
      as (ids2 & ks2 & Hr2 & Hlen2 & _ & Hks2 & Hids2 & Hsep2).
    unfold on_key in Hr1, Hr2. simpl in Hr1, Hr2. rewrite Hr1. simpl. rewrite Hr2.
    exists (ids1 ++ ids2), ([k] ++ ks1 ++ ks2).
    split; [by rewrite !app_assoc|]. split; [rewrite length_app; lia|].
    split; [left|]. split; [|split].
    + intros k' [Hk'|[Hk'|Hk']%elem_of_app]%elem_of_app; [by apply Hself|..].
      * destruct (Hks1 k' Hk') as [? Hw]. split; [done|].
        unfold withinK in *. simpl in Hw. lia.
      * destruct (Hks2 k' Hk') as [? Hw]. split; [done|].
        unfold withinK in *. simpl in Hw. lia.
    + intros rid [Hr|Hr]%elem_of_app.
      * destruct (Hids1 rid Hr) as (k' & ? & ?). exists k'. split; [|done].
        rewrite !elem_of_app; auto.
      * destruct (Hids2 rid Hr) as (k' & ? & ?). exists k'. split; [|done].
        rewrite !elem_of_app; auto.
    + apply separated_app; [done..|]. intros r1 r2 Hr1' Hr2'.
      destruct (Hids1 r1 Hr1') as (k1 & Hk1 & _ & _ & Hex1).
      destruct (Hids2 r2 Hr2') as (k2 & Hk2 & _ & _ & Hex2).
      apply exactMatch_true in Hex1 as (p & Hp & ->).
      apply exactMatch_true in Hex2 as (q & Hq & ->).
      destruct (Hks1 _ Hk1) as [_ Hw1]. destruct (Hks2 _ Hk2) as [_ Hw2].
      exists p, q. split_and!; try done.
      unfold grid_disjoint, withinK in *. simpl in *. lia.
  - pose proof (cut_entry_pos m k a Hinv Hk) as Hpos.
    rewrite Ha in Hpos |- *. simpl in *.
    destruct (Z.eqb_spec (val B + val T) 0) as [H0|_];
      [specialize (Hpos ltac:(done)); lia|].
    destruct (cut_subwindows k c Hd) as [_ Hh].
    destruct (Hh Hc) as (_ & _ & HsB & HsT).
    destruct (IH (hB k c) B chosen (visited ++ [k]) ltac:(lia) HB)
      as (ids1 & ks1 & Hr1 & Hlen1 & _ & Hks1 & Hids1 & Hsep1).
    destruct (IH (hT k c) T (chosen ++ ids1) ((visited ++ [k]) ++ ks1) ltac:(lia) HT)
      as (ids2 & ks2 & Hr2 & Hlen2 & _ & Hks2 & Hids2 & Hsep2).
    unfold on_key in Hr1, Hr2. simpl in Hr1, Hr2. rewrite Hr1. simpl. rewrite Hr2.
    exists (ids1 ++ ids2), ([k] ++ ks1 ++ ks2).
    split; [by rewrite !app_assoc|]. split; [rewrite length_app; lia|].
    split; [left|]. split; [|split].
    + intros k' [Hk'|[Hk'|Hk']%elem_of_app]%elem_of_app; [by apply Hself|..].
      * destruct (Hks1 k' Hk') as [? Hw]. split; [done|].
        unfold withinK in *. simpl in Hw. lia.
      * destruct (Hks2 k' Hk') as [? Hw]. split; [done|].
        unfold withinK in *. simpl in Hw. lia.
    + intros rid [Hr|Hr]%elem_of_app.
      * destruct (Hids1 rid Hr) as (k' & ? & ?). exists k'. split; [|done].
        rewrite !elem_of_app; auto.
      * destruct (Hids2 rid Hr) as (k' & ? & ?). exists k'. split; [|done].
        rewrite !elem_of_app; auto.
    + apply separated_app; [done..|]. intros r1 r2 Hr1' Hr2'.
      destruct (Hids1 r1 Hr1') as (k1 & Hk1 & _ & _ & Hex1).
      destruct (Hids2 r2 Hr2') as (k2 & Hk2 & _ & _ & Hex2).
      apply exactMatch_true in Hex1 as (p & Hp & ->).
      apply exactMatch_true in Hex2 as (q & Hq & ->).
      destruct (Hks1 _ Hk1) as [_ Hw1]. destruct (Hks2 _ Hk2) as [_ Hw2].
      exists p, q. split_and!; try done.
      unfold grid_disjoint, withinK in *. simpl in *. lia.
Qed.
End Valid.

(** Erasing the log of [recon_log] gives [recon]. *)
Lemma recon_log_erase (m : gmap Key Answer) :
  ∀ fuel xi xj yk yl chosen visited,
    fst <$> recon_log fuel m xi xj yk yl (chosen, visited)
    = recon fuel m xi xj yk yl chosen.
Proof.
  induction fuel as [|fuel IH]; intros xi xj yk yl chosen visited; [done|].
  simpl. destruct (m !! _) as [A|]; [|done].
  destruct (val A =? 0); [done|].
  destruct (type (ch A) =? 1); [done|].
  destruct (type (ch A) =? 2).
  { rewrite <- (IH xi (param (ch A)) yk yl chosen (visited ++ [mkKey xi xj yk yl])).
    destruct (recon_log fuel m xi _ yk yl _) as [[c1 v1]|]; simpl; [apply IH|done]. }
  destruct (type (ch A) =? 3); [|done].
  rewrite <- (IH xi xj yk (param (ch A)) chosen (visited ++ [mkKey xi xj yk yl])).
  destruct (recon_log fuel m xi xj yk _ _) as [[c1 v1]|]; simpl; [apply IH|done].
Qed.

(** ** Coordinate compression *)

Lemma unique_from_spec l :
  ∀ x, StronglySorted Z.le (x :: l) →
    StronglySorted Z.lt (unique_from x l) ∧
    (∀ v, v ∈ unique_from x l ↔ v ∈ x :: l).
Proof.
  induction l as [|y l IH]; intros x Hs; simpl.
  - split; [repeat constructor|done].
  - apply StronglySorted_cons in Hs as [Hx Hs].
    apply Forall_cons in Hx as [Hxy Hx].
    destruct (Z.eqb_spec x y) as [->|Hne].
    + destruct (IH y Hs) as [IH1 IH2]. split; [done|].
      intros v. rewrite IH2, !elem_of_cons. tauto.
    + destruct (IH y Hs) as [IH1 IH2]. split.
      * apply StronglySorted_cons. split; [|done].
        apply Forall_forall. intros v Hv%IH2.
        apply StronglySorted_cons in Hs as [Hy _]. rewrite Forall_forall in Hy.
        apply elem_of_cons in Hv as [->|Hv]; [lia|]. specialize (Hy v Hv). lia.
      * intros v. rewrite !elem_of_cons, IH2, elem_of_cons. tauto.
Qed.

Lemma unique_spec l :
  StronglySorted Z.le l →
  StronglySorted Z.lt (unique l) ∧ (∀ v, v ∈ unique l ↔ v ∈ l).
Proof.
  destruct l as [|x l]; simpl; [by split; [constructor|]|apply unique_from_spec].
Qed.

Lemma compress_spec (l : list Z) :
  StronglySorted Z.lt (unique (merge_sort Z.le l)) ∧
  (∀ v, v ∈ unique (merge_sort Z.le l) ↔ v ∈ l).
Proof.
  destruct (unique_spec (merge_sort Z.le l)) as [Hs Hel].
  { apply (StronglySorted_merge_sort _). }
  split; [done|]. intros v. rewrite Hel.
  by rewrite (merge_sort_Permutation Z.le l).
Qed.

Lemma lower_bound_nonneg l v : 0 ≤ lower_bound l v.
Proof. induction l as [|x l IH]; simpl; [done|]. destruct (x <? v); lia. Qed.

(** On a strictly increasing array, [lower_bound] finds every element of
    the array at its own position and respects the order of the values. *)
Lemma lower_bound_lookup l v :
  StronglySorted Z.lt l → v ∈ l → l !! Z.to_nat (lower_bound l v) = Some v.
Proof.
  induction l as [|x l IH]; intros Hs Hv; [by apply elem_of_nil in Hv|].
  apply StronglySorted_cons in Hs as [Hx Hs]. rewrite Forall_forall in Hx.
  simpl. destruct (Z.ltb_spec x v) as [Hlt|Hge].
  - apply elem_of_cons in Hv as [->|Hv]; [lia|].
    pose proof (lower_bound_nonneg l v).
    replace (Z.to_nat (1 + lower_bound l v)) with (S (Z.to_nat (lower_bound l v)))
      by lia.
    simpl. by apply IH.
  - apply elem_of_cons in Hv as [->|Hv]; [done|]. specialize (Hx v Hv). lia.
Qed.

Lemma lower_bound_lt l v w :
  StronglySorted Z.lt l → v ∈ l → v < w → lower_bound l v < lower_bound l w.
Proof.
  induction l as [|x l IH]; intros Hs Hv Hvw; [by apply elem_of_nil in Hv|].
  apply StronglySorted_cons in Hs as [Hx Hs]. rewrite Forall_forall in Hx.
  simpl. destruct (Z.ltb_spec x v) as [Hlt|Hge].
  - destruct (Z.ltb_spec x w); [|lia].
    apply elem_of_cons in Hv as [->|Hv]; [lia|]. specialize (IH Hs Hv Hvw). lia.
  - apply elem_of_cons in Hv as [->|Hv]; [|specialize (Hx v Hv); lia].
    destruct (Z.ltb_spec x w); [|lia]. pose proof (lower_bound_nonneg l w). lia.
Qed.

Lemma lower_bound_le_inv l v w :
  StronglySorted Z.lt l → v ∈ l → w ∈ l →
  lower_bound l v ≤ lower_bound l w → v ≤ w.
Proof.
  intros Hs Hv Hw Hle. destruct (decide (v ≤ w)) as [|Hn]; [done|].
  pose proof (lower_bound_lt l w v Hs Hw ltac:(lia)). lia.
Qed.

Lemma lower_bound_range l v :
  StronglySorted Z.lt l → v ∈ l → 0 ≤ lower_bound l v ≤ Z.of_nat (length l) - 1.
Proof.
  intros Hs Hv. pose proof (lower_bound_nonneg l v).
  pose proof (lookup_lt_Some _ _ _ (lower_bound_lookup l v Hs Hv)). lia.
Qed.

Lemma nonempty_elem {A} (l : list A) : l ≠ [] → ∃ x, x ∈ l.
Proof. destruct l as [|x l]; [done|]. intros _. exists x. left. Qed.

Section Instance.
Variable R : list Rect.
Hypothesis HR : Forall valid_rect R.

Lemma xs_of_spec :
  StronglySorted Z.lt (xs_of R) ∧
  ∀ r, r ∈ R → xl r ∈ xs_of R ∧ xr r ∈ xs_of R.
Proof.
  unfold xs_of. destruct (compress_spec (R ≫= λ r, [xl r; xr r])) as [Hs Hel].
  split; [done|]. intros r Hr.
  split; apply Hel, list_elem_of_bind; exists r; (split; [|done]);
    rewrite !elem_of_cons; auto.
Qed.

Lemma ys_of_spec :
  StronglySorted Z.lt (ys_of R) ∧
  ∀ r, r ∈ R → yb r ∈ ys_of R ∧ yt r ∈ ys_of R.
Proof.
  unfold ys_of. destruct (compress_spec (R ≫= λ r, [yb r; yt r])) as [Hs Hel].
  split; [done|]. intros r Hr.
  split; apply Hel, list_elem_of_bind; exists r; (split; [|done]);
    rewrite !elem_of_cons; auto.
Qed.

(** The indexer keeps every rectangle non-empty and inside the bounding
    window. *)
Lemma index_rect_spec r :
  r ∈ R →
  RI_valid (index_rect (xs_of R) (ys_of R) r) ∧
  insideK (index_rect (xs_of R) (ys_of R) r) (root R) = true.
Proof.
  intros Hr. destruct xs_of_spec as [Hxs Hxe]. destruct ys_of_spec as [Hys Hye].
  destruct (Hxe r Hr) as [Hxl Hxr]. destruct (Hye r Hr) as [Hyb Hyt].
  rewrite Forall_forall in HR. destruct (HR r Hr) as [Hx Hy].
  pose proof (lower_bound_lt _ _ _ Hxs Hxl Hx).
  pose proof (lower_bound_lt _ _ _ Hys Hyb Hy).
  pose proof (lower_bound_range _ _ Hxs Hxl). pose proof (lower_bound_range _ _ Hxs Hxr).
  pose proof (lower_bound_range _ _ Hys Hyb). pose proof (lower_bound_range _ _ Hys Hyt).
  split; [by split|].
  unfold insideK, on_key, inside, root, index_rect. simpl.
  rewrite !andb_true_iff. lia.
Qed.

Lemma RIv_of_valid : Forall RI_valid (RIv_of R).
Proof.
  apply Forall_fmap, Forall_forall. intros r Hr. simpl.
  by destruct (index_rect_spec r Hr).
Qed.

Lemma RIv_of_n : n (RIv_of R) = Z.of_nat (length R).
Proof. unfold n, RIv_of. by rewrite length_fmap. Qed.

Lemma root_hasRect : R ≠ [] → hasRectK (RIv_of R) (root R) = true.
Proof.
  intros [r Hr]%nonempty_elem.
  apply hasRectK_true. exists (index_rect (xs_of R) (ys_of R) r).
  split; [|by destruct (index_rect_spec r Hr)].
  apply list_elem_of_fmap. eauto.
Qed.

Lemma root_nondegenerate : R ≠ [] → degenerateK (root R) = false.
Proof.
  intros [r Hr]%nonempty_elem.
  destruct (index_rect_spec r Hr) as [[Hx Hy] Hin].
  apply insideK_true in Hin. apply degenerateK_false. lia.
Qed.
End Instance.

(** ** The engine on a valid instance *)

Section Run.
Variable R : list Rect.
Hypothesis HR : Forall valid_rect R.
Hypothesis Hne : R ≠ [].

(** [solve] on the bounding window returns and memoizes its answer. *)
Lemma solve_root_spec :
  ∃ ans memo,
    solve_root (engine_fuel R) R = Some (ans, memo) ∧
    reachable (RIv_of R) memo ∧ memo_inv (RIv_of R) memo ∧
    memo !! root R = Some ans.
Proof.
  destruct (solve_spec (RIv_of R) (engine_fuel R) (root R) ∅)
    as (ans & memo & Hs & Hinv & _ & Hroot & _).
  { unfold engine_fuel. lia. }
  { apply memo_inv_empty. }
  rewrite (root_nondegenerate R HR Hne) in Hroot.
  exists ans, memo. split_and!; try done.
  eapply reachable_solve; [apply reachable_empty|exact Hs].
Qed.

(** Everything the later theorems need about one run, in one place. *)
Lemma engine_spec :
  ∃ ans memo chosen visited,
    solve_root (engine_fuel R) R = Some (ans, memo) ∧
    reachable (RIv_of R) memo ∧
    memo !! root R = Some ans ∧
    on_key (recon_log (engine_fuel R) memo) (root R) ([], []) = Some (chosen, visited) ∧
    recon_root (engine_fuel R) R memo = Some chosen ∧
    engine R = Some (ans, chosen) ∧
    Z.of_nat (length chosen) = val ans ∧ root R ∈ visited ∧
    (∀ k, k ∈ visited → is_Some (memo !! k) ∧ withinK k (root R)) ∧
    (∀ rid, rid ∈ chosen → ∃ k, k ∈ visited ∧
        memo !! k = Some (mkAnswer 1 (mkChoice 1 rid)) ∧
        0 ≤ rid < n (RIv_of R) ∧ on_key (exactMatch (RIv_of R) rid) k = true) ∧
    separated (RIv_of R) chosen.
Proof.
  destruct solve_root_spec as (ans & memo & Hs & Hreach & Hinv & Hroot).
  destruct (recon_log_spec (RIv_of R) (RIv_of_valid R HR) memo Hinv
              (engine_fuel R) (root R) ans [] [])
    as (ids & ks & Hlog & Hlen & Hhd & Hks & Hids & Hsep); [unfold engine_fuel; lia|done|].
  rewrite !app_nil_l in Hlog.
  assert (Hrec : recon_root (engine_fuel R) R memo = Some ids).
  { pose proof (recon_log_erase memo (engine_fuel R) (xi (root R)) (xj (root R))
                  (yk (root R)) (yl (root R)) [] []) as He.
    unfold on_key in Hlog. rewrite Hlog in He. by symmetry. }
  exists ans, memo, ids, ks. split_and!; try done.
  unfold engine, engine_with. rewrite Hs. simpl. by rewrite Hrec.
Qed.
End Run.

(** ** The claims about the engine *)

(** C1. On a valid instance, reconstruction from the bounding window
    returns exactly as many ids as the value that [solve] returned and
    stored for that window. *)
Theorem recon_length_eq_root_value (R : list Rect) :
  Forall valid_rect R → R ≠ [] →
  ∃ ans memo chosen,
    solve_root (engine_fuel R) R = Some (ans, memo) ∧
    memo !! root R = Some ans ∧
    recon_root (engine_fuel R) R memo = Some chosen ∧
    Z.of_nat (length chosen) = val ans.
Proof.
  intros HR Hne.
  destruct (engine_spec R HR Hne)
    as (ans & memo & chosen & visited & Hs & _ & Hroot & _ & Hrec & _ & Hlen & _).
  by exists ans, memo, chosen.
Qed.

Lemma recon_length_eq_root_value_witness :
  Forall valid_rect R3 ∧ R3 ≠ [] ∧
  ∃ ans memo chosen,
    solve_root (engine_fuel R3) R3 = Some (ans, memo) ∧
    memo !! root R3 = Some ans ∧
    recon_root (engine_fuel R3) R3 memo = Some chosen ∧
    Z.of_nat (length chosen) = val ans.
Proof.
  assert (HR : Forall valid_rect R3)
    by (repeat constructor; unfold valid_rect; simpl; lia).
  assert (Hne : R3 ≠ []) by discriminate.
  split; [exact HR|]. split; [exact Hne|].
  exact (recon_length_eq_root_value R3 HR Hne).
Defined.

(** Non-overlap on the grid is non-overlap of the original rectangles. *)
Lemma grid_disjoint_real (R : list Rect) (a b : Rect) :
  Forall valid_rect R → a ∈ R → b ∈ R →
  grid_disjoint (index_rect (xs_of R) (ys_of R) a) (index_rect (xs_of R) (ys_of R) b) →
  rectanglesOverlap a b = false.
Proof.
  intros HR Ha Hb Hd.
  destruct (xs_of_spec R) as [Hxs Hxe]. destruct (ys_of_spec R) as [Hys Hye].
  destruct (Hxe a Ha), (Hxe b Hb), (Hye a Ha), (Hye b Hb).
  unfold rectanglesOverlap.
  destruct Hd as [Hd|[Hd|[Hd|Hd]]]; simpl in Hd;
    apply lower_bound_le_inv in Hd; try done;
    repeat case_match; try done; lia.
Qed.

(** C2. On a valid instance, the rectangles named at two different
    positions of the reconstructed id sequence have disjoint interiors
    ([rectanglesOverlap] is false; a shared edge is allowed), and every
    returned id was named by the leaf choice stored for a window that
    reconstruction visited and inside which the rectangle lies, on the grid
    and in the original coordinates. *)
Theorem chosen_pairwise_disjoint (R : list Rect) :
  Forall valid_rect R → R ≠ [] →
  ∃ ans memo chosen visited,
    solve_root (engine_fuel R) R = Some (ans, memo) ∧
    on_key (recon_log (engine_fuel R) memo) (root R) ([], []) = Some (chosen, visited) ∧
    recon_root (engine_fuel R) R memo = Some chosen ∧
    (∀ i j ri rj, i ≠ j → chosen !! i = Some ri → chosen !! j = Some rj →
       ∃ a b, R !! Z.to_nat ri = Some a ∧ R !! Z.to_nat rj = Some b ∧
              rectanglesOverlap a b = false) ∧
    (∀ rid, rid ∈ chosen →
       ∃ k r x0 x1 y0 y1,
         k ∈ visited ∧ memo !! k = Some (mkAnswer 1 (mkChoice 1 rid)) ∧
         0 ≤ rid ∧ R !! Z.to_nat rid = Some r ∧
         insideK (index_rect (xs_of R) (ys_of R) r) k = true ∧
         xs_of R !! Z.to_nat (xi k) = Some x0 ∧ xs_of R !! Z.to_nat (xj k) = Some x1 ∧
         ys_of R !! Z.to_nat (yk k) = Some y0 ∧ ys_of R !! Z.to_nat (yl k) = Some y1 ∧
         x0 ≤ xl r ∧ xr r ≤ x1 ∧ y0 ≤ yb r ∧ yt r ≤ y1).
Proof.
  intros HR Hne.
  destruct (engine_spec R HR Hne)
    as (ans & memo & chosen & visited & Hs & _ & Hroot & Hlog & Hrec & _ & _ & _ & _ & Hids & Hsep).
  exists ans, memo, chosen, visited. split_and!; try done.
  - assert (Hlt : ∀ i j ri rj, (i < j)%nat → chosen !! i = Some ri →
               chosen !! j = Some rj →
               ∃ a b, R !! Z.to_nat ri = Some a ∧ R !! Z.to_nat rj = Some b ∧
                      rectanglesOverlap a b = false).
    { intros i j ri rj Hij Hi Hj.
      destruct (Hsep i j ri rj Hij Hi Hj) as (p & q & Hp & Hq & Hd).
      unfold RIv_of in Hp, Hq. rewrite list_lookup_fmap in Hp, Hq.
      destruct (R !! Z.to_nat ri) as [a|] eqn:Ha; [|done].
      destruct (R !! Z.to_nat rj) as [b|] eqn:Hb; [|done].
      simpl in Hp, Hq. injection Hp as <-. injection Hq as <-.
      exists a, b. split_and!; try done.
      apply (grid_disjoint_real R); try done; by eapply list_elem_of_lookup_2. }
    intros i j ri rj Hij Hi Hj.
    destruct (decide (i < j)%nat) as [Hlt'|Hge]; [by apply (Hlt i j)|].
    destruct (Hlt j i rj ri ltac:(lia) Hj Hi) as (b & a & Hb & Ha & Hov).
    exists a, b. split_and!; try done.
    unfold rectanglesOverlap in *.
    rewrite (Z.min_comm (xr a)), (Z.max_comm (xl a)),
            (Z.min_comm (yt a)), (Z.max_comm (yb a)). done.
  - intros rid Hrid.
    destruct (Hids rid Hrid) as (k & Hk & Hmemo & Hrange & Hex).
    apply exactMatch_true in Hex as (q & Hq & ->).
    unfold RIv_of in Hq. rewrite list_lookup_fmap in Hq.
    destruct (R !! Z.to_nat rid) as [r|] eqn:Hr; [|done].
    simpl in Hq. injection Hq as <-.
    assert (Hin : r ∈ R) by by eapply list_elem_of_lookup_2.
    destruct (xs_of_spec R) as [Hxs Hxe]. destruct (ys_of_spec R) as [Hys Hye].
    destruct (Hxe r Hin), (Hye r Hin).
    eexists _, r, (xl r), (xr r), (yb r), (yt r).
    split; [exact Hk|]. split; [exact Hmemo|]. simpl.
    split_and!; try done; try lia; try by apply lower_bound_lookup.
    apply insideK_true. simpl. lia.
Qed.

Lemma chosen_pairwise_disjoint_witness :
  Forall valid_rect R3 ∧ R3 ≠ [] ∧
  ∃ ans memo chosen visited,
    solve_root (engine_fuel R3) R3 = Some (ans, memo) ∧
    on_key (recon_log (engine_fuel R3) memo) (root R3) ([], []) = Some (chosen, visited) ∧
    recon_root (engine_fuel R3) R3 memo = Some chosen ∧
    (∀ i j ri rj, i ≠ j → chosen !! i = Some ri → chosen !! j = Some rj →
       ∃ a b, R3 !! Z.to_nat ri = Some a ∧ R3 !! Z.to_nat rj = Some b ∧
              rectanglesOverlap a b = false) ∧
    (∀ rid, rid ∈ chosen →
       ∃ k r x0 x1 y0 y1,
         k ∈ visited ∧ memo !! k = Some (mkAnswer 1 (mkChoice 1 rid)) ∧
         0 ≤ rid ∧ R3 !! Z.to_nat rid = Some r ∧
         insideK (index_rect (xs_of R3) (ys_of R3) r) k = true ∧
         xs_of R3 !! Z.to_nat (xi k) = Some x0 ∧ xs_of R3 !! Z.to_nat (xj k) = Some x1 ∧
         ys_of R3 !! Z.to_nat (yk k) = Some y0 ∧ ys_of R3 !! Z.to_nat (yl k) = Some y1 ∧
         x0 ≤ xl r ∧ xr r ≤ x1 ∧ y0 ≤ yb r ∧ yt r ≤ y1).
Proof.
  assert (HR : Forall valid_rect R3)
    by (repeat constructor; unfold valid_rect; simpl; lia).
  assert (Hne : R3 ≠ []) by discriminate.
  split; [exact HR|]. split; [exact Hne|].
  exact (chosen_pairwise_disjoint R3 HR Hne).
Defined.

(** The run on the worked instance, stated without unfolding the table. *)
Lemma R3_solve_answer :
  fst <$> solve_root (engine_fuel R3) R3 = Some (mkAnswer 2 (mkChoice 2 2)).
Proof. vm_compute. reflexivity. Qed.

Lemma R3_solve_root :
  solve_root (engine_fuel R3) R3 = Some (mkAnswer 2 (mkChoice 2 2), memo3).
Proof.
  pose proof R3_solve_answer as H. unfold memo3.
  destruct (solve_root (engine_fuel R3) R3) as [[a m]|]; [|discriminate H].
  simpl in H. injection H as ->. reflexivity.
Qed.

(** C3, as stated, fails: the choice stored for the bounding window is not a
    horizontal cut. *)
Lemma scenario_as_specified_fails : ¬ scenario_as_specified.
Proof.
  intros (ans & memo & chosen & Hs & _ & _ & _ & _ & Hch).
  pose proof R3_solve_answer as Hf. rewrite Hs in Hf. simpl in Hf.
  injection Hf as ->. discriminate Hch.
Qed.

(** C3, amended. On R0=(0,0,2,2), R1=(1,1,3,3), R2=(0,2,2,4) the engine
    returns value 2 and reconstruction yields ids 0 and 2, in this order.
    The bounding window (0,3,0,4) stores the vertical cut at grid column 2
    (x = 2), found before any horizontal cut of equal value.  Its left part
    (0,2,0,4) stores the horizontal cut at grid row 2 (y = 2), whose bottom
    and top parts are filled exactly by R0 and by R2; its right part
    (2,3,0,4) holds no rectangle and stores value 0.  R1 is in neither
    part. *)
Theorem scenario_actual :
  xs_of R3 = [0; 1; 2; 3] ∧ ys_of R3 = [0; 1; 2; 3; 4] ∧
  root R3 = mkKey 0 3 0 4 ∧
  solve_root (engine_fuel R3) R3 = Some (mkAnswer 2 (mkChoice 2 2), memo3) ∧
  recon_root (engine_fuel R3) R3 memo3 = Some [0; 2] ∧
  on_key (recon_log (engine_fuel R3) memo3) (root R3) ([], [])
    = Some ([0; 2], [mkKey 0 3 0 4; mkKey 0 2 0 4; mkKey 0 2 0 2;
                     mkKey 0 2 2 4; mkKey 2 3 0 4]) ∧
  memo3 !! mkKey 0 3 0 4 = Some (mkAnswer 2 (mkChoice 2 2)) ∧
  memo3 !! mkKey 0 2 0 4 = Some (mkAnswer 2 (mkChoice 3 2)) ∧
  memo3 !! mkKey 0 2 0 2 = Some (mkAnswer 1 (mkChoice 1 0)) ∧
  memo3 !! mkKey 0 2 2 4 = Some (mkAnswer 1 (mkChoice 1 2)) ∧
  memo3 !! mkKey 2 3 0 4 = Some Answer0 ∧
  insideK (index_rect (xs_of R3) (ys_of R3) (mkRect 1 1 3 3)) (mkKey 0 2 0 4) = false ∧
  insideK (index_rect (xs_of R3) (ys_of R3) (mkRect 1 1 3 3)) (mkKey 2 3 0 4) = false ∧
  main "3 0 0 2 2 1 1 3 3 0 2 2 4"
    = Some (Exit0 2 [(0, mkRect 0 0 2 2); (2, mkRect 0 2 2 4)]).
Proof.
  split_and!; [idtac|idtac|idtac|exact R3_solve_root|..]; vm_compute; reflexivity.
Qed.

(** C4. In any table that arises in a run, [solve] on a non-degenerate
    window inside which no grid rectangle lies fully (left index at least
    xi, right index at most xj, bottom index at least yk, top index at most
    yl) returns (0, none) and leaves the table with exactly that entry added
    for the window.  It does so with any positive fuel, one unit included:
    no recursive call on a sub-window is needed, none is made. *)
Theorem solve_prunes_empty_window (RIv : list RI.t) (m : gmap Key Answer)
    (fuel : nat) (xi xj yk yl : Z) :
  reachable RIv m →
  xi < xj → yk < yl →
  Forall (λ q, ¬ (xi ≤ RI.xl q ∧ RI.xr q ≤ xj ∧ yk ≤ RI.yb q ∧ RI.yt q ≤ yl)) RIv →
  solve RIv (S fuel) xi xj yk yl m
    = Some (Answer0, <[mkKey xi xj yk yl := Answer0]> m).
Proof.
  intros Hreach Hx Hy Hnone. apply reachable_inv in Hreach.
  assert (Hw : windowHasAnyRect RIv xi xj yk yl = false).
  { apply not_true_is_false. intros Hw.
    apply (hasRectK_true RIv (mkKey xi xj yk yl)) in Hw as (q & Hq & Hin).
    rewrite Forall_forall in Hnone. apply (Hnone q Hq).
    apply insideK_true in Hin. simpl in Hin. lia. }
  simpl. unfold degenerate.
  destruct (Z.leb_spec xj xi); [lia|]. destruct (Z.leb_spec yl yk); [lia|]. simpl.
  rewrite Hw. simpl.
  destruct (m !! mkKey xi xj yk yl) as [a|] eqn:Hm; [|done].
  destruct (Hreach _ _ Hm) as [_ Hok]. unfold hasRectK in Hok. simpl in Hok.
  rewrite Hw in Hok. subst a. by rewrite insert_id.
Qed.

Lemma solve_prunes_empty_window_witness :
  reachable [RI.mk 0 2 0 2] ∅ ∧ 0 < 1 ∧ 0 < 2 ∧
  Forall (λ q, ¬ (0 ≤ RI.xl q ∧ RI.xr q ≤ 1 ∧ 0 ≤ RI.yb q ∧ RI.yt q ≤ 2))
         [RI.mk 0 2 0 2] ∧
  solve [RI.mk 0 2 0 2] 1 0 1 0 2 ∅ = Some (Answer0, <[mkKey 0 1 0 2 := Answer0]> ∅).
Proof.
  assert (H1 : reachable [RI.mk 0 2 0 2] ∅) by constructor.
  assert (H2 : 0 < 1) by lia. assert (H3 : 0 < 2) by lia.
  assert (H4 : Forall (λ q, ¬ (0 ≤ RI.xl q ∧ RI.xr q ≤ 1 ∧ 0 ≤ RI.yb q ∧ RI.yt q ≤ 2))
                      [RI.mk 0 2 0 2])
    by (repeat constructor; simpl; lia).
  split_and!; try assumption.
  exact (solve_prunes_empty_window [RI.mk 0 2 0 2] ∅ 0 0 1 0 2 H1 H2 H3 H4).
Defined.

(** C5. For every stored entry of a non-degenerate window that holds a
    rectangle (so is not pruned), the stored (value, choice) is the earliest
    maximum of the window's candidate list: exact-match leaves by increasing
    rectangle index (value 1), then vertical cuts by increasing column, then
    horizontal cuts by increasing row.  Every candidate before it is
    strictly smaller, none after it is larger. *)
Theorem stored_choice_earliest_max (R : list Rect) (m : gmap Key Answer)
    (k : Key) (a : Answer) :
  Forall valid_rect R → reachable (RIv_of R) m →
  m !! k = Some a → hasRectK (RIv_of R) k = true →
  degenerateK k = false ∧
  ∃ pre post, candidates (RIv_of R) m k = pre ++ a :: post ∧
    Forall (λ b, val b < val a) pre ∧ Forall (λ b, val b ≤ val a) post.
Proof.
  intros HR Hreach%reachable_inv Hk Hw.
  pose proof (val_lower _ (RIv_of_valid R HR) m Hreach (S (size k)) k a
                ltac:(lia) Hk Hw) as Hpos.
  destruct (Hreach k a Hk) as [Hd Hok]. rewrite Hw in Hok.
  destruct Hok as ((pre & post & Heq & Hpre & Hpost) & _).
  split; [done|].
  destruct pre as [|b pre]; simpl in Heq.
  - injection Heq as <- _. simpl in Hpos. lia.
  - injection Heq as <- Heq. apply Forall_cons in Hpre as [_ Hpre]. eauto.
Qed.

Lemma stored_choice_earliest_max_witness :
  Forall valid_rect R3 ∧ reachable (RIv_of R3) memo3 ∧
  memo3 !! root R3 = Some (mkAnswer 2 (mkChoice 2 2)) ∧
  hasRectK (RIv_of R3) (root R3) = true ∧
  degenerateK (root R3) = false ∧
  ∃ pre post,
    candidates (RIv_of R3) memo3 (root R3)
      = pre ++ mkAnswer 2 (mkChoice 2 2) :: post ∧
    Forall (λ b, val b < 2) pre ∧ Forall (λ b, val b ≤ 2) post.
Proof.
  assert (HR : Forall valid_rect R3)
    by (repeat constructor; unfold valid_rect; simpl; lia).
  assert (Hreach : reachable (RIv_of R3) memo3).
  { apply (reachable_solve _ (engine_fuel R3) (root R3) ∅
             (mkAnswer 2 (mkChoice 2 2)) memo3); [constructor|].
    exact R3_solve_root. }
  assert (Hk : memo3 !! root R3 = Some (mkAnswer 2 (mkChoice 2 2)))
    by (vm_compute; reflexivity).
  assert (Hw : hasRectK (RIv_of R3) (root R3) = true) by (vm_compute; reflexivity).
  split_and!; try assumption;
    apply (stored_choice_earliest_max R3 memo3 (root R3) _ HR Hreach Hk Hw).
Defined.

(** C7. On a valid instance with n rectangles, whenever [solve] returns,
    from any table that arises in a run and on any window, the value it
    returns lies between 0 and n, and so does the value of every entry of
    the table it leaves behind. *)
Theorem solve_value_bounds (R : list Rect) (fuel : nat) (k : Key)
    (m : gmap Key Answer) (a : Answer) (m' : gmap Key Answer) :
  Forall valid_rect R → reachable (RIv_of R) m →
  solveK (RIv_of R) fuel k m = Some (a, m') →
  0 ≤ val a ≤ Z.of_nat (length R) ∧
  ∀ k' b, m' !! k' = Some b → 0 ≤ val b ≤ Z.of_nat (length R).
Proof.
  intros HR Hreach Hs.
  assert (Hinv' : memo_inv (RIv_of R) m')
    by (eapply reachable_inv, reachable_solve; eauto).
  assert (Hall : ∀ k' b, m' !! k' = Some b → 0 ≤ val b ≤ Z.of_nat (length R)).
  { intros k' b Hb. split; [by eapply val_nonneg|].
    pose proof (val_upper _ (RIv_of_valid R HR) m' Hinv' (S (size k')) k' b
                  ltac:(lia) Hb).
    pose proof (count_inside_bounds (RIv_of R) k'). rewrite RIv_of_n in *. lia. }
  split; [|done].
  destruct (solve_post_of_Some _ _ _ _ _ _ (reachable_inv _ _ Hreach) Hs)
    as (a0 & m0 & [= <- <-] & _ & _ & Hres & _).
  destruct (degenerateK k); [|by eapply Hall].
  destruct Hres as [-> _]. simpl. lia.
Qed.

Lemma solve_value_bounds_witness :
  Forall valid_rect R3 ∧ reachable (RIv_of R3) ∅ ∧
  solveK (RIv_of R3) (engine_fuel R3) (root R3) ∅
    = Some (mkAnswer 2 (mkChoice 2 2), memo3) ∧
  0 ≤ 2 ≤ Z.of_nat (length R3) ∧
  ∀ k' b, memo3 !! k' = Some b → 0 ≤ val b ≤ Z.of_nat (length R3).
Proof.
  assert (HR : Forall valid_rect R3)
    by (repeat constructor; unfold valid_rect; simpl; lia).
  assert (Hreach : reachable (RIv_of R3) ∅) by constructor.
  assert (Hs : solveK (RIv_of R3) (engine_fuel R3) (root R3) ∅
               = Some (mkAnswer 2 (mkChoice 2 2), memo3))
    by exact R3_solve_root.
  split_and!; try assumption;
    apply (solve_value_bounds R3 _ _ _ _ _ HR Hreach Hs).
Defined.

Lemma print_lines_Some (R : list Rect) (chosen : list Z) :
  (∀ rid, rid ∈ chosen → 0 ≤ rid < Z.of_nat (length R)) →
  ∃ lines, print_lines R chosen = Some lines ∧ lines.*1 = chosen.
Proof.
  unfold print_lines. induction chosen as [|rid chosen IH]; intros Hr.
  - by exists [].
  - destruct IH as (lines & Hl & Hfst); [intros r Hin; apply Hr; by right|].
    destruct (Hr rid) as [H0 Hlt]; [left|].
    destruct (lookup_lt_is_Some_2 R (Z.to_nat rid)) as [r Hlook]; [lia|].
    exists ((rid, r) :: lines). simpl.
    destruct (Z.ltb_spec rid 0); [lia|]. rewrite Hlook. simpl.
    rewrite Hl. simpl. split; [done|]. f_equal. exact Hfst.
Qed.

(** C9. On a valid instance with at least one rectangle, the value that
    [solve] returns for the bounding window is at least 1, and the count
    the program prints is this value. *)
Theorem root_value_positive (R : list Rect) :
  Forall valid_rect R → R ≠ [] →
  ∃ ans memo chosen lines,
    solve_root (engine_fuel R) R = Some (ans, memo) ∧
    engine R = Some (ans, chosen) ∧
    report R (engine R) = Some (Exit0 (val ans) lines) ∧
    1 ≤ val ans.
Proof.
  intros HR Hne.
  destruct (engine_spec R HR Hne)
    as (ans & memo & chosen & visited & Hs & Hreach & Hroot & _ & _ & He & _ & _ & _ & Hids & _).
  destruct (print_lines_Some R chosen) as (lines & Hl & _).
  { intros rid Hrid. destruct (Hids rid Hrid) as (_ & _ & _ & Hr & _).
    by rewrite RIv_of_n in Hr. }
  exists ans, memo, chosen, lines. split_and!; try done.
  - rewrite He. simpl. by rewrite Hl.
  - apply (val_lower _ (RIv_of_valid R HR) memo (reachable_inv _ _ Hreach)
             (S (size (root R))) (root R) ans); [lia|done|].
    by apply root_hasRect.
Qed.

Lemma root_value_positive_witness :
  Forall valid_rect [mkRect 0 0 1 1] ∧ [mkRect 0 0 1 1] ≠ [] ∧
  ∃ ans memo chosen lines,
    solve_root (engine_fuel [mkRect 0 0 1 1]) [mkRect 0 0 1 1] = Some (ans, memo) ∧
    engine [mkRect 0 0 1 1] = Some (ans, chosen) ∧
    report [mkRect 0 0 1 1] (engine [mkRect 0 0 1 1]) = Some (Exit0 (val ans) lines) ∧
    1 ≤ val ans.
Proof.
  assert (HR : Forall valid_rect [mkRect 0 0 1 1])
    by (repeat constructor; unfold valid_rect; simpl; lia).
  assert (Hne : [mkRect 0 0 1 1] ≠ []) by discriminate.
  split; [exact HR|]. split; [exact Hne|].
  exact (root_value_positive [mkRect 0 0 1 1] HR Hne).
Defined.

(** C10. On a valid instance, every window on which reconstruction from
    the bounding window is called has an entry in the table that [solve]
    left behind, so the lookup in [recon] never fails; and for every stored
    vertical or horizontal cut, both sub-windows of the cut have entries
    too. *)
Theorem recon_visits_memoized (R : list Rect) :
  Forall valid_rect R → R ≠ [] →
  ∃ ans memo chosen visited,
    solve_root (engine_fuel R) R = Some (ans, memo) ∧
    on_key (recon_log (engine_fuel R) memo) (root R) ([], []) = Some (chosen, visited) ∧
    recon_root (engine_fuel R) R memo = Some chosen ∧
    root R ∈ visited ∧
    (∀ k, k ∈ visited → is_Some (memo !! k)) ∧
    (∀ k a, memo !! k = Some a →
       (type (ch a) = 2 →
          is_Some (memo !! vL k (param (ch a))) ∧ is_Some (memo !! vR k (param (ch a)))) ∧
       (type (ch a) = 3 →
          is_Some (memo !! hB k (param (ch a))) ∧ is_Some (memo !! hT k (param (ch a))))).
Proof.
  intros HR Hne.
  destruct (engine_spec R HR Hne)
    as (ans & memo & chosen & visited & Hs & Hreach & Hroot & Hlog & Hrec & _ & _ & Hhd & Hvis & _).
  exists ans, memo, chosen, visited. split_and!; try done.
  - intros k Hk. by destruct (Hvis k Hk).
  - intros k a Hk.
    destruct (entry_cases _ memo k a (reachable_inv _ _ Hreach) Hk) as [_ Hc].
    destruct Hc as [->|[(rid & -> & _)|[(c & L & Rw & -> & _ & HL & HR')|
                           (c & B & T & -> & _ & HB & HT)]]]; simpl;
      split; intros Hty; try discriminate Hty; split; by eexists.
Qed.

Lemma recon_visits_memoized_witness :
  Forall valid_rect R3 ∧ R3 ≠ [] ∧
  ∃ ans memo chosen visited,
    solve_root (engine_fuel R3) R3 = Some (ans, memo) ∧
    on_key (recon_log (engine_fuel R3) memo) (root R3) ([], []) = Some (chosen, visited) ∧
    recon_root (engine_fuel R3) R3 memo = Some chosen ∧
    root R3 ∈ visited ∧
    (∀ k, k ∈ visited → is_Some (memo !! k)) ∧
    (∀ k a, memo !! k = Some a →
       (type (ch a) = 2 →
          is_Some (memo !! vL k (param (ch a))) ∧ is_Some (memo !! vR k (param (ch a)))) ∧
       (type (ch a) = 3 →
          is_Some (memo !! hB k (param (ch a))) ∧ is_Some (memo !! hT k (param (ch a))))).
Proof.
  assert (HR : Forall valid_rect R3)
    by (repeat constructor; unfold valid_rect; simpl; lia).
  assert (Hne : R3 ≠ []) by discriminate.
  split; [exact HR|]. split; [exact Hne|].
  exact (recon_visits_memoized R3 HR Hne).
Defined.

(** ** The whole program *)

Lemma recon_fuel_mono (m : gmap Key Answer) :
  ∀ fuel fuel' xi xj yk yl chosen r, (fuel ≤ fuel')%nat →
    recon fuel m xi xj yk yl chosen = Some r →
    recon fuel' m xi xj yk yl chosen = Some r.
Proof.
  induction fuel as [|fuel IH]; intros fuel' xi xj yk yl chosen r Hle; [done|].
  destruct fuel' as [|fuel']; [lia|]. simpl.
  destruct (m !! _) as [A|]; [|done].
  destruct (val A =? 0); [done|].
  destruct (type (ch A) =? 1); [done|].
  destruct (type (ch A) =? 2).
  { destruct (recon fuel m xi _ yk yl chosen) as [c1|] eqn:Hc1; simpl; [|done].
    rewrite (IH fuel' _ _ _ _ _ _ ltac:(lia) Hc1). simpl. apply IH. lia. }
  destruct (type (ch A) =? 3); [|done].
  destruct (recon fuel m xi xj yk _ chosen) as [c1|] eqn:Hc1; simpl; [|done].
  rewrite (IH fuel' _ _ _ _ _ _ ltac:(lia) Hc1). simpl. apply IH. lia.
Qed.

Lemma engine_with_mono (R : list Rect) fuel fuel' r :
  (fuel ≤ fuel')%nat → engine_with fuel R = Some r → engine_with fuel' R = Some r.
Proof.
  intros Hle. unfold engine_with, solve_root, recon_root, on_key.
  destruct (solveK _ fuel _ _) as [[ans memo]|] eqn:Hs; simpl; [|done].
  rewrite (solve_fuel_mono _ fuel fuel' _ _ _ Hle Hs). simpl.
  destruct (recon fuel memo _ _ _ _ _) as [chosen|] eqn:Hr; simpl; [|done].
  by rewrite (recon_fuel_mono _ fuel fuel' _ _ _ _ _ _ Hle Hr).
Qed.

Lemma main_with_mono (input : string) fuel fuel' o :
  (fuel ≤ fuel')%nat → main_with fuel input = Some o → main_with fuel' input = Some o.
Proof.
  intros Hle. unfold main_with. destruct (read_input _) as [d|R]; [done|].
  unfold report.
  destruct (engine_with fuel R) as [r|] eqn:He; simpl; [|done].
  by rewrite (engine_with_mono R fuel fuel' r Hle He).
Qed.

(** ** Reading the input: [extract] against the declarative [field] *)

Lemma digit_not_space c : is_Some (digit c) → isspace c = false.
Proof.
  intros [d Hd]. unfold digit in Hd. unfold isspace.
  destruct ((48 <=? Z.of_nat (nat_of_ascii c)) && (Z.of_nat (nat_of_ascii c) <=? 57))
    eqn:E; [|done].
  apply andb_true_iff in E as [E1%Z.leb_le E2%Z.leb_le].
  apply orb_false_iff; split; [apply Nat.eqb_neq; lia|].
  apply andb_false_iff; right. apply Nat.leb_gt. lia.
Qed.

Lemma skipws_app ws t :
  Forall (λ c, isspace c = true) ws →
  (∀ c t', t = c :: t' → isspace c = false) →
  skipws (ws ++ t) = t.
Proof.
  intros Hws Ht. induction Hws as [|c ws Hc _ IH]; simpl.
  - destruct t as [|c t']; [done|]. simpl. by rewrite (Ht c t').
  - by rewrite Hc.
Qed.

Lemma skipws_spec s :
  ∃ ws, s = ws ++ skipws s ∧ Forall (λ c, isspace c = true) ws ∧
        (∀ c t', skipws s = c :: t' → isspace c = false).
Proof.
  induction s as [|c s (ws & Hs & Hws & Hhd)]; simpl.
  - exists []. split_and!; done.
  - destruct (isspace c) eqn:Hc.
    + exists (c :: ws). split_and!; [by rewrite Hs at 1|by constructor|done].
    + exists []. split_and!; [done|constructor|]. by intros c' t' [= <- _].
Qed.

Lemma read_digits_app ds rest :
  Forall (λ c, is_Some (digit c)) ds → head rest ≫= digit = None →
  ∀ acc cnt,
    read_digits (ds ++ rest) acc cnt = (digits_from acc ds, (cnt + length ds)%nat, rest).
Proof.
  intros Hds Hrest. induction Hds as [|c ds [d Hd] _ IH]; intros acc cnt; simpl.
  - rewrite Nat.add_0_r. destruct rest as [|c rest]; [done|].
    simpl in *. by rewrite Hrest.
  - rewrite Hd. rewrite IH. simpl. do 2 f_equal. lia.
Qed.

Lemma read_digits_spec s :
  ∀ acc cnt v cnt' rest,
    read_digits s acc cnt = (v, cnt', rest) →
    ∃ ds, s = ds ++ rest ∧ Forall (λ c, is_Some (digit c)) ds ∧
          head rest ≫= digit = None ∧
          v = digits_from acc ds ∧ cnt' = (cnt + length ds)%nat.
Proof.
  induction s as [|c s IH]; intros acc cnt v cnt' rest; simpl.
  - intros [= <- <- <-]. exists []. split_and!; try done; simpl; lia.
  - destruct (digit c) as [d|] eqn:Hd.
    + intros (ds & -> & Hds & Hrest & -> & ->)%IH.
      exists (c :: ds). split_and!; try done.
      * constructor; [by eexists|done].
      * unfold digits_from. simpl. by rewrite Hd.
      * simpl. lia.
    + intros [= <- <- <-]. exists []. simpl. rewrite Hd.
      split_and!; try done; lia.
Qed.

Lemma read_sign_spec s neg t :
  read_sign s = (neg, t) →
  ∃ sg, s = sg ++ t ∧ (sg = [] ∨ sg = ["+"%char] ∨ sg = ["-"%char]) ∧
        neg = bool_decide (sg = ["-"%char]).
Proof.
  unfold read_sign. destruct s as [|c s].
  - intros [= <- <-]. exists []. auto.
  - destruct (Ascii.eqb_spec c "-") as [->|Hm].
    { intros [= <- <-]. exists ["-"%char]. auto. }
    destruct (Ascii.eqb_spec c "+") as [->|Hp].
    { intros [= <- <-]. exists ["+"%char]. auto. }
    intros [= <- <-]. exists []. auto.
Qed.

Lemma read_sign_app sg t :
  (sg = [] ∨ sg = ["+"%char] ∨ sg = ["-"%char]) →
  (∀ c t', t = c :: t' → is_Some (digit c)) →
  read_sign (sg ++ t) = (bool_decide (sg = ["-"%char]), t).
Proof.
  intros [-> | [-> | ->]] Ht; [|done..].
  destruct t as [|c t']; [done|]. simpl.
  destruct (Ht c t' eq_refl) as [d Hd].
  destruct (Ascii.eqb_spec c "-") as [->|_]; [done|].
  destruct (Ascii.eqb_spec c "+") as [->|_]; done.
Qed.

Lemma extract_field lo hi s v rest :
  extract lo hi s = Some (v, rest) ↔ field lo hi s v rest.
Proof.
  unfold extract. split.
  - destruct (skipws_spec s) as (ws & Hs & Hws & Hhd).
    destruct (read_sign (skipws s)) as [neg t] eqn:Hsign.
    apply read_sign_spec in Hsign as (sg & Ht & Hsg & ->).
    destruct (read_digits t 0 0) as [[v0 cnt] rest0] eqn:Hrd.
    apply read_digits_spec in Hrd as (ds & -> & Hds & Hrest & -> & ->).
    destruct (Nat.eqb_spec (0 + length ds) 0) as [|Hlen]; [done|].
    destruct (_ && _) eqn:Hrange; [|done]. intros [= <- <-].
    apply andb_true_iff in Hrange as [H1%Z.leb_le H2%Z.leb_le].
    exists ws, sg, ds.
    split; [rewrite Hs at 1; by rewrite Ht|].
    split; [done|]. split; [done|].
    split; [intros ->; simpl in Hlen; lia|].
    split; [done|]. split; [done|].
    split; [by case_bool_decide; case_decide|].
    lia.
  - intros (ws & sg & ds & -> & Hws & Hsg & Hne & Hds & Hrest & -> & Hrange).
    rewrite skipws_app; [|done|].
    2:{ intros c t' Hc. destruct ds as [|d0 ds]; [done|].
        apply Forall_cons in Hds as [Hd0 _].
        destruct Hsg as [-> | [-> | ->]]; simpl in Hc; inversion Hc; subst;
          [by apply digit_not_space|done..]. }
    rewrite read_sign_app; [|done|].
    2:{ intros c t' Hc. destruct ds as [|d0 ds]; [done|].
        apply Forall_cons in Hds as [Hd0 _]. simpl in Hc. by inversion Hc; subst. }
    rewrite read_digits_app by done.
    destruct (Nat.eqb_spec (0 + length ds) 0) as [Hlen|_].
    { destruct ds; [done|simpl in Hlen; lia]. }
    revert Hrange. case_bool_decide; case_decide; try done; intros Hrange.
    + destruct (Z.leb_spec lo (- digits_from 0 ds)); [|lia].
      destruct (Z.leb_spec (- digits_from 0 ds) hi); [|lia]. done.
    + destruct (Z.leb_spec lo (digits_from 0 ds)); [|lia].
      destruct (Z.leb_spec (digits_from 0 ds) hi); [|lia]. done.
Qed.

Lemma extract_rect_field s r rest :
  extract_rect s = Some (r, rest) ↔ rect_field s r rest.
Proof.
  unfold extract_rect, extract_ll, rect_field. split.
  - destruct (extract _ _ s) as [[a s1]|] eqn:Ha; simpl; [|done].
    destruct (extract _ _ s1) as [[b s2]|] eqn:Hb; simpl; [|done].
    destruct (extract _ _ s2) as [[c s3]|] eqn:Hc; simpl; [|done].
    destruct (extract _ _ s3) as [[d s4]|] eqn:Hd; simpl; [|done].
    intros [= <- <-]. exists s1, s2, s3. simpl.
    by rewrite <- !extract_field.
  - intros (s1 & s2 & s3 & Ha & Hb & Hc & Hd).
    apply extract_field in Ha, Hb, Hc, Hd.
    rewrite Ha. simpl. rewrite Hb. simpl. rewrite Hc. simpl. rewrite Hd. simpl.
    by destruct r.
Qed.

Lemma valid_rect_test r :
  (xl r <? xr r) && (yb r <? yt r) = true ↔ valid_rect r.
Proof. unfold valid_rect. rewrite andb_true_iff, !Z.ltb_lt. done. Qed.

Lemma records_snoc s R s1 r s2 :
  records s R s1 → rect_field s1 r s2 → records s (R ++ [r]) s2.
Proof.
  induction 1 as [s|s r0 s0 R s1 Hr0 _ IH]; intros Hr; simpl.
  - econstructor; [done|constructor].
  - econstructor; [done|by apply IH].
Qed.

(** The reading loop accepts exactly the streams that hold the records. *)
Lemma read_rects_ok s R rest :
  records s R rest → Forall valid_rect R →
  ∀ i acc, read_rects (length R) i s acc = inr (acc ++ R).
Proof.
  induction 1 as [s|s r s1 R s2 Hr _ IH]; intros HR i acc; simpl.
  - by rewrite app_nil_r.
  - apply Forall_cons in HR as [Hv HR].
    apply extract_rect_field in Hr. rewrite Hr.
    apply valid_rect_test in Hv. rewrite Hv.
    rewrite IH by done. by rewrite <- app_assoc.
Qed.

(** What the reading loop returns, read back on the stream. *)
Lemma read_rects_spec :
  ∀ cnt i s acc,
    match read_rects cnt i s acc with
    | inr R' =>
        ∃ R rest, R' = acc ++ R ∧ length R = cnt ∧ records s R rest ∧
                  Forall valid_rect R
    | inl d =>
        ∃ R0 s2, (length R0 < cnt)%nat ∧ records s R0 s2 ∧ Forall valid_rect R0 ∧
          ((d = BadLine (i + Z.of_nat (length R0) + 2) ∧ ∀ r s3, ¬ rect_field s2 r s3) ∨
           (∃ r s3, d = BadRect (i + Z.of_nat (length R0)) ∧
                    rect_field s2 r s3 ∧ ¬ valid_rect r))
    end.
Proof.
  induction cnt as [|cnt IH]; intros i s acc; simpl.
  - exists [], s. rewrite app_nil_r. split_and!; try done; constructor.
  - destruct (extract_rect s) as [[r s1]|] eqn:Hr.
    2:{ exists [], s. split_and!; [simpl; lia|constructor|constructor|].
        left. split; [simpl; f_equal; lia|].
        intros r s3 Hf%extract_rect_field. congruence. }
    apply extract_rect_field in Hr.
    destruct ((xl r <? xr r) && (yb r <? yt r)) eqn:Hv.
    2:{ exists [], s. split_and!; [simpl; lia|constructor|constructor|].
        right. exists r, s1. split_and!; [simpl; f_equal; lia|done|].
        intros Hv'%valid_rect_test. congruence. }
    apply valid_rect_test in Hv.
    specialize (IH (i + 1) s1 (acc ++ [r])).
    destruct (read_rects cnt (i + 1) s1 (acc ++ [r])) as [d|R'].
    + destruct IH as (R0 & s2 & Hlen & Hrec & HR0 & Hd).
      exists (r :: R0), s2.
      split_and!; [simpl; lia|by econstructor|by constructor|].
      destruct Hd as [[-> Hno]|(r' & s3 & -> & Hf & Hnv)].
      * left. split; [f_equal; simpl length; lia|done].
      * right. exists r', s3. split_and!; [f_equal; simpl length; lia|done..].
    + destruct IH as (R & rest & -> & Hlen & Hrec & HR).
      exists (r :: R), rest.
      split_and!; [by rewrite <- app_assoc|simpl; lia|by econstructor|by constructor].
Qed.

Lemma read_input_ok s R : input_ok s R → read_input s = inr R.
Proof.
  intros (s1 & rest & Hn%extract_field & Hne & Hrec & HR).
  unfold read_input, extract_int. rewrite Hn.
  destruct (Z.leb_spec (Z.of_nat (length R)) 0) as [Hle|_].
  { destruct R; [done|simpl in Hle; lia]. }
  rewrite Nat2Z.id. by rewrite (read_rects_ok s1 R rest).
Qed.

Lemma read_input_spec s :
  match read_input s with
  | inr R => input_ok s R
  | inl d => diag_ok s d
  end.
Proof.
  unfold read_input, extract_int.
  destruct (extract INT_MIN INT_MAX s) as [[n s1]|] eqn:Hn.
  2:{ intros n s1 Hf%extract_field. congruence. }
  destruct (Z.leb_spec n 0) as [Hle|Hpos].
  { intros n' s1' Hf%extract_field. congruence. }
  apply extract_field in Hn.
  pose proof (read_rects_spec (Z.to_nat n) 0 s1 []) as Hspec.
  destruct (read_rects (Z.to_nat n) 0 s1 []) as [d|R'].
  - destruct Hspec as (R0 & s2 & Hlen & Hrec & HR0 & Hd).
    destruct Hd as [[-> Hno]|(r & s3 & -> & Hf & Hnv)]; simpl.
    + exists n, s1, R0, s2. split_and!; try done; lia.
    + exists n, s1, R0, s2, r, s3. split_and!; try done; lia.
  - destruct Hspec as (R & rest & -> & Hlen & Hrec & HR). simpl.
    exists s1, rest. split_and!; try done.
    + by replace (Z.of_nat (length R)) with n by lia.
    + intros ->. simpl in Hlen. lia.
Qed.

(** The engine's complete answer is printed on every valid instance. *)
Lemma report_engine (R : list Rect) :
  Forall valid_rect R → R ≠ [] →
  ∃ ans chosen lines,
    engine R = Some (ans, chosen) ∧ lines.*1 = chosen ∧
    report R (engine R) = Some (Exit0 (val ans) lines).
Proof.
  intros HR Hne.
  destruct (engine_spec R HR Hne)
    as (ans & memo & chosen & visited & _ & _ & _ & _ & _ & He & _ & _ & _ & Hids & _).
  destruct (print_lines_Some R chosen) as (lines & Hl & Hfst).
  { intros rid Hrid. destruct (Hids rid Hrid) as (_ & _ & _ & Hr & _).
    by rewrite RIv_of_n in Hr. }
  exists ans, chosen, lines. split_and!; try done.
  rewrite He. simpl. by rewrite Hl.
Qed.

(** ** Runs: any table, any memory *)

Lemma main_total (input : string) : ∃ o, main input = Some o.
Proof.
  unfold main.
  pose proof (read_input_spec (String.list_ascii_of_string input)) as Hspec.
  destruct (read_input _) as [d|R]; [by eexists|].
  destruct Hspec as (_ & _ & _ & Hne & _ & HR).
  destruct (report_engine R HR Hne) as (ans & chosen & lines & _ & _ & ->).
  by eexists.
Qed.

Lemma main_fuel (input : string) : ∃ fuel, main_with fuel input = main input.
Proof.
  unfold main_with, main, engine.
  destruct (read_input _) as [d|R]; [by exists 0%nat|by exists (engine_fuel R)].
Qed.

Lemma main_with_main (fuel : nat) (input : string) (o : outcome) :
  main_with fuel input = Some o → main input = Some o.
Proof.
  intros Ho. destruct (main_total input) as [o' Ho'].
  destruct (main_fuel input) as [f Hf]. rewrite Ho'. rewrite <- Hf in Ho'.
  apply (main_with_mono _ _ (fuel `max` f)) in Ho; [|lia].
  apply (main_with_mono _ _ (fuel `max` f)) in Ho'; [|lia].
  congruence.
Qed.

Lemma Key_eqb_decide (k o : Key) : Key_eqb k o = bool_decide (k = o).
Proof.
  destruct k as [a b c d], o as [a' b' c' d']. unfold Key_eqb; simpl.
  case_bool_decide as H.
  - injection H as -> -> -> ->. by rewrite !Z.eqb_refl.
  - apply not_true_is_false. intros Ht.
    rewrite !andb_true_iff, !Z.eqb_eq in Ht.
    destruct Ht as [[[-> ->] ->] ->]. by apply H.
Qed.

Lemma bucket_find_assign (b : bucket) (k : Key) (a : Answer) (k' : Key) :
  bucket_find (bucket_assign b k a) k'
    = if decide (k = k') then Some a else bucket_find b k'.
Proof.
  induction b as [|[k0 a0] b IH]; simpl.
  - rewrite Key_eqb_decide. case_bool_decide; case_decide; congruence.
  - rewrite (Key_eqb_decide k0 k). case_bool_decide as E; simpl;
      rewrite !(Key_eqb_decide k0 k').
    + subst k0. case_bool_decide; case_decide; congruence.
    + rewrite IH. case_bool_decide; case_decide; congruence.
Qed.

Lemma bucket_index_lt (nb : nat) (k : Key) :
  (0 < nb)%nat → (bucket_index nb k < nb)%nat.
Proof.
  intros Hnb. unfold bucket_index.
  pose proof (Z.mod_pos_bound (KeyHash k) (Z.of_nat nb)). lia.
Qed.

Lemma gmap_Lawful : Lawful gmap_Memo.
Proof.
  exists (λ _, True). simpl. split_and!; try done.
  intros t k a k' _. apply lookup_insert.
Qed.

Lemma chained_Lawful (nb : nat) : Lawful (chained_Memo nb).
Proof.
  exists (λ t, t ≠ []). simpl. split_and!.
  - done.
  - intros t k a Ht. unfold chained_assign.
    intros Hnil%(f_equal length). rewrite length_insert in Hnil.
    by destruct t.
  - intros k. unfold chained_find.
    destruct (_ !! _) as [b|] eqn:E; [|done].
    apply (lookup_replicate_1 (S nb)) in E. by destruct E as [-> _].
  - intros t k a k' Ht. unfold chained_find, chained_assign.
    rewrite length_insert.
    assert (Hi : (bucket_index (length t) k < length t)%nat).
    { apply bucket_index_lt. destruct t; [done|simpl; lia]. }
    destruct (decide (bucket_index (length t) k = bucket_index (length t) k'))
      as [Hij|Hij].
    + rewrite <- Hij, list_lookup_insert, decide_True by done. simpl.
      apply bucket_find_assign.
    + rewrite list_lookup_insert, decide_False by (by intros [? _]).
      case_decide as Hk; [|done]. by subst k'.
Qed.

Section Simulation.
Context {T : Type} {M : Memo T}.
Variable ok : T → Prop.
Hypothesis ok_empty : ok memo_empty.
Hypothesis ok_assign : ∀ t k a, ok t → ok (memo_assign t k a).
Hypothesis find_empty : ∀ k, memo_find memo_empty k = None.
Hypothesis find_assign : ∀ t k a k', ok t →
  memo_find (memo_assign t k a) k'
    = if decide (k = k') then Some a else memo_find t k'.

Lemma rep_empty : rep ok memo_empty ∅.
Proof. split; [done|]. intros k. by rewrite find_empty, lookup_empty. Qed.

Lemma rep_assign t m k a :
  rep ok t m → rep ok (memo_assign t k a) (<[k := a]> m).
Proof.
  intros [Hok Hf]. split; [by apply ok_assign|].
  intros k'. rewrite find_assign, lookup_insert by done.
  case_decide; [done|apply Hf].
Qed.

Lemma cut_loop_sim rec rec' ty lo hi :
  (∀ k t m, rep ok t m → sim_res ok (rec k t) (rec' k m)) →
  ∀ cs best t m, rep ok t m →
    sim_res ok (cut_loop_on rec ty lo hi cs best t)
               (cut_loop rec' ty lo hi cs best m).
Proof.
  intros Hrec. induction cs as [|c cs IH]; intros best t m Hrep; simpl; [done|].
  pose proof (Hrec (lo c) t m Hrep) as H1.
  destruct (rec (lo c) t) as [[L t1]|], (rec' (lo c) m) as [[L' m1]|];
    simpl in *; try done.
  destruct H1 as [-> H1].
  pose proof (Hrec (hi c) t1 m1 H1) as H2.
  destruct (rec (hi c) t1) as [[Rw t2]|], (rec' (hi c) m1) as [[Rw' m2]|];
    simpl in *; try done.
  destruct H2 as [-> H2]. by apply IH.
Qed.

Lemma solve_on_sim RIv fuel :
  ∀ xi xj yk yl t m, rep ok t m →
    sim_res ok (solve_on RIv fuel xi xj yk yl t) (solve RIv fuel xi xj yk yl m).
Proof.
  induction fuel as [|fuel IH]; intros xi xj yk yl t m Hrep; simpl; [done|].
  destruct (degenerate xi xj yk yl); [done|].
  rewrite (proj2 Hrep). destruct (m !! _) as [a|]; [done|].
  destruct (negb _). { split; [done|]. by apply rep_assign. }
  assert (Hrec : ∀ k t m, rep ok t m →
            sim_res ok (on_key (solve_on RIv fuel) k t) (on_key (solve RIv fuel) k m))
    by (intros k t' m' Hr; by apply IH).
  pose proof (cut_loop_sim _ _ 2 (λ c, mkKey xi c yk yl) (λ c, mkKey c xj yk yl)
                Hrec (seqZ (xi + 1) (xj - xi - 1)) (leaf_scan RIv xi xj yk yl)
                t m Hrep) as H1.
  destruct (cut_loop_on _ 2 _ _ _ _ t) as [[b1 t1]|],
           (cut_loop _ 2 _ _ _ _ m) as [[b1' m1]|]; simpl in *; try done.
  destruct H1 as [-> H1].
  pose proof (cut_loop_sim _ _ 3 (λ c, mkKey xi xj yk c) (λ c, mkKey xi xj c yl)
                Hrec (seqZ (yk + 1) (yl - yk - 1)) b1' t1 m1 H1) as H2.
  destruct (cut_loop_on _ 3 _ _ _ _ t1) as [[b2 t2]|],
           (cut_loop _ 3 _ _ _ _ m1) as [[b2' m2]|]; simpl in *; try done.
  destruct H2 as [-> H2]. split; [done|]. by apply rep_assign.
Qed.

Lemma recon_on_eq fuel t m :
  (∀ k, memo_find t k = m !! k) →
  ∀ xi xj yk yl chosen,
    recon_on fuel t xi xj yk yl chosen = recon fuel m xi xj yk yl chosen.
Proof.
  intros Hf. induction fuel as [|fuel IH]; intros xi xj yk yl chosen; simpl; [done|].
  rewrite Hf. destruct (m !! _) as [A|]; [|done].
  destruct (val A =? 0); [done|].
  destruct (type (ch A) =? 1); [done|].
  destruct (type (ch A) =? 2).
  { rewrite IH. destruct (recon fuel m xi _ yk yl chosen); simpl; [apply IH|done]. }
  destruct (type (ch A) =? 3); [|done].
  rewrite IH. destruct (recon fuel m xi xj yk _ chosen); simpl; [apply IH|done].
Qed.

Lemma engine_on_sim fuel R : engine_on T fuel R = engine_with fuel R.
Proof.
  unfold engine_on, engine_with, solve_root, recon_root, solveK, on_key.
  pose proof (solve_on_sim (RIv_of R) fuel (xi (root R)) (xj (root R))
                (yk (root R)) (yl (root R)) memo_empty ∅ rep_empty) as Hs.
  destruct (solve_on _ _ _ _ _ _ _) as [[a t]|],
           (solve _ _ _ _ _ _ _) as [[a' m]|]; simpl in *; try done.
  destruct Hs as [-> [_ Hf]]. by rewrite (recon_on_eq fuel t m Hf).
Qed.
End Simulation.

Lemma engine_on_Lawful (T : Type) (M : Memo T) (fuel : nat) (R : list Rect) :
  Lawful M → engine_on T fuel R = engine_with fuel R.
Proof.
  intros (ok & H1 & H2 & H3 & H4). by apply (engine_on_sim ok).
Qed.

Lemma main_run_ext eng eng' (mem : memory) (input : string) :
  (∀ R, eng R = eng' R) → main_run eng mem input = main_run eng' mem input.
Proof.
  intros He. unfold main_run.
  destruct (extract_int _) as [[n s']|]; [|done].
  destruct (n <=? 0); [done|]. destruct (negb _); [done|].
  destruct (read_rects _ _ _ _) as [d|R]; [done|]. by rewrite He.
Qed.

Lemma main_run_mem_ext eng (mem mem' : memory) (input : string) :
  (∀ n, grant_rects mem n = grant_rects mem' n) →
  (∀ R, grant_engine mem R = grant_engine mem' R) →
  main_run eng mem input = main_run eng mem' input.
Proof.
  intros H1 H2. unfold main_run.
  destruct (extract_int _) as [[n s']|]; [|done].
  rewrite H1. destruct (n <=? 0); [done|]. destruct (negb _); [done|].
  destruct (read_rects _ _ _ _) as [d|R]; [done|]. by rewrite H2.
Qed.

(** A run is refused memory or ends as [main] does; which of the two does
    not depend on the engine. *)
Lemma main_run_shape (mem : memory) (input : string) :
  ∃ b : bool, ∀ eng,
    main_run eng mem input =
      if b then Some Aborted
      else Finished <$>
             match read_input (String.list_ascii_of_string input) with
             | inl d => Some (Exit1 d)
             | inr R => report R (eng R)
             end.
Proof.
  unfold main_run, read_input.
  destruct (extract_int _) as [[n s']|]; [|by exists false].
  destruct (n <=? 0); [by exists false|].
  destruct (grant_rects mem n); simpl; [|by exists true].
  destruct (read_rects _ _ _ _) as [d|R]; [by exists false|].
  destruct (grant_engine mem R); simpl; [by exists false|by exists true].
Qed.

Lemma main_mem_total (mem : memory) (input : string) :
  ∃ r, main_mem mem input = Some r.
Proof.
  destruct (main_run_shape mem input) as [b Hb]. unfold main_mem. rewrite Hb.
  destruct b; [by eexists|].
  destruct (main_total input) as [o Ho]. unfold main in Ho. rewrite Ho.
  by eexists.
Qed.

Lemma runs_main_mem (T : Type) (M : Memo T) (mem : memory) (input : string)
    (r : run_result) :
  Lawful M → runs T mem input r ↔ main_mem mem input = Some r.
Proof.
  intros HL. destruct (main_run_shape mem input) as [b Hb].
  unfold runs, run_with, main_mem. rewrite Hb.
  split.
  - intros [fuel Hr].
    rewrite (main_run_ext _ (engine_with fuel)) in Hr
      by (intros R; by apply engine_on_Lawful).
    rewrite Hb in Hr. destruct b; [done|].
    change (Finished <$> main_with fuel input = Some r) in Hr.
    change (Finished <$> main input = Some r).
    destruct (main_with fuel input) as [o|] eqn:Ho; [|done].
    by rewrite (main_with_main _ _ _ Ho).
  - intros Hm. destruct (main_fuel input) as [fuel Hf]. exists fuel.
    rewrite (main_run_ext _ (engine_with fuel))
      by (intros R; by apply engine_on_Lawful).
    rewrite Hb. destruct b; [done|].
    change (Finished <$> main_with fuel input = Some r). by rewrite Hf.
Qed.




(** ** Input validation *)

(** The verdict of the reading loop in a run that is granted its memory. *)
Lemma main_validation (input : string) :
  (∀ R, input_ok (String.list_ascii_of_string input) R →
     ∃ ans chosen lines,
       engine R = Some (ans, chosen) ∧ lines.*1 = chosen ∧
       main input = Some (Exit0 (val ans) lines)) ∧
  ((∀ R, ¬ input_ok (String.list_ascii_of_string input) R) →
     ∃ d, main input = Some (Exit1 d)) ∧
  (∀ d, main input = Some (Exit1 d) →
     diag_ok (String.list_ascii_of_string input) d ∧
     ∀ R, ¬ input_ok (String.list_ascii_of_string input) R) ∧
  (∀ count lines, main input = Some (Exit0 count lines) →
     ∃ R, input_ok (String.list_ascii_of_string input) R).
Proof.
  unfold main.
  pose proof (read_input_spec (String.list_ascii_of_string input)) as Hspec.
  split_and!.
  - intros R Hok. rewrite (read_input_ok _ R Hok).
    destruct Hok as (_ & _ & _ & Hne & _ & HR).
    by apply report_engine.
  - intros Hno. destruct (read_input _) as [d|R]; [by eexists|].
    by destruct (Hno R).
  - intros d Hd. destruct (read_input _) as [d'|R] eqn:Hread.
    + injection Hd as ->. split; [done|].
      intros R Hok%read_input_ok. congruence.
    + destruct Hspec as (_ & _ & _ & Hne & _ & HR).
      destruct (report_engine R HR Hne) as (ans & chosen & lines & _ & _ & Hrep).
      congruence.
  - intros count lines Hm. destruct (read_input _) as [d|R]; [done|].
    by exists R.
Qed.

Lemma field_functional lo hi s v rest v' rest' :
  field lo hi s v rest → field lo hi s v' rest' → v = v' ∧ rest = rest'.
Proof. intros H1%extract_field H2%extract_field. split; congruence. Qed.

(** Where a run of [main_mem] ends, stage by stage. *)
Lemma main_mem_stage (mem : memory) (input : string) :
  (read_input (String.list_ascii_of_string input) = inl BadCount ∧
   (∀ n s1, field INT_MIN INT_MAX (String.list_ascii_of_string input) n s1 → n ≤ 0) ∧
   main_mem mem input = Some (Finished (Exit1 BadCount))) ∨
  ∃ n s1,
    field INT_MIN INT_MAX (String.list_ascii_of_string input) n s1 ∧ 0 < n ∧
    ((grant_rects mem n = false ∧ main_mem mem input = Some Aborted) ∨
     (grant_rects mem n = true ∧
      ((∃ d, read_input (String.list_ascii_of_string input) = inl d ∧
             main_mem mem input = Some (Finished (Exit1 d))) ∨
       (∃ R, read_input (String.list_ascii_of_string input) = inr R ∧
             ((grant_engine mem R = false ∧ main_mem mem input = Some Aborted) ∨
              (grant_engine mem R = true ∧
               main_mem mem input = Finished <$> report R (engine R))))))).
Proof.
  unfold main_mem, main_run, read_input, extract_int.
  destruct (extract INT_MIN INT_MAX _) as [[n s1]|] eqn:Hn.
  2:{ left. split_and!; try done. intros n s1 Hf%extract_field. congruence. }
  destruct (Z.leb_spec n 0) as [Hle|Hpos].
  { left. split_and!; try done. intros n' s1' Hf%extract_field. congruence. }
  right. exists n, s1. apply extract_field in Hn. split_and!; try done.
  destruct (grant_rects mem n); simpl; [right|by left]. split; [done|].
  destruct (read_rects _ _ _ _) as [d|R]; [left; by exists d|].
  right. exists R. split; [done|].
  destruct (grant_engine mem R); simpl; [by right|by left].
Qed.




(** * Further properties of the program *)

(** ** Coordinate compression and indexing *)

Lemma StronglySorted_lt_NoDup (l : list Z) : StronglySorted Z.lt l → NoDup l.
Proof.
  induction l as [|x l IH]; intros Hs; [constructor|].
  apply StronglySorted_cons in Hs as [Hx Hs]. constructor; [|by apply IH].
  intros Hin. rewrite Forall_forall in Hx. specialize (Hx x Hin). lia.
Qed.

Lemma compress_length (l : list Z) :
  (length (unique (merge_sort Z.le l)) ≤ length l)%nat.
Proof.
  destruct (compress_spec l) as [Hs Hel].
  apply submseteq_length, NoDup_submseteq; [by apply StronglySorted_lt_NoDup|].
  intros x. by rewrite Hel.
Qed.

Lemma bind_pair_length {A} (f g : A → Z) (l : list A) :
  length (l ≫= λ r, [f r; g r]) = (2 * length l)%nat.
Proof.
  induction l as [|x l IH]; [done|].
  change ((x :: l) ≫= λ r, [f r; g r]) with (f x :: g x :: (l ≫= λ r, [f r; g r])).
  simpl length. rewrite IH. lia.
Qed.

Lemma axes_spec (R : list Rect) :
  StronglySorted Z.lt (xs_of R) ∧ StronglySorted Z.lt (ys_of R) ∧
  (∀ v, v ∈ xs_of R ↔ ∃ r, r ∈ R ∧ (v = xl r ∨ v = xr r)) ∧
  (∀ v, v ∈ ys_of R ↔ ∃ r, r ∈ R ∧ (v = yb r ∨ v = yt r)) ∧
  (length (xs_of R) ≤ 2 * length R)%nat ∧
  (length (ys_of R) ≤ 2 * length R)%nat.
Proof.
  unfold xs_of, ys_of.
  destruct (compress_spec (R ≫= λ r, [xl r; xr r])) as [Hxs Hxe].
  destruct (compress_spec (R ≫= λ r, [yb r; yt r])) as [Hys Hye].
  split_and!; try done.
  - intros v. rewrite Hxe, list_elem_of_bind. split.
    + intros (r & Hv & Hr). exists r. split; [done|].
      rewrite !elem_of_cons in Hv. destruct Hv as [?|[?|Hv]]; auto.
      by apply elem_of_nil in Hv.
    + intros (r & Hr & Hv). exists r. split; [|done].
      rewrite !elem_of_cons. destruct Hv; auto.
  - intros v. rewrite Hye, list_elem_of_bind. split.
    + intros (r & Hv & Hr). exists r. split; [done|].
      rewrite !elem_of_cons in Hv. destruct Hv as [?|[?|Hv]]; auto.
      by apply elem_of_nil in Hv.
    + intros (r & Hr & Hv). exists r. split; [|done].
      rewrite !elem_of_cons. destruct Hv; auto.
  - rewrite <- (bind_pair_length xl xr). apply compress_length.
  - rewrite <- (bind_pair_length yb yt). apply compress_length.
Qed.

(** X1. Each compressed axis is strictly increasing (so free of
    duplicates), holds exactly the boundary values of the rectangles on its
    axis, and has at most 2n entries. *)
Theorem compressed_axes (R : list Rect) :
  StronglySorted Z.lt (xs_of R) ∧ StronglySorted Z.lt (ys_of R) ∧
  (∀ v, v ∈ xs_of R ↔ ∃ r, r ∈ R ∧ (v = xl r ∨ v = xr r)) ∧
  (∀ v, v ∈ ys_of R ↔ ∃ r, r ∈ R ∧ (v = yb r ∨ v = yt r)) ∧
  (length (xs_of R) ≤ 2 * length R)%nat ∧
  (length (ys_of R) ≤ 2 * length R)%nat.
Proof. exact (axes_spec R). Qed.

(** X2. Indexing loses nothing: reading the compressed axes at the four
    grid indices of a rectangle gives its four original bounds back. *)
Theorem index_rect_round_trip (R : list Rect) (r : Rect) :
  r ∈ R →
  xs_of R !! Z.to_nat (RI.xl (index_rect (xs_of R) (ys_of R) r)) = Some (xl r) ∧
  xs_of R !! Z.to_nat (RI.xr (index_rect (xs_of R) (ys_of R) r)) = Some (xr r) ∧
  ys_of R !! Z.to_nat (RI.yb (index_rect (xs_of R) (ys_of R) r)) = Some (yb r) ∧
  ys_of R !! Z.to_nat (RI.yt (index_rect (xs_of R) (ys_of R) r)) = Some (yt r).
Proof.
  intros Hr. destruct (axes_spec R) as (Hxs & Hys & Hxe & Hye & _).
  simpl. split_and!; apply lower_bound_lookup; try done.
  - apply Hxe. eauto.
  - apply Hxe. eauto.
  - apply Hye. eauto.
  - apply Hye. eauto.
Qed.

Lemma index_rect_round_trip_witness :
  mkRect 1 1 3 3 ∈ R3 ∧
  xs_of R3 !! Z.to_nat (RI.xl (index_rect (xs_of R3) (ys_of R3) (mkRect 1 1 3 3))) = Some 1 ∧
  xs_of R3 !! Z.to_nat (RI.xr (index_rect (xs_of R3) (ys_of R3) (mkRect 1 1 3 3))) = Some 3 ∧
  ys_of R3 !! Z.to_nat (RI.yb (index_rect (xs_of R3) (ys_of R3) (mkRect 1 1 3 3))) = Some 1 ∧
  ys_of R3 !! Z.to_nat (RI.yt (index_rect (xs_of R3) (ys_of R3) (mkRect 1 1 3 3))) = Some 3.
Proof.
  assert (Hr : mkRect 1 1 3 3 ∈ R3) by (right; left).
  split; [exact Hr|]. exact (index_rect_round_trip R3 (mkRect 1 1 3 3) Hr).
Defined.

(** X3. Compression keeps the order of the boundary values: for two
    values of a compressed axis, one is smaller than the other exactly when
    its index is smaller, and they are equal exactly when the indices are. *)
Theorem lower_bound_order_embedding (R : list Rect) (u v : Z) :
  u ∈ xs_of R → v ∈ xs_of R →
  (u < v ↔ lower_bound (xs_of R) u < lower_bound (xs_of R) v) ∧
  (u = v ↔ lower_bound (xs_of R) u = lower_bound (xs_of R) v).
Proof.
  intros Hu Hv. destruct (axes_spec R) as (Hxs & _).
  pose proof (lower_bound_lt (xs_of R) u v Hxs Hu) as Huv.
  pose proof (lower_bound_lt (xs_of R) v u Hxs Hv) as Hvu.
  split; split; try (intros; subst; done); intros H.
  - auto.
  - destruct (Z.lt_trichotomy u v) as [?|[->|Hgt]]; [done|lia|].
    specialize (Hvu Hgt). lia.
  - destruct (Z.lt_trichotomy u v) as [Hlt|[?|Hgt]]; [|done|].
    + specialize (Huv Hlt). lia.
    + specialize (Hvu Hgt). lia.
Qed.

Lemma lower_bound_order_embedding_witness :
  1 ∈ xs_of R3 ∧ 3 ∈ xs_of R3 ∧
  (1 < 3 ↔ lower_bound (xs_of R3) 1 < lower_bound (xs_of R3) 3) ∧
  (1 = 3 ↔ lower_bound (xs_of R3) 1 = lower_bound (xs_of R3) 3).
Proof.
  assert (H1 : 1 ∈ xs_of R3) by (vm_compute; right; left).
  assert (H3 : 3 ∈ xs_of R3) by (vm_compute; do 3 right; left).
  split; [exact H1|]. split; [exact H3|].
  exact (lower_bound_order_embedding R3 1 3 H1 H3).
Defined.

(** X4. On an instance whose rectangles all have xl < xr and yb < yt,
    every grid rectangle is non-empty (left index below right index, bottom
    below top) and lies inside the bounding window (0, X-1, 0, Y-1), which
    itself is non-degenerate. *)
Theorem indexed_rect_in_grid (R : list Rect) (r : Rect) :
  Forall valid_rect R → r ∈ R →
  RI.xl (index_rect (xs_of R) (ys_of R) r) < RI.xr (index_rect (xs_of R) (ys_of R) r) ∧
  RI.yb (index_rect (xs_of R) (ys_of R) r) < RI.yt (index_rect (xs_of R) (ys_of R) r) ∧
  0 ≤ RI.xl (index_rect (xs_of R) (ys_of R) r) ∧
  RI.xr (index_rect (xs_of R) (ys_of R) r) ≤ Z.of_nat (length (xs_of R)) - 1 ∧
  0 ≤ RI.yb (index_rect (xs_of R) (ys_of R) r) ∧
  RI.yt (index_rect (xs_of R) (ys_of R) r) ≤ Z.of_nat (length (ys_of R)) - 1 ∧
  degenerateK (root R) = false.
Proof.
  intros HR Hr. destruct (index_rect_spec R HR r Hr) as [[Hx Hy] Hin].
  apply insideK_true in Hin. simpl in Hin.
  assert (Hroot : degenerateK (root R) = false).
  { apply root_nondegenerate; [done|]. intros ->. by apply elem_of_nil in Hr. }
  simpl. split_and!; try done; lia.
Qed.

Lemma indexed_rect_in_grid_witness :
  Forall valid_rect R3 ∧ mkRect 0 2 2 4 ∈ R3 ∧
  RI.xl (index_rect (xs_of R3) (ys_of R3) (mkRect 0 2 2 4))
    < RI.xr (index_rect (xs_of R3) (ys_of R3) (mkRect 0 2 2 4)) ∧
  RI.yb (index_rect (xs_of R3) (ys_of R3) (mkRect 0 2 2 4))
    < RI.yt (index_rect (xs_of R3) (ys_of R3) (mkRect 0 2 2 4)) ∧
  0 ≤ RI.xl (index_rect (xs_of R3) (ys_of R3) (mkRect 0 2 2 4)) ∧
  RI.xr (index_rect (xs_of R3) (ys_of R3) (mkRect 0 2 2 4))
    ≤ Z.of_nat (length (xs_of R3)) - 1 ∧
  0 ≤ RI.yb (index_rect (xs_of R3) (ys_of R3) (mkRect 0 2 2 4)) ∧
  RI.yt (index_rect (xs_of R3) (ys_of R3) (mkRect 0 2 2 4))
    ≤ Z.of_nat (length (ys_of R3)) - 1 ∧
  degenerateK (root R3) = false.
Proof.
  assert (HR : Forall valid_rect R3)
    by (repeat constructor; unfold valid_rect; simpl; lia).
  assert (Hr : mkRect 0 2 2 4 ∈ R3) by (do 2 right; left).
  split; [exact HR|]. split; [exact Hr|].
  exact (indexed_rect_in_grid R3 (mkRect 0 2 2 4) HR Hr).
Defined.

(** X5. On a sorted array [lower_bound] returns the partition point: an
    index between 0 and the length such that the elements before it are
    exactly the elements smaller than the value searched.  When every
    element is smaller, it is the length (the end of the array). *)
Theorem lower_bound_partition (l : list Z) (v : Z) :
  StronglySorted Z.le l →
  0 ≤ lower_bound l v ≤ Z.of_nat (length l) ∧
  (∀ j x, l !! j = Some x → (Z.of_nat j < lower_bound l v ↔ x < v)) ∧
  (Forall (λ x, x < v) l → lower_bound l v = Z.of_nat (length l)).
Proof.
  induction l as [|x l IH]; intros Hs.
  { simpl. split_and!; [lia..|done|done]. }
  apply StronglySorted_cons in Hs as [Hx Hs]. rewrite Forall_forall in Hx.
  destruct (IH Hs) as (Hr & Hpart & Hall). simpl lower_bound.
  destruct (Z.ltb_spec x v) as [Hlt|Hge].
  - split_and!.
    + lia.
    + simpl length. lia.
    + intros [|j] y Hy; simpl in Hy.
      * injection Hy as <-. lia.
      * rewrite <- (Hpart j y Hy). lia.
    + intros [_ Hl]%Forall_cons. rewrite (Hall Hl). simpl length. lia.
  - split_and!.
    + lia.
    + simpl length. lia.
    + intros [|j] y Hy; simpl in Hy.
      * injection Hy as <-. lia.
      * assert (x ≤ y) by (apply Hx; by eapply list_elem_of_lookup_2). lia.
    + intros [? _]%Forall_cons. lia.
Qed.

Lemma lower_bound_partition_witness :
  StronglySorted Z.le [1; 3; 3; 7] ∧
  0 ≤ lower_bound [1; 3; 3; 7] 3 ≤ Z.of_nat (length [1; 3; 3; 7]) ∧
  (∀ j x, [1; 3; 3; 7] !! j = Some x →
     (Z.of_nat j < lower_bound [1; 3; 3; 7] 3 ↔ x < 3)) ∧
  (Forall (λ x, x < 3) [1; 3; 3; 7] →
     lower_bound [1; 3; 3; 7] 3 = Z.of_nat (length [1; 3; 3; 7])).
Proof.
  assert (Hs : StronglySorted Z.le [1; 3; 3; 7])
    by (repeat (constructor; [|repeat constructor; lia]); constructor).
  split; [exact Hs|]. exact (lower_bound_partition [1; 3; 3; 7] 3 Hs).
Defined.

(** ** The hash of the memo table *)

Lemma wrap64_range z : 0 ≤ wrap64 z < 2 ^ 64.
Proof. unfold wrap64. apply Z.mod_pos_bound. lia. Qed.

Lemma wrap64_int_inj a b : is_int a → is_int b → wrap64 a = wrap64 b → a = b.
Proof.
  unfold is_int, INT_MIN, INT_MAX, wrap64. intros Ha Hb Hab.
  assert (Hd : (a - b) mod 2 ^ 64 = 0).
  { rewrite Zminus_mod, Hab, Z.sub_diag. done. }
  apply Z.mod_divide in Hd; [|lia]. destruct Hd as [q Hq]. lia.
Qed.

(** Multiplying by the FNV prime is invertible modulo 2^64. *)
Lemma mul_prime_cancel x y :
  wrap64 (x * 1099511628211) = wrap64 (y * 1099511628211) → wrap64 x = wrap64 y.
Proof.
  unfold wrap64. intros H.
  assert (Hinv : ∀ z, (z * 1099511628211 mod 2 ^ 64 * 14886173955864302971) mod 2 ^ 64
                      = z mod 2 ^ 64).
  { intros z. rewrite Z.mul_mod_idemp_l by lia. rewrite <- Z.mul_assoc.
    rewrite <- Z.mul_mod_idemp_r by lia.
    replace ((1099511628211 * 14886173955864302971) mod 2 ^ 64) with 1 by reflexivity.
    by rewrite Z.mul_1_r. }
  rewrite <- (Hinv x), <- (Hinv y). by rewrite H.
Qed.

Lemma lxor_range h v :
  0 ≤ h < 2 ^ 64 → 0 ≤ v < 2 ^ 64 → 0 ≤ Z.lxor h v < 2 ^ 64.
Proof.
  intros Hh Hv. assert (H0 : 0 ≤ Z.lxor h v) by (apply Z.lxor_nonneg; lia).
  split; [done|].
  destruct (decide (Z.lxor h v = 0)) as [->|Hne]; [lia|].
  apply Z.log2_lt_pow2; [lia|].
  pose proof (Z.log2_lxor h v ltac:(lia) ltac:(lia)) as Hl.
  assert (Z.log2 h < 64).
  { destruct (decide (h = 0)) as [->|]; [done|]. apply Z.log2_lt_pow2; lia. }
  assert (Z.log2 v < 64).
  { destruct (decide (v = 0)) as [->|]; [done|]. apply Z.log2_lt_pow2; lia. }
  lia.
Qed.

Lemma mix_inj_v h v1 v2 :
  0 ≤ h < 2 ^ 64 → 0 ≤ v1 < 2 ^ 64 → 0 ≤ v2 < 2 ^ 64 →
  mix h v1 = mix h v2 → v1 = v2.
Proof.
  intros Hh H1 H2 Hm. apply mul_prime_cancel in Hm.
  unfold wrap64 in Hm.
  rewrite !Z.mod_small in Hm by by apply lxor_range.
  apply (f_equal (Z.lxor h)) in Hm.
  by rewrite <- !Z.lxor_assoc, Z.lxor_nilpotent, !Z.lxor_0_l in Hm.
Qed.

Lemma mix_inj_h h1 h2 v :
  0 ≤ h1 < 2 ^ 64 → 0 ≤ h2 < 2 ^ 64 → 0 ≤ v < 2 ^ 64 →
  mix h1 v = mix h2 v → h1 = h2.
Proof.
  intros H1 H2 Hv Hm. apply mul_prime_cancel in Hm.
  unfold wrap64 in Hm.
  rewrite !Z.mod_small in Hm by by apply lxor_range.
  apply (f_equal (λ z, Z.lxor z v)) in Hm. simpl in Hm.
  by rewrite !Z.lxor_assoc, Z.lxor_nilpotent, !Z.lxor_0_r in Hm.
Qed.

Lemma mix_range h v : 0 ≤ mix h v < 2 ^ 64.
Proof. apply wrap64_range. Qed.

Lemma KeyHash_one_field_inj (k1 k2 : Key) :
  is_int (xi k1) → is_int (xj k1) → is_int (yk k1) → is_int (yl k1) →
  is_int (xi k2) → is_int (xj k2) → is_int (yk k2) → is_int (yl k2) →
  (xj k1 = xj k2 ∧ yk k1 = yk k2 ∧ yl k1 = yl k2) ∨
  (xi k1 = xi k2 ∧ yk k1 = yk k2 ∧ yl k1 = yl k2) ∨
  (xi k1 = xi k2 ∧ xj k1 = xj k2 ∧ yl k1 = yl k2) ∨
  (xi k1 = xi k2 ∧ xj k1 = xj k2 ∧ yk k1 = yk k2) →
  KeyHash k1 = KeyHash k2 → k1 = k2.
Proof.
  destruct k1 as [a1 b1 c1 d1], k2 as [a2 b2 c2 d2]. simpl.
  intros Ha1 Hb1 Hc1 Hd1 Ha2 Hb2 Hc2 Hd2 Hsame Hh.
  unfold KeyHash in Hh. simpl in Hh.
  assert (H0 : 0 ≤ 1469598103934665603 < 2 ^ 64) by lia.
  pose proof wrap64_range as Hw. pose proof mix_range as Hm.
  destruct Hsame as [(-> & -> & ->)|[(-> & -> & ->)|[(-> & -> & ->)|(-> & -> & ->)]]].
  - do 3 (apply mix_inj_h in Hh; [|done..]).
    apply mix_inj_v in Hh; [|done..]. apply wrap64_int_inj in Hh; [|done..].
    by subst.
  - do 2 (apply mix_inj_h in Hh; [|done..]).
    apply mix_inj_v in Hh; [|done..]. apply wrap64_int_inj in Hh; [|done..].
    by subst.
  - do 1 (apply mix_inj_h in Hh; [|done..]).
    apply mix_inj_v in Hh; [|done..]. apply wrap64_int_inj in Hh; [|done..].
    by subst.
  - apply mix_inj_v in Hh; [|done..]. apply wrap64_int_inj in Hh; [|done..].
    by subst.
Qed.

(** X6. [Key::operator==] holds exactly for identical keys, [KeyHash]
    returns a 64-bit value, and two different keys of [int] fields that
    share three of their four fields never have the same hash: the windows
    one cut loop produces cannot collide. *)
Theorem KeyHash_one_field (k1 k2 : Key) :
  is_int (xi k1) → is_int (xj k1) → is_int (yk k1) → is_int (yl k1) →
  is_int (xi k2) → is_int (xj k2) → is_int (yk k2) → is_int (yl k2) →
  (Key_eqb k1 k2 = true ↔ k1 = k2) ∧
  0 ≤ KeyHash k1 < 2 ^ 64 ∧
  ((xj k1 = xj k2 ∧ yk k1 = yk k2 ∧ yl k1 = yl k2) ∨
   (xi k1 = xi k2 ∧ yk k1 = yk k2 ∧ yl k1 = yl k2) ∨
   (xi k1 = xi k2 ∧ xj k1 = xj k2 ∧ yl k1 = yl k2) ∨
   (xi k1 = xi k2 ∧ xj k1 = xj k2 ∧ yk k1 = yk k2) →
   k1 ≠ k2 → KeyHash k1 ≠ KeyHash k2).
Proof.
  intros Ha1 Hb1 Hc1 Hd1 Ha2 Hb2 Hc2 Hd2. split_and!.
  - unfold Key_eqb. rewrite !andb_true_iff, !Z.eqb_eq.
    destruct k1, k2; simpl. split; [intros (((-> & ->) & ->) & ->); done|].
    by intros [= -> -> -> ->].
  - apply mix_range.
  - apply mix_range.
  - intros Hsame Hne Hh. apply Hne. by apply KeyHash_one_field_inj.
Qed.

Lemma KeyHash_one_field_witness :
  is_int 0 ∧ is_int 1 ∧ is_int 0 ∧ is_int 4 ∧
  is_int 0 ∧ is_int 2 ∧ is_int 0 ∧ is_int 4 ∧
  (Key_eqb (mkKey 0 1 0 4) (mkKey 0 2 0 4) = true ↔ mkKey 0 1 0 4 = mkKey 0 2 0 4) ∧
  0 ≤ KeyHash (mkKey 0 1 0 4) < 2 ^ 64 ∧
  ((1 = 2 ∧ 0 = 0 ∧ 4 = 4) ∨ (0 = 0 ∧ 0 = 0 ∧ 4 = 4) ∨
   (0 = 0 ∧ 1 = 2 ∧ 4 = 4) ∨ (0 = 0 ∧ 1 = 2 ∧ 0 = 0) →
   mkKey 0 1 0 4 ≠ mkKey 0 2 0 4 →
   KeyHash (mkKey 0 1 0 4) ≠ KeyHash (mkKey 0 2 0 4)).
Proof.
  assert (Hi : ∀ z, -2 ^ 31 ≤ z ≤ 2 ^ 31 - 1 → is_int z) by (intros z Hz; exact Hz).
  assert (H0 : is_int 0) by (apply Hi; lia).
  assert (H1 : is_int 1) by (apply Hi; lia).
  assert (H2 : is_int 2) by (apply Hi; lia).
  assert (H4 : is_int 4) by (apply Hi; lia).
  split_and!; try assumption;
    apply (KeyHash_one_field (mkKey 0 1 0 4) (mkKey 0 2 0 4) H0 H1 H0 H4 H0 H2 H0 H4).
Defined.

(** ** The memoized recursion *)

(** X7. From any table that arises in a run, [solve] on any window
    returns within recursion depth width + height + 1 of the window, and the
    table it leaves behind again arises in a run. *)
Theorem solve_terminates (RIv : list RI.t) (m : gmap Key Answer) (k : Key) :
  reachable RIv m →
  ∃ a m', solveK RIv (S (size k)) k m = Some (a, m') ∧ reachable RIv m'.
Proof.
  intros Hreach.
  destruct (solve_spec RIv (S (size k)) k m ltac:(lia) (reachable_inv _ _ Hreach))
    as (a & m' & Hs & _).
  exists a, m'. split; [done|]. by eapply reachable_solve.
Qed.

Lemma solve_terminates_witness :
  reachable (RIv_of R3) ∅ ∧
  ∃ a m', solveK (RIv_of R3) (S (size (root R3))) (root R3) ∅ = Some (a, m') ∧
          reachable (RIv_of R3) m'.
Proof.
  assert (H : reachable (RIv_of R3) ∅) by constructor.
  split; [exact H|]. exact (solve_terminates (RIv_of R3) ∅ (root R3) H).
Defined.

(** X8. A call of [solve] never changes or removes an entry of the
    table: the old table is contained in the new one.  Every entry it adds
    is for a non-degenerate window that lies within the window solved; a
    degenerate window adds nothing and yields (0, none). *)
Theorem solve_only_adds_subwindows (RIv : list RI.t) (fuel : nat) (k : Key)
    (m : gmap Key Answer) (a : Answer) (m' : gmap Key Answer) :
  reachable RIv m → solveK RIv fuel k m = Some (a, m') →
  m ⊆ m' ∧
  (∀ k', m !! k' = None → is_Some (m' !! k') →
     withinK k' k ∧ degenerateK k' = false) ∧
  (degenerateK k = true → a = Answer0 ∧ m' = m).
Proof.
  intros Hreach Hs.
  destruct (solve_post_of_Some _ _ _ _ _ _ (reachable_inv _ _ Hreach) Hs)
    as (a0 & m0 & [= <- <-] & Hinv & Hsub & Hres & Hframe).
  split_and!; try done.
  - intros k' Hnone [b Hb]. split; [apply Hframe; [done|by eexists]|].
    by destruct (Hinv k' b Hb).
  - intros Hd. by rewrite Hd in Hres.
Qed.

Lemma solve_only_adds_subwindows_witness :
  reachable (RIv_of R3) ∅ ∧
  solveK (RIv_of R3) (engine_fuel R3) (root R3) ∅
    = Some (mkAnswer 2 (mkChoice 2 2), memo3) ∧
  ∅ ⊆ memo3 ∧
  (∀ k', (∅ : gmap Key Answer) !! k' = None → is_Some (memo3 !! k') →
     withinK k' (root R3) ∧ degenerateK k' = false) ∧
  (degenerateK (root R3) = true → mkAnswer 2 (mkChoice 2 2) = Answer0 ∧ memo3 = ∅).
Proof.
  assert (H : reachable (RIv_of R3) ∅) by constructor.
  assert (Hs : solveK (RIv_of R3) (engine_fuel R3) (root R3) ∅
               = Some (mkAnswer 2 (mkChoice 2 2), memo3))
    by exact R3_solve_root.
  split; [exact H|]. split; [exact Hs|].
  exact (solve_only_adds_subwindows (RIv_of R3) _ _ _ _ _ H Hs).
Defined.

(** A window that has an entry is answered from the table. *)
Lemma solve_hit (RIv : list RI.t) (fuel : nat) (k : Key) (m : gmap Key Answer)
    (a : Answer) :
  degenerateK k = false → m !! k = Some a → solveK RIv (S fuel) k m = Some (a, m).
Proof.
  intros Hd Hk. unfold solveK, on_key. simpl. fold (degenerateK k). rewrite Hd.
  replace (mkKey (xi k) (xj k) (yk k) (yl k)) with k by (by destruct k).
  by rewrite Hk.
Qed.

(** X9. Asking again is free: once [solve] has returned for a window, a
    second call on the same window, with any positive fuel, returns the same
    answer and leaves the table as it is. *)
Theorem solve_requery (RIv : list RI.t) (fuel fuel' : nat) (k : Key)
    (m : gmap Key Answer) (a : Answer) (m' : gmap Key Answer) :
  reachable RIv m → solveK RIv fuel k m = Some (a, m') →
  solveK RIv (S fuel') k m' = Some (a, m').
Proof.
  intros Hreach Hs.
  destruct (solve_post_of_Some _ _ _ _ _ _ (reachable_inv _ _ Hreach) Hs)
    as (a0 & m0 & [= <- <-] & Hinv & Hsub & Hres & Hframe).
  unfold solveK, on_key. simpl. fold (degenerateK k).
  destruct (degenerateK k); [by destruct Hres as [-> _]|].
  replace (mkKey (xi k) (xj k) (yk k) (yl k)) with k by (by destruct k).
  by rewrite Hres.
Qed.

Lemma solve_requery_witness :
  reachable (RIv_of R3) ∅ ∧
  solveK (RIv_of R3) (engine_fuel R3) (root R3) ∅
    = Some (mkAnswer 2 (mkChoice 2 2), memo3) ∧
  solveK (RIv_of R3) 1 (root R3) memo3 = Some (mkAnswer 2 (mkChoice 2 2), memo3).
Proof.
  assert (H : reachable (RIv_of R3) ∅) by constructor.
  assert (Hs : solveK (RIv_of R3) (engine_fuel R3) (root R3) ∅
               = Some (mkAnswer 2 (mkChoice 2 2), memo3))
    by exact R3_solve_root.
  split; [exact H|]. split; [exact Hs|].
  exact (solve_requery (RIv_of R3) _ 0 _ _ _ _ H Hs).
Defined.

Lemma earliest_max_unique (l : list Answer) (a b : Answer) :
  earliest_max l a → earliest_max l b → a = b.
Proof.
  intros (pre1 & post1 & -> & Hpre1 & Hpost1) (pre2 & post2 & Heq & Hpre2 & Hpost2).
  rewrite Forall_forall in Hpre1, Hpost1, Hpre2, Hpost2.
  assert (Ha : (pre1 ++ a :: post1) !! length pre1 = Some a)
    by by rewrite list_lookup_middle.
  assert (Hb : (pre1 ++ a :: post1) !! length pre2 = Some b)
    by by rewrite Heq, list_lookup_middle.
  destruct (lt_eq_lt_dec (length pre1) (length pre2)) as [[Hlt|Heql]|Hgt].
  - exfalso.
    assert (a ∈ pre2).
    { rewrite Heq in Ha. rewrite lookup_app_l in Ha by done.
      by eapply list_elem_of_lookup_2. }
    assert (b ∈ post1).
    { rewrite lookup_app_r in Hb by lia.
      destruct (length pre2 - length pre1)%nat as [|j] eqn:Hj; [lia|].
      simpl in Hb. by eapply list_elem_of_lookup_2. }
    specialize (Hpre2 a ltac:(done)). specialize (Hpost1 b ltac:(done)). lia.
  - rewrite Heql in Ha. congruence.
  - exfalso.
    assert (b ∈ pre1).
    { rewrite lookup_app_l in Hb by done. by eapply list_elem_of_lookup_2. }
    assert (a ∈ post2).
    { rewrite Heq in Ha. rewrite lookup_app_r in Ha by lia.
      destruct (length pre1 - length pre2)%nat as [|j] eqn:Hj; [lia|].
      simpl in Ha. by eapply list_elem_of_lookup_2. }
    specialize (Hpre1 b ltac:(done)). specialize (Hpost2 a ltac:(done)). lia.
Qed.

(** What a table holds for a window depends on the window alone. *)
Lemma entry_unique (RIv : list RI.t) (m1 m2 : gmap Key Answer) :
  memo_inv RIv m1 → memo_inv RIv m2 →
  ∀ sz k a1 a2, (size k < sz)%nat →
    m1 !! k = Some a1 → m2 !! k = Some a2 → a1 = a2.
Proof.
  intros Hinv1 Hinv2. induction sz as [|sz IH]; intros k a1 a2 Hsz H1 H2; [lia|].
  destruct (Hinv1 k a1 H1) as [Hd Hok1]. destruct (Hinv2 k a2 H2) as [_ Hok2].
  destruct (hasRectK RIv k); [|by subst].
  destruct Hok1 as (Hmax1 & Hv1 & Hh1). destruct Hok2 as (Hmax2 & Hv2 & Hh2).
  assert (Hsv : ∀ k', (size k' < size k)%nat → is_Some (m1 !! k') → is_Some (m2 !! k') →
            stored_val m1 k' = stored_val m2 k').
  { intros k' Hk' [b1 Hb1] [b2 Hb2]. unfold stored_val. rewrite Hb1, Hb2.
    f_equal. apply (IH k'); [lia|done..]. }
  assert (Hc : candidates RIv m1 k = candidates RIv m2 k).
  { unfold candidates, vcut_cands, hcut_cands. f_equal. f_equal.
    - apply list_fmap_ext. intros i c Hc%list_elem_of_lookup_2%elem_of_seqZ.
      destruct (cut_subwindows k c Hd) as [Hcv _].
      destruct Hcv as (_ & _ & HsL & HsR); [lia|].
      destruct (Hv1 c) as [? ?]; [lia|]. destruct (Hv2 c) as [? ?]; [lia|].
      unfold cut_cand. by rewrite !Hsv.
    - apply list_fmap_ext. intros i c Hc%list_elem_of_lookup_2%elem_of_seqZ.
      destruct (cut_subwindows k c Hd) as [_ Hch].
      destruct Hch as (_ & _ & HsB & HsT); [lia|].
      destruct (Hh1 c) as [? ?]; [lia|]. destruct (Hh2 c) as [? ?]; [lia|].
      unfold cut_cand. by rewrite !Hsv. }
  rewrite Hc in Hmax1. by eapply earliest_max_unique.
Qed.

(** X10. The answer for a window does not depend on what the table held
    when [solve] was called: two calls on the same window, from any two
    tables that arise in a run and with any fuel, return the same value and
    the same choice. *)
Theorem solve_answer_independent_of_table (RIv : list RI.t) (k : Key)
    (f1 f2 : nat) (m1 m2 : gmap Key Answer)
    (a1 a2 : Answer) (m1' m2' : gmap Key Answer) :
  reachable RIv m1 → reachable RIv m2 →
  solveK RIv f1 k m1 = Some (a1, m1') → solveK RIv f2 k m2 = Some (a2, m2') →
  a1 = a2.
Proof.
  intros Hr1 Hr2 Hs1 Hs2.
  destruct (solve_post_of_Some _ _ _ _ _ _ (reachable_inv _ _ Hr1) Hs1)
    as (? & ? & [= <- <-] & Hinv1 & _ & Hres1 & _).
  destruct (solve_post_of_Some _ _ _ _ _ _ (reachable_inv _ _ Hr2) Hs2)
    as (? & ? & [= <- <-] & Hinv2 & _ & Hres2 & _).
  destruct (degenerateK k).
  - destruct Hres1 as [-> _], Hres2 as [-> _]. done.
  - apply (entry_unique RIv m1' m2' Hinv1 Hinv2 (S (size k)) k a1 a2); [lia|done..].
Qed.

Lemma solve_answer_independent_of_table_witness :
  reachable (RIv_of R3) ∅ ∧ reachable (RIv_of R3) memo3 ∧
  solveK (RIv_of R3) (engine_fuel R3) (root R3) ∅
    = Some (mkAnswer 2 (mkChoice 2 2), memo3) ∧
  solveK (RIv_of R3) 1 (root R3) memo3 = Some (mkAnswer 2 (mkChoice 2 2), memo3) ∧
  mkAnswer 2 (mkChoice 2 2) = mkAnswer 2 (mkChoice 2 2).
Proof.
  assert (H1 : reachable (RIv_of R3) ∅) by constructor.
  assert (Hs1 : solveK (RIv_of R3) (engine_fuel R3) (root R3) ∅
                = Some (mkAnswer 2 (mkChoice 2 2), memo3))
    by exact R3_solve_root.
  assert (H2 : reachable (RIv_of R3) memo3)
    by (eapply reachable_solve; [exact H1|exact Hs1]).
  assert (Hs2 : solveK (RIv_of R3) 1 (root R3) memo3
                = Some (mkAnswer 2 (mkChoice 2 2), memo3))
    by (apply solve_hit; vm_compute; reflexivity).
  split_and!; try assumption.
  exact (solve_answer_independent_of_table _ _ _ _ _ _ _ _ _ _ H1 H2 Hs1 Hs2).
Defined.

(** X11. On a valid instance, a stored value is 0 exactly when no
    rectangle lies fully inside the window, and exactly then the stored
    choice is none (type 0, param -1); otherwise the choice is a leaf, a
    vertical cut or a horizontal cut (type 1, 2 or 3). *)
Theorem zero_value_iff_empty_window (R : list Rect) (m : gmap Key Answer)
    (k : Key) (a : Answer) :
  Forall valid_rect R → reachable (RIv_of R) m → m !! k = Some a →
  (val a = 0 ↔ hasRectK (RIv_of R) k = false) ∧
  (val a = 0 ↔ ch a = Choice0) ∧
  (val a ≠ 0 → type (ch a) = 1 ∨ type (ch a) = 2 ∨ type (ch a) = 3).
Proof.
  intros HR Hinv%reachable_inv Hk.
  destruct (Hinv k a Hk) as [_ Hok].
  destruct (hasRectK (RIv_of R) k) eqn:Hw.
  - pose proof (val_lower _ (RIv_of_valid R HR) m Hinv (S (size k)) k a
                  ltac:(lia) Hk Hw) as Hpos.
    destruct (entry_cases _ m k a Hinv Hk) as [_ Hc].
    destruct Hc as [->|[(rid & -> & _)|[(c & L & Rw & -> & _)|(c & B & T & -> & _)]]];
      simpl in *; try lia;
      (split_and!; [split; [lia|done]|split; [lia|done]|auto]).
  - subst a. simpl. split_and!; try done.
Qed.

Lemma zero_value_iff_empty_window_witness :
  Forall valid_rect R3 ∧ reachable (RIv_of R3) memo3 ∧
  memo3 !! mkKey 2 3 0 4 = Some Answer0 ∧
  (val Answer0 = 0 ↔ hasRectK (RIv_of R3) (mkKey 2 3 0 4) = false) ∧
  (val Answer0 = 0 ↔ ch Answer0 = Choice0) ∧
  (val Answer0 ≠ 0 →
     type (ch Answer0) = 1 ∨ type (ch Answer0) = 2 ∨ type (ch Answer0) = 3).
Proof.
  assert (HR : Forall valid_rect R3)
    by (repeat constructor; unfold valid_rect; simpl; lia).
  assert (Hreach : reachable (RIv_of R3) memo3).
  { apply (reachable_solve _ (engine_fuel R3) (root R3) ∅
             (mkAnswer 2 (mkChoice 2 2)) memo3); [constructor|].
    exact R3_solve_root. }
  assert (Hk : memo3 !! mkKey 2 3 0 4 = Some Answer0) by (vm_compute; reflexivity).
  split; [exact HR|]. split; [exact Hreach|]. split; [exact Hk|].
  exact (zero_value_iff_empty_window R3 memo3 (mkKey 2 3 0 4) Answer0 HR Hreach Hk).
Defined.

(** X12. On a valid instance, the value stored for a window never exceeds
    the number of rectangles that lie fully inside that window. *)
Theorem value_at_most_rects_inside (R : list Rect) (m : gmap Key Answer)
    (k : Key) (a : Answer) :
  Forall valid_rect R → reachable (RIv_of R) m → m !! k = Some a →
  val a ≤ count_inside (RIv_of R) k.
Proof.
  intros HR Hinv%reachable_inv Hk.
  by apply (val_upper _ (RIv_of_valid R HR) m Hinv (S (size k)) k a); [lia|].
Qed.

Lemma value_at_most_rects_inside_witness :
  Forall valid_rect R3 ∧ reachable (RIv_of R3) memo3 ∧
  memo3 !! mkKey 0 3 1 4 = Some (mkAnswer 1 (mkChoice 2 1)) ∧
  1 ≤ count_inside (RIv_of R3) (mkKey 0 3 1 4).
Proof.
  assert (HR : Forall valid_rect R3)
    by (repeat constructor; unfold valid_rect; simpl; lia).
  assert (Hreach : reachable (RIv_of R3) memo3).
  { apply (reachable_solve _ (engine_fuel R3) (root R3) ∅
             (mkAnswer 2 (mkChoice 2 2)) memo3); [constructor|].
    exact R3_solve_root. }
  assert (Hk : memo3 !! mkKey 0 3 1 4 = Some (mkAnswer 1 (mkChoice 2 1)))
    by (vm_compute; reflexivity).
  split; [exact HR|]. split; [exact Hreach|]. split; [exact Hk|].
  exact (value_at_most_rects_inside R3 memo3 (mkKey 0 3 1 4) _ HR Hreach Hk).
Defined.

(** ** Optimality among guillotine-separable selections *)

Lemma hasRectK_within (RIv : list RI.t) (k k' : Key) :
  withinK k k' → hasRectK RIv k = true → hasRectK RIv k' = true.
Proof.
  intros Hw (q & Hq & Hin)%hasRectK_true. apply hasRectK_true.
  exists q. split; [done|]. apply insideK_true. apply insideK_true in Hin.
  unfold withinK in Hw. lia.
Qed.

Lemma gsep_inside (RIv : list RI.t) (k : Key) (S : list Z) :
  gsep RIv k S →
  ∀ rid, rid ∈ S → ∃ q, 0 ≤ rid ∧ RIv !! Z.to_nat rid = Some q ∧ insideK q k = true.
Proof.
  induction 1 as [k|k rid q H0 Hq Hin|k c S1 S2 Hc _ IH1 _ IH2|k c S1 S2 Hc _ IH1 _ IH2];
    intros r Hr.
  - by apply elem_of_nil in Hr.
  - apply list_elem_of_singleton in Hr as ->. eauto.
  - apply elem_of_app in Hr as [Hr|Hr];
      [destruct (IH1 r Hr) as (q & ? & ? & Hin)|destruct (IH2 r Hr) as (q & ? & ? & Hin)];
      exists q; split_and!; try done;
      apply insideK_true; apply insideK_true in Hin; simpl in Hin; lia.
  - apply elem_of_app in Hr as [Hr|Hr];
      [destruct (IH1 r Hr) as (q & ? & ? & Hin)|destruct (IH2 r Hr) as (q & ? & ? & Hin)];
      exists q; split_and!; try done;
      apply insideK_true; apply insideK_true in Hin; simpl in Hin; lia.
Qed.

(** A separable selection is separable in every larger window. *)
Lemma gsep_within (RIv : list RI.t) (k : Key) (S : list Z) :
  gsep RIv k S → ∀ k', withinK k k' → gsep RIv k' S.
Proof.
  induction 1 as [k|k rid q H0 Hq Hin|k c S1 S2 Hc _ IH1 _ IH2|k c S1 S2 Hc _ IH1 _ IH2];
    intros k' Hw.
  - constructor.
  - apply (gsep_one _ _ _ q); try done.
    apply insideK_true. apply insideK_true in Hin. unfold withinK in Hw. lia.
  - unfold withinK in Hw. apply (gsep_vcut _ _ c); [lia|..].
    + apply IH1. unfold withinK. simpl. lia.
    + apply IH2. unfold withinK. simpl. lia.
  - unfold withinK in Hw. apply (gsep_hcut _ _ c); [lia|..].
    + apply IH1. unfold withinK. simpl. lia.
    + apply IH2. unfold withinK. simpl. lia.
Qed.

Section Optimal.
Variable RIv : list RI.t.
Hypothesis Hvalid : Forall RI_valid RIv.
Variable m : gmap Key Answer.
Hypothesis Hinv : memo_inv RIv m.

(** No separable selection inside a memoized window is larger than the
    stored value. *)
Lemma gsep_bound (k : Key) (S : list Z) :
  gsep RIv k S → ∀ a, m !! k = Some a → Z.of_nat (length S) ≤ val a.
Proof.
  induction 1 as [k|k rid q H0 Hq Hin|k c S1 S2 Hc Hg1 IH1 Hg2 IH2
                  |k c S1 S2 Hc Hg1 IH1 Hg2 IH2]; intros a Hk.
  - simpl. by eapply val_nonneg.
  - simpl. apply (val_lower RIv Hvalid m Hinv (S (size k)) k a); [lia|done|].
    apply hasRectK_true. exists q. split; [by eapply list_elem_of_lookup_2|done].
  - rewrite length_app, Nat2Z.inj_add.
    destruct (Hinv k a Hk) as [Hd Hok].
    destruct (hasRectK RIv k) eqn:Hw.
    + destruct Hok as (Hmax & Hv & _). destruct (Hv c Hc) as [[L HL] [Rw HR]].
      specialize (IH1 L HL). specialize (IH2 Rw HR).
      assert (val L + val Rw ≤ val a); [|lia].
      apply (earliest_max_ge _ _ (cut_cand m 2 (vL k) (vR k) c)) in Hmax.
      * unfold cut_cand, stored_val in Hmax. simpl in Hmax. by rewrite HL, HR in Hmax.
      * right. unfold candidates, vcut_cands. apply elem_of_app; right.
        apply elem_of_app; left. apply list_elem_of_fmap. exists c.
        split; [done|]. apply elem_of_seqZ. lia.
    + assert (Hempty : ∀ S' k', gsep RIv k' S' → withinK k' k → S' = []).
      { intros S' k' Hg Hwk. destruct S' as [|r S']; [done|exfalso].
        destruct (gsep_inside RIv k' _ Hg r) as (q & _ & Hq & Hin); [left|].
        assert (hasRectK RIv k = true); [|congruence].
        apply (hasRectK_within RIv k' k Hwk). apply hasRectK_true.
        exists q. split; [by eapply list_elem_of_lookup_2|done]. }
      rewrite (Hempty S1 (vL k c)), (Hempty S2 (vR k c)); try done;
        [simpl; by subst|unfold withinK; simpl; lia..].
  - rewrite length_app, Nat2Z.inj_add.
    destruct (Hinv k a Hk) as [Hd Hok].
    destruct (hasRectK RIv k) eqn:Hw.
    + destruct Hok as (Hmax & _ & Hh). destruct (Hh c Hc) as [[B HB] [T HT]].
      specialize (IH1 B HB). specialize (IH2 T HT).
      assert (val B + val T ≤ val a); [|lia].
      apply (earliest_max_ge _ _ (cut_cand m 3 (hB k) (hT k) c)) in Hmax.
      * unfold cut_cand, stored_val in Hmax. simpl in Hmax. by rewrite HB, HT in Hmax.
      * right. unfold candidates, hcut_cands. apply elem_of_app; right.
        apply elem_of_app; right. apply list_elem_of_fmap. exists c.
        split; [done|]. apply elem_of_seqZ. lia.
    + assert (Hempty : ∀ S' k', gsep RIv k' S' → withinK k' k → S' = []).
      { intros S' k' Hg Hwk. destruct S' as [|r S']; [done|exfalso].
        destruct (gsep_inside RIv k' _ Hg r) as (q & _ & Hq & Hin); [left|].
        assert (hasRectK RIv k = true); [|congruence].
        apply (hasRectK_within RIv k' k Hwk). apply hasRectK_true.
        exists q. split; [by eapply list_elem_of_lookup_2|done]. }
      rewrite (Hempty S1 (hB k c)), (Hempty S2 (hT k c)); try done;
        [simpl; by subst|unfold withinK; simpl; lia..].
Qed.

(** Reconstruction returns a separable selection of the stored size. *)
Lemma recon_gsep :
  ∀ fuel k a chosen, (size k < fuel)%nat → m !! k = Some a →
    ∃ ids, on_key (recon fuel m) k chosen = Some (chosen ++ ids) ∧
           Z.of_nat (length ids) = val a ∧ gsep RIv k ids.
Proof.
  induction fuel as [|fuel IH]; intros k a chosen Hsz Hk; [lia|].
  destruct (entry_cases RIv m k a Hinv Hk) as [Hd Hcase].
  assert (Hkk : mkKey (xi k) (xj k) (yk k) (yl k) = k) by by destruct k.
  unfold on_key. simpl. rewrite Hkk, Hk.
  destruct Hcase as [->|[(rid & -> & Hrid & Hex)|[(c & L & Rw & Ha & Hc & HL & HR)|
                         (c & B & T & Ha & Hc & HB & HT)]]].
  - exists []. simpl. rewrite app_nil_r. split_and!; try done. constructor.
  - exists [rid]. simpl. split_and!; try done.
    apply exactMatch_true in Hex as (q & Hq & ->).
    apply (gsep_one _ _ _ q); [lia|done|]. apply insideK_true. simpl. lia.
  - pose proof (cut_entry_pos RIv Hvalid m k a Hinv Hk) as Hpos.
    rewrite Ha in Hpos |- *. simpl in *.
    destruct (Z.eqb_spec (val L + val Rw) 0) as [H0|_];
      [specialize (Hpos ltac:(done)); lia|].
    destruct (cut_subwindows k c Hd) as [Hv _].
    destruct (Hv Hc) as (_ & _ & HsL & HsR).
    destruct (IH (vL k c) L chosen ltac:(lia) HL) as (ids1 & Hr1 & Hlen1 & Hg1).
    destruct (IH (vR k c) Rw (chosen ++ ids1) ltac:(lia) HR) as (ids2 & Hr2 & Hlen2 & Hg2).
    unfold on_key in Hr1, Hr2. simpl in Hr1, Hr2. rewrite Hr1. simpl. rewrite Hr2.
    exists (ids1 ++ ids2). split; [by rewrite app_assoc|].
    split; [rewrite length_app; lia|]. by apply (gsep_vcut _ _ c).
  - pose proof (cut_entry_pos RIv Hvalid m k a Hinv Hk) as Hpos.
    rewrite Ha in Hpos |- *. simpl in *.
    destruct (Z.eqb_spec (val B + val T) 0) as [H0|_];
      [specialize (Hpos ltac:(done)); lia|].
    destruct (cut_subwindows k c Hd) as [_ Hh].
    destruct (Hh Hc) as (_ & _ & HsB & HsT).
    destruct (IH (hB k c) B chosen ltac:(lia) HB) as (ids1 & Hr1 & Hlen1 & Hg1).
    destruct (IH (hT k c) T (chosen ++ ids1) ltac:(lia) HT) as (ids2 & Hr2 & Hlen2 & Hg2).
    unfold on_key in Hr1, Hr2. simpl in Hr1, Hr2. rewrite Hr1. simpl. rewrite Hr2.
    exists (ids1 ++ ids2). split; [by rewrite app_assoc|].
    split; [rewrite length_app; lia|]. by apply (gsep_hcut _ _ c).
Qed.
End Optimal.

(** X13. The engine is optimal among guillotine-separable selections: on
    a valid instance the reconstructed ids form a selection that cuts along
    grid lines isolate inside the bounding window, their number is the value
    returned, and no separable selection inside the bounding window has more
    rectangles. *)
Theorem engine_optimal (R : list Rect) :
  Forall valid_rect R → R ≠ [] →
  ∃ ans chosen,
    engine R = Some (ans, chosen) ∧
    gsep (RIv_of R) (root R) chosen ∧
    Z.of_nat (length chosen) = val ans ∧
    ∀ S, gsep (RIv_of R) (root R) S → Z.of_nat (length S) ≤ val ans.
Proof.
  intros HR Hne.
  destruct (solve_root_spec R HR Hne) as (ans & memo & Hs & Hreach & Hinv & Hroot).
  destruct (recon_gsep _ (RIv_of_valid R HR) memo Hinv (engine_fuel R) (root R) ans [])
    as (ids & Hrec & Hlen & Hg); [unfold engine_fuel; lia|done|].
  exists ans, ids. split_and!; try done.
  - unfold engine, engine_with. rewrite Hs. simpl.
    unfold recon_root. rewrite Hrec. done.
  - intros S HS. by apply (gsep_bound _ (RIv_of_valid R HR) memo Hinv (root R) S).
Qed.

Lemma engine_optimal_witness :
  Forall valid_rect R3 ∧ R3 ≠ [] ∧
  ∃ ans chosen,
    engine R3 = Some (ans, chosen) ∧
    gsep (RIv_of R3) (root R3) chosen ∧
    Z.of_nat (length chosen) = val ans ∧
    ∀ S, gsep (RIv_of R3) (root R3) S → Z.of_nat (length S) ≤ val ans.
Proof.
  assert (HR : Forall valid_rect R3)
    by (repeat constructor; unfold valid_rect; simpl; lia).
  assert (Hne : R3 ≠ []) by discriminate.
  split; [exact HR|]. split; [exact Hne|]. exact (engine_optimal R3 HR Hne).
Defined.

(** X14. The value of a window never decreases when the window grows: on
    a valid instance, if one memoized window lies within another, the value
    stored for the inner one is at most the value stored for the outer
    one. *)
Theorem value_monotone_in_window (R : list Rect) (m : gmap Key Answer)
    (k k' : Key) (a a' : Answer) :
  Forall valid_rect R → reachable (RIv_of R) m →
  m !! k = Some a → m !! k' = Some a' → withinK k k' →
  val a ≤ val a'.
Proof.
  intros HR Hinv%reachable_inv Hk Hk' Hw.
  destruct (recon_gsep _ (RIv_of_valid R HR) m Hinv (S (size k)) k a [])
    as (ids & _ & Hlen & Hg); [lia|done|].
  rewrite <- Hlen.
  apply (gsep_bound _ (RIv_of_valid R HR) m Hinv k'); [|done].
  by apply (gsep_within _ k).
Qed.

Lemma value_monotone_in_window_witness :
  Forall valid_rect R3 ∧ reachable (RIv_of R3) memo3 ∧
  memo3 !! mkKey 0 2 0 2 = Some (mkAnswer 1 (mkChoice 1 0)) ∧
  memo3 !! mkKey 0 2 0 4 = Some (mkAnswer 2 (mkChoice 3 2)) ∧
  withinK (mkKey 0 2 0 2) (mkKey 0 2 0 4) ∧
  1 ≤ 2.
Proof.
  assert (HR : Forall valid_rect R3)
    by (repeat constructor; unfold valid_rect; simpl; lia).
  assert (Hreach : reachable (RIv_of R3) memo3).
  { apply (reachable_solve _ (engine_fuel R3) (root R3) ∅
             (mkAnswer 2 (mkChoice 2 2)) memo3); [constructor|].
    exact R3_solve_root. }
  assert (H1 : memo3 !! mkKey 0 2 0 2 = Some (mkAnswer 1 (mkChoice 1 0)))
    by (vm_compute; reflexivity).
  assert (H2 : memo3 !! mkKey 0 2 0 4 = Some (mkAnswer 2 (mkChoice 3 2)))
    by (vm_compute; reflexivity).
  assert (Hw : withinK (mkKey 0 2 0 2) (mkKey 0 2 0 4))
    by (unfold withinK; simpl; lia).
  split_and!; try assumption.
  exact (value_monotone_in_window R3 memo3 _ _ _ _ HR Hreach H1 H2 Hw).
Defined.

Lemma separated_NoDup (RIv : list RI.t) (ids : list Z) :
  Forall RI_valid RIv → separated RIv ids → NoDup ids.
Proof.
  intros Hv Hsep. rewrite Forall_forall in Hv.
  apply NoDup_alt. intros i j rid Hi Hj.
  assert (Hlt : ∀ i j, (i < j)%nat → ids !! i = Some rid → ids !! j = Some rid → False).
  { intros i' j' Hij Hi' Hj'.
    destruct (Hsep i' j' rid rid Hij Hi' Hj') as (p & q & Hp & Hq & Hd).
    assert (p = q) by congruence. subst q.
    destruct (Hv p) as [Hx Hy]; [by eapply list_elem_of_lookup_2|].
    unfold grid_disjoint in Hd. lia. }
  destruct (lt_eq_lt_dec i j) as [[Hij|Heq]|Hji]; [|done|].
  - destruct (Hlt i j Hij Hi Hj).
  - destruct (Hlt j i Hji Hj Hi).
Qed.

(** X15. On a valid instance no rectangle is reported twice and every
    reported id is the index of an input rectangle. *)
Theorem chosen_ids_distinct (R : list Rect) :
  Forall valid_rect R → R ≠ [] →
  ∃ ans chosen,
    engine R = Some (ans, chosen) ∧ NoDup chosen ∧
    ∀ rid, rid ∈ chosen → 0 ≤ rid < Z.of_nat (length R).
Proof.
  intros HR Hne.
  destruct (engine_spec R HR Hne)
    as (ans & memo & chosen & visited & _ & _ & _ & _ & _ & He & _ & _ & _ & Hids & Hsep).
  exists ans, chosen. split_and!; try done.
  - by apply (separated_NoDup (RIv_of R)); [apply RIv_of_valid|].
  - intros rid Hrid. destruct (Hids rid Hrid) as (_ & _ & _ & Hr & _).
    by rewrite RIv_of_n in Hr.
Qed.

Lemma chosen_ids_distinct_witness :
  Forall valid_rect R3 ∧ R3 ≠ [] ∧
  ∃ ans chosen,
    engine R3 = Some (ans, chosen) ∧ NoDup chosen ∧
    ∀ rid, rid ∈ chosen → 0 ≤ rid < Z.of_nat (length R3).
Proof.
  assert (HR : Forall valid_rect R3)
    by (repeat constructor; unfold valid_rect; simpl; lia).
  assert (Hne : R3 ≠ []) by discriminate.
  split; [exact HR|]. split; [exact Hne|]. exact (chosen_ids_distinct R3 HR Hne).
Defined.


(** ** Input and output of the program *)

Lemma print_lines_spec (R : list Rect) :
  ∀ chosen lines, print_lines R chosen = Some lines →
    lines.*1 = chosen ∧
    ∀ rid r, (rid, r) ∈ lines → 0 ≤ rid ∧ R !! Z.to_nat rid = Some r.
Proof.
  unfold print_lines. induction chosen as [|rid chosen IH]; intros lines; simpl.
  - intros [= <-]. split; [done|]. intros ?? Hin. by apply elem_of_nil in Hin.
  - destruct (Z.ltb_spec rid 0) as [|H0]; [done|].
    destruct (R !! Z.to_nat rid) as [r|] eqn:Hr; [|done]. simpl.
    destruct (mapM _ chosen) as [ls|]; [|done]. simpl. intros [= <-].
    destruct (IH ls eq_refl) as [Hfst Hall]. split; [simpl; by f_equal|].
    intros rid' r' [[= -> ->]|Hin]%elem_of_cons; [done|by apply Hall].
Qed.

(** X16. Whenever the program prints a solution, the count on its first
    line is the number of rectangle lines that follow and is at least 1, no
    id is printed twice, and every line shows an id of the input together
    with that rectangle's original bounds. *)
Theorem main_output_consistent (input : string) (count : Z) (lines : list (Z * Rect)) :
  main input = Some (Exit0 count lines) →
  count = Z.of_nat (length lines) ∧ 1 ≤ count ∧ NoDup lines.*1 ∧
  ∃ R, read_input (String.list_ascii_of_string input) = inr R ∧
       count ≤ Z.of_nat (length R) ∧
       ∀ rid r, (rid, r) ∈ lines → 0 ≤ rid ∧ R !! Z.to_nat rid = Some r.
Proof.
  unfold main.
  pose proof (read_input_spec (String.list_ascii_of_string input)) as Hspec.
  destruct (read_input _) as [d|R]; [done|].
  destruct Hspec as (_ & _ & _ & Hne & _ & HR).
  destruct (engine_spec R HR Hne)
    as (ans & memo & chosen & visited & _ & Hreach & Hroot & _ & _ & He & Hlen & _ & _ & Hids & Hsep).
  rewrite He. unfold report. simpl.
  destruct (print_lines R chosen) as [ls|] eqn:Hp; [|done]. simpl.
  intros [= <- <-]. destruct (print_lines_spec R chosen ls Hp) as [Hfst Hall].
  pose proof (reachable_inv _ _ Hreach) as Hinv.
  pose proof (RIv_of_valid R HR) as Hv.
  split_and!.
  - rewrite <- Hlen, <- Hfst. by rewrite length_fmap.
  - apply (val_lower _ Hv memo Hinv (S (size (root R))) (root R) ans); [lia|done|].
    by apply root_hasRect.
  - rewrite Hfst. by apply (separated_NoDup (RIv_of R)).
  - exists R. split_and!; try done.
    pose proof (val_upper _ Hv memo Hinv (S (size (root R))) (root R) ans
                  ltac:(lia) Hroot).
    pose proof (count_inside_bounds (RIv_of R) (root R)). rewrite RIv_of_n in *. lia.
Qed.

Lemma main_output_consistent_witness :
  main "3 0 0 2 2 1 1 3 3 0 2 2 4"
    = Some (Exit0 2 [(0, mkRect 0 0 2 2); (2, mkRect 0 2 2 4)]) ∧
  2 = Z.of_nat (length [(0, mkRect 0 0 2 2); (2, mkRect 0 2 2 4)]) ∧ 1 ≤ 2 ∧
  NoDup [(0, mkRect 0 0 2 2); (2, mkRect 0 2 2 4)].*1 ∧
  ∃ R, read_input (String.list_ascii_of_string "3 0 0 2 2 1 1 3 3 0 2 2 4") = inr R ∧
       2 ≤ Z.of_nat (length R) ∧
       ∀ rid r, (rid, r) ∈ [(0, mkRect 0 0 2 2); (2, mkRect 0 2 2 4)] →
                0 ≤ rid ∧ R !! Z.to_nat rid = Some r.
Proof.
  assert (H : main "3 0 0 2 2 1 1 3 3 0 2 2 4"
              = Some (Exit0 2 [(0, mkRect 0 0 2 2); (2, mkRect 0 2 2 4)]))
    by (vm_compute; reflexivity).
  split; [exact H|]. exact (main_output_consistent _ _ _ H).
Defined.

Lemma list_ascii_of_string_app (a b : string) :
  String.list_ascii_of_string (a +:+ b)
  = String.list_ascii_of_string a ++ String.list_ascii_of_string b.
Proof. induction a as [|c a IH]; simpl; [done|]. by rewrite IH. Qed.

Lemma field_app lo hi s v rest t :
  field lo hi s v rest → head t ≫= digit = None →
  field lo hi (s ++ t) v (rest ++ t).
Proof.
  intros (ws & sg & ds & -> & Hws & Hsg & Hne & Hds & Hrest & Hv & Hrange) Ht.
  exists ws, sg, ds.
  split; [by rewrite <- !app_assoc|]. split; [done|]. split; [done|].
  split; [done|]. split; [done|]. split; [|done].
  destruct rest; [done|exact Hrest].
Qed.

Lemma records_app s R rest t :
  records s R rest → head t ≫= digit = None → records (s ++ t) R (rest ++ t).
Proof.
  induction 1 as [s|s r s1 R s2 (u1 & u2 & u3 & Ha & Hb & Hc & Hd) _ IH]; intros Ht.
  - constructor.
  - apply (records_cons _ r (s1 ++ t)); [|by apply IH].
    exists (u1 ++ t), (u2 ++ t), (u3 ++ t). split_and!; by apply field_app.
Qed.

(** X17. What follows the last record is never looked at: when the
    program prints a solution for an input, it prints the same solution for
    that input followed by white space and any further text. *)
Theorem trailing_text_ignored (input extra : string) (count : Z)
    (lines : list (Z * Rect)) :
  main input = Some (Exit0 count lines) →
  main (input +:+ " " +:+ extra) = Some (Exit0 count lines).
Proof.
  unfold main. rewrite !list_ascii_of_string_app.
  pose proof (read_input_spec (String.list_ascii_of_string input)) as Hspec.
  destruct (read_input (String.list_ascii_of_string input)) as [d|R]; [done|].
  destruct Hspec as (s1 & rest & Hn & Hne & Hrec & HR).
  rewrite (read_input_ok _ R); [done|].
  exists (s1 ++ String.list_ascii_of_string " " ++ String.list_ascii_of_string extra),
         (rest ++ String.list_ascii_of_string " " ++ String.list_ascii_of_string extra).
  split_and!; try done; [by apply field_app|by apply records_app].
Qed.

Lemma trailing_text_ignored_witness :
  main "1 0 0 1 1" = Some (Exit0 1 [(0, mkRect 0 0 1 1)]) ∧
  main ("1 0 0 1 1" +:+ " " +:+ "7 and more") = Some (Exit0 1 [(0, mkRect 0 0 1 1)]).
Proof.
  assert (H : main "1 0 0 1 1" = Some (Exit0 1 [(0, mkRect 0 0 1 1)]))
    by (vm_compute; reflexivity).
  split; [exact H|]. exact (trailing_text_ignored _ "7 and more" _ _ H).
Defined.

(** X18. A successful extraction consumes at least one character and
    returns a number within the range of its type: the stream it leaves is a
    proper suffix of the stream it was given. *)
Theorem extract_consumes (lo hi : Z) (s : list ascii) (v : Z) (rest : list ascii) :
  extract lo hi s = Some (v, rest) →
  lo ≤ v ≤ hi ∧ ∃ pre, s = pre ++ rest ∧ pre ≠ [] ∧ (length rest < length s)%nat.
Proof.
  intros (ws & sg & ds & -> & _ & _ & Hne & _ & _ & _ & Hrange)%extract_field.
  split; [done|]. exists (ws ++ sg ++ ds). split_and!.
  - by rewrite <- !app_assoc.
  - destruct ds; [done|]. intros Heq. apply (f_equal length) in Heq.
    rewrite !length_app in Heq. simpl in Heq. lia.
  - destruct ds; [done|]. rewrite !length_app. simpl. lia.
Qed.

Lemma extract_consumes_witness :
  extract INT_MIN INT_MAX (String.list_ascii_of_string "  -12x") =
    Some (-12, String.list_ascii_of_string "x") ∧
  INT_MIN ≤ -12 ≤ INT_MAX ∧
  ∃ pre, String.list_ascii_of_string "  -12x" = pre ++ String.list_ascii_of_string "x" ∧
         pre ≠ [] ∧
         (length (String.list_ascii_of_string "x")
          < length (String.list_ascii_of_string "  -12x"))%nat.
Proof.
  assert (H : extract INT_MIN INT_MAX (String.list_ascii_of_string "  -12x") =
              Some (-12, String.list_ascii_of_string "x")) by (vm_compute; reflexivity).
  split; [exact H|]. exact (extract_consumes _ _ _ _ _ H).
Defined.

(** ** Further facts about windows and small instances *)

(** X19. The emptiness test is monotone and agrees with the leaf test: a
    window that contains a window holding a rectangle holds that rectangle
    too, and a window that equals the grid bounds of some rectangle is never
    treated as empty. *)
Theorem windowHasAnyRect_monotone (RIv : list RI.t)
    (xi xj yk yl xi' xj' yk' yl' : Z) :
  xi' ≤ xi → xj ≤ xj' → yk' ≤ yk → yl ≤ yl' →
  (windowHasAnyRect RIv xi xj yk yl = true →
   windowHasAnyRect RIv xi' xj' yk' yl' = true) ∧
  (∀ rid, 0 ≤ rid → exactMatch RIv rid xi xj yk yl = true →
          windowHasAnyRect RIv xi xj yk yl = true).
Proof.
  intros H1 H2 H3 H4. split.
  - apply (hasRectK_within RIv (mkKey xi xj yk yl) (mkKey xi' xj' yk' yl')).
    unfold withinK. simpl. lia.
  - intros rid Hrid Hex.
    apply (exactMatch_true RIv rid (mkKey xi xj yk yl)) in Hex as (q & Hq & Hk).
    apply (hasRectK_true RIv (mkKey xi xj yk yl)). exists q.
    split; [by eapply list_elem_of_lookup_2|].
    apply insideK_true. injection Hk as -> -> -> ->. simpl. lia.
Qed.

Lemma windowHasAnyRect_monotone_witness :
  0 ≤ 1 ∧ 3 ≤ 3 ∧ 0 ≤ 1 ∧ 3 ≤ 4 ∧
  (windowHasAnyRect (RIv_of R3) 1 3 1 3 = true →
   windowHasAnyRect (RIv_of R3) 0 3 0 4 = true) ∧
  (∀ rid, 0 ≤ rid → exactMatch (RIv_of R3) rid 1 3 1 3 = true →
          windowHasAnyRect (RIv_of R3) 1 3 1 3 = true).
Proof.
  assert (H1 : 0 ≤ 1) by lia. assert (H2 : 3 ≤ 3) by lia. assert (H4 : 3 ≤ 4) by lia.
  split_and!; try assumption;
    apply (windowHasAnyRect_monotone (RIv_of R3) 1 3 1 3 0 3 0 4 H1 H2 H1 H4).
Defined.

Lemma sorted_pair (l : list Z) (a b : Z) :
  StronglySorted Z.lt l → a < b → (∀ v, v ∈ l ↔ v = a ∨ v = b) → l = [a; b].
Proof.
  intros Hs Hab Hel.
  assert (Ha : a ∈ l) by (apply Hel; auto). assert (Hb : b ∈ l) by (apply Hel; auto).
  destruct l as [|x [|y [|z l]]].
  - by apply elem_of_nil in Ha.
  - apply list_elem_of_singleton in Ha, Hb. lia.
  - apply StronglySorted_cons in Hs as [Hx _]. apply Forall_cons in Hx as [Hxy _].
    destruct (proj1 (Hel x)) as [->| ->]; [left| |];
      destruct (proj1 (Hel y)) as [->| ->]; try (right; left); try lia; done.
  - apply StronglySorted_cons in Hs as [Hx Hs]. apply Forall_cons in Hx as [Hxy Hx].
    apply Forall_cons in Hx as [Hxz _].
    apply StronglySorted_cons in Hs as [Hy _]. apply Forall_cons in Hy as [Hyz _].
    destruct (proj1 (Hel x)) as [->| ->]; [left| |];
      destruct (proj1 (Hel y)) as [->| ->]; try (right; left); try lia;
      destruct (proj1 (Hel z)) as [->| ->]; try (do 2 right; left); lia.
Qed.

(** X20. An instance of one rectangle with xl < xr and yb < yt always
    yields value 1, through the leaf choice for rectangle 0, and the
    selection [0]. *)
Theorem single_rectangle (r : Rect) :
  valid_rect r →
  engine [r] = Some (mkAnswer 1 (mkChoice 1 0), [0]).
Proof.
  intros [Hx Hy].
  destruct (axes_spec [r]) as (Hxs & Hys & Hxe & Hye & _).
  assert (Hxl : xs_of [r] = [xl r; xr r]).
  { apply sorted_pair; [done..|]. intros v. rewrite Hxe. split.
    - intros (r' & ->%list_elem_of_singleton & Hv). done.
    - intros Hv. exists r. split; [left|done]. }
  assert (Hyl : ys_of [r] = [yb r; yt r]).
  { apply sorted_pair; [done..|]. intros v. rewrite Hye. split.
    - intros (r' & ->%list_elem_of_singleton & Hv). done.
    - intros Hv. exists r. split; [left|done]. }
  assert (HRI : RIv_of [r] = [RI.mk 0 1 0 1]).
  { unfold RIv_of, index_rect. rewrite Hxl, Hyl. simpl.
    destruct (Z.ltb_spec (xl r) (xl r)); [lia|]. destruct (Z.ltb_spec (xl r) (xr r)); [|lia].
    destruct (Z.ltb_spec (xr r) (xr r)); [lia|].
    destruct (Z.ltb_spec (yb r) (yb r)); [lia|]. destruct (Z.ltb_spec (yb r) (yt r)); [|lia].
    destruct (Z.ltb_spec (yt r) (yt r)); [lia|]. done. }
  assert (Hroot : root [r] = mkKey 0 1 0 1) by (unfold root; by rewrite Hxl, Hyl).
  unfold engine, engine_with, engine_fuel, solve_root, recon_root.
  rewrite HRI, Hroot. vm_compute. reflexivity.
Qed.

Lemma single_rectangle_witness :
  valid_rect (mkRect (-5) 7 12 9) ∧
  engine [mkRect (-5) 7 12 9] = Some (mkAnswer 1 (mkChoice 1 0), [0]).
Proof.
  assert (H : valid_rect (mkRect (-5) 7 12 9)) by (unfold valid_rect; simpl; lia).
  split; [exact H|]. exact (single_rectangle _ H).
Defined.

Lemma lower_bound_mono (l : list Z) (u v : Z) :
  StronglySorted Z.lt l → u ∈ l → u ≤ v → lower_bound l u ≤ lower_bound l v.
Proof.
  intros Hs Hu Huv. destruct (decide (u = v)) as [->|Hne]; [done|].
  pose proof (lower_bound_lt l u v Hs Hu ltac:(lia)). lia.
Qed.

(** Rectangles laid out from left to right, each ending before the next
    begins, are separated by vertical cuts at the left sides. *)
Lemma row_gsep (R : list Rect) :
  Forall valid_rect R →
  (∀ i j a b, (i < j)%nat → R !! i = Some a → R !! j = Some b → xr a ≤ xl b) →
  ∀ len i k, (i + S len = length R)%nat →
    (∀ r, R !! i = Some r → xi k ≤ RI.xl (index_rect (xs_of R) (ys_of R) r)) →
    xj k = xj (root R) → yk k = yk (root R) → yl k = yl (root R) →
    gsep (RIv_of R) k (seqZ (Z.of_nat i) (Z.of_nat (S len))).
Proof.
  intros HR Hrow.
  destruct (xs_of_spec R) as [Hxs Hxe].
  assert (Hone : ∀ i r k, R !! i = Some r →
            insideK (index_rect (xs_of R) (ys_of R) r) k = true →
            gsep (RIv_of R) k [Z.of_nat i]).
  { intros i r k Hr Hin.
    apply (gsep_one _ _ _ (index_rect (xs_of R) (ys_of R) r)); [lia| |done].
    unfold RIv_of. by rewrite Nat2Z.id, list_lookup_fmap, Hr. }
  induction len as [|len IH]; intros i k Hlen Hleft Hxj Hyk Hyl;
    pose proof Hxj as Hxj'; pose proof Hyk as Hyk'; pose proof Hyl as Hyl';
    unfold root in Hxj', Hyk', Hyl'; simpl in Hxj', Hyk', Hyl'.
  - destruct (lookup_lt_is_Some_2 R i) as [r Hr]; [lia|].
    assert (Hin : r ∈ R) by by eapply list_elem_of_lookup_2.
    destruct (index_rect_spec R HR r Hin) as [_ Hroot]. apply insideK_true in Hroot.
    rewrite seqZ_cons by lia. rewrite seqZ_nil by lia.
    apply (Hone i r); [done|].
    apply insideK_true. specialize (Hleft r Hr). lia.
  - destruct (lookup_lt_is_Some_2 R i) as [r Hr]; [lia|].
    destruct (lookup_lt_is_Some_2 R (S i)) as [r' Hr']; [lia|].
    assert (Hin : r ∈ R) by by eapply list_elem_of_lookup_2.
    assert (Hin' : r' ∈ R) by by eapply list_elem_of_lookup_2.
    destruct (index_rect_spec R HR r Hin) as [[Hqx _] Hroot].
    destruct (index_rect_spec R HR r' Hin') as [[Hqx' _] Hroot'].
    apply insideK_true in Hroot, Hroot'.
    destruct (Hxe r Hin) as [_ Hxr]. destruct (Hxe r' Hin') as [Hxl' _].
    pose proof (lower_bound_mono _ _ _ Hxs Hxr (Hrow i (S i) r r' ltac:(lia) Hr Hr'))
      as Hsep.
    specialize (Hleft r Hr). simpl in Hqx, Hqx', Hroot, Hroot', Hleft.
    rewrite seqZ_cons by lia.
    change (Z.of_nat i :: seqZ (Z.succ (Z.of_nat i)) (Z.pred (Z.of_nat (S (S len)))))
      with ([Z.of_nat i] ++ seqZ (Z.succ (Z.of_nat i)) (Z.pred (Z.of_nat (S (S len))))).
    apply (gsep_vcut _ _ (lower_bound (xs_of R) (xl r'))); [lia|..].
    + apply (Hone i r); [done|]. apply insideK_true. simpl. lia.
    + replace (Z.succ (Z.of_nat i)) with (Z.of_nat (S i)) by lia.
      replace (Z.pred (Z.of_nat (S (S len)))) with (Z.of_nat (S len)) by lia.
      apply IH; try done; [lia|].
      intros r'' Hr''. assert (r'' = r') by congruence. subst r''. simpl. lia.
Qed.

(** X21. A row is taken whole: when the rectangles of a valid instance
    are listed from left to right and each ends (xr) no later than the next
    begins (xl), sharing an edge allowed, the engine returns value n and
    selects every rectangle. *)
Theorem row_all_selected (R : list Rect) :
  Forall valid_rect R → R ≠ [] →
  (∀ i j a b, (i < j)%nat → R !! i = Some a → R !! j = Some b → xr a ≤ xl b) →
  ∃ ans chosen,
    engine R = Some (ans, chosen) ∧ val ans = Z.of_nat (length R) ∧
    chosen ≡ₚ seqZ 0 (Z.of_nat (length R)).
Proof.
  intros HR Hne Hrow.
  destruct (engine_spec R HR Hne)
    as (ans & memo & chosen & visited & _ & Hreach & Hroot & _ & _ & He & Hlen & _ & _ & Hids & Hsep).
  pose proof (reachable_inv _ _ Hreach) as Hinv.
  pose proof (RIv_of_valid R HR) as Hv.
  assert (Hval : val ans = Z.of_nat (length R)).
  { apply Z.le_antisymm.
    - pose proof (val_upper _ Hv memo Hinv (S (size (root R))) (root R) ans
                    ltac:(lia) Hroot).
      pose proof (count_inside_bounds (RIv_of R) (root R)). rewrite RIv_of_n in *. lia.
    - destruct (length R) as [|len] eqn:HlenR; [by destruct R|].
      assert (Hg : gsep (RIv_of R) (root R) (seqZ (Z.of_nat 0) (Z.of_nat (S len)))).
      { apply (row_gsep R HR Hrow len 0%nat (root R)); try done; try lia.
        intros r Hr. assert (Hin : r ∈ R) by by eapply list_elem_of_lookup_2.
        destruct (index_rect_spec R HR r Hin) as [_ Hin0%insideK_true]. lia. }
      pose proof (gsep_bound _ Hv memo Hinv _ _ Hg ans Hroot) as Hb.
      rewrite length_seqZ in Hb. lia. }
  exists ans, chosen. split_and!; try done.
  apply submseteq_length_Permutation.
  - apply NoDup_submseteq; [by apply (separated_NoDup (RIv_of R))|].
    intros rid Hrid. destruct (Hids rid Hrid) as (_ & _ & _ & Hr & _).
    rewrite RIv_of_n in Hr. apply elem_of_seqZ. lia.
  - rewrite length_seqZ. lia.
Qed.

Lemma row_all_selected_witness :
  Forall valid_rect [mkRect 0 0 2 1; mkRect 2 0 4 3; mkRect 5 1 6 2] ∧
  [mkRect 0 0 2 1; mkRect 2 0 4 3; mkRect 5 1 6 2] ≠ [] ∧
  (∀ i j a b, (i < j)%nat →
     [mkRect 0 0 2 1; mkRect 2 0 4 3; mkRect 5 1 6 2] !! i = Some a →
     [mkRect 0 0 2 1; mkRect 2 0 4 3; mkRect 5 1 6 2] !! j = Some b → xr a ≤ xl b) ∧
  ∃ ans chosen,
    engine [mkRect 0 0 2 1; mkRect 2 0 4 3; mkRect 5 1 6 2] = Some (ans, chosen) ∧
    val ans = Z.of_nat (length [mkRect 0 0 2 1; mkRect 2 0 4 3; mkRect 5 1 6 2]) ∧
    chosen ≡ₚ seqZ 0 (Z.of_nat (length [mkRect 0 0 2 1; mkRect 2 0 4 3; mkRect 5 1 6 2])).
Proof.
  assert (HR : Forall valid_rect [mkRect 0 0 2 1; mkRect 2 0 4 3; mkRect 5 1 6 2])
    by (repeat constructor; unfold valid_rect; simpl; lia).
  assert (Hne : [mkRect 0 0 2 1; mkRect 2 0 4 3; mkRect 5 1 6 2] ≠ []) by discriminate.
  assert (Hrow : ∀ i j a b, (i < j)%nat →
     [mkRect 0 0 2 1; mkRect 2 0 4 3; mkRect 5 1 6 2] !! i = Some a →
     [mkRect 0 0 2 1; mkRect 2 0 4 3; mkRect 5 1 6 2] !! j = Some b → xr a ≤ xl b).
  { intros i j a b Hij Hi Hj.
    destruct i as [|[|[|i]]], j as [|[|[|j]]]; simpl in Hi, Hj;
      try lia; try discriminate; injection Hi as <-; injection Hj as <-; simpl; lia. }
  split; [exact HR|]. split; [exact Hne|]. split; [exact Hrow|].
  exact (row_all_selected _ HR Hne Hrow).
Defined.
